(** * Mora-dl: manifest-driven download and catalog reconciliation

    A shallow embedding of the core of [mora/cli.py], [mora/downloader.py],
    [mora/api.py] and [mora/metadata.py], the properties of it that the
    specification states, and further properties of the same code.

    Conventions of the embedding.
    - A Python [str] is the list of its code points ([pystr]); [bytes] is
      a list of byte values.
    - [Optional[T]] is [option T]; Python truthiness is written out at
      every use ([None], [0], the empty string and [[]] are falsy).
    - A [dict] whose iteration order is observed is an association list in
      insertion order; a [set] is a [gset]; the file system is a [gmap]
      from paths to contents.
    - A raised exception is the [inl] branch of a result; code that writes
      files threads the file system explicitly and returns it also when it
      raises.
    - The Unicode character database (used by [str.lower], [str.strip] and
      [unicodedata]) is not part of the repository: it is the interface
      [UnicodeData], fixed on ASCII by its laws. *)

From Stdlib Require Import ZArith NArith List String Ascii Lia ZifyBool ZifyN.
From Stdlib Require Import DecimalNat DecimalZ Sorting.Sorted Permutation.
From stdpp Require Import base option list gmap sets.

Open Scope Z_scope.

(* ================================================================== *)
(** * Python strings *)
(* ================================================================== *)

Abbreviation pystr := (list N).
Abbreviation pybytes := (list N).

(** An ASCII literal as a Python string. *)
Definition u (s : string) : pystr := map N_of_ascii (list_ascii_of_string s).

Definition is_ascii (c : N) : bool := (c <? 128)%N.

(** The character class [[a-z0-9]] of the last substitution of
    [normalize_str]. *)
Definition is_az09 (c : N) : bool :=
  ((97 <=? c) && (c <=? 122) || (48 <=? c) && (c <=? 57))%N.

(** [str.lower] on one ASCII character. *)
Definition ascii_lower (c : N) : N :=
  if ((65 <=? c) && (c <=? 90))%N then (c + 32)%N else c.

(** The ASCII characters for which [str.isspace] holds: TAB, LF, VT, FF,
    CR, the separators 0x1C-0x1F and the space. *)
Definition ascii_isspace (c : N) : bool :=
  ((9 <=? c) && (c <=? 13) || (28 <=? c) && (c <=? 31) || (c =? 32))%N.

(** The Unicode tables the program reads through the Python library.  The
    four laws state what every version of the Unicode database does on
    ASCII text. *)
Class UnicodeData := {
  py_lower : pystr -> pystr;
  py_isspace : N -> bool;
  nfd : pystr -> pystr;
  is_Mn : N -> bool;
  py_lower_ascii : forall s, forallb is_ascii s = true -> py_lower s = map ascii_lower s;
  py_isspace_ascii : forall c, is_ascii c = true -> py_isspace c = ascii_isspace c;
  nfd_ascii : forall s, forallb is_ascii s = true -> nfd s = s;
  is_Mn_ascii : forall c, is_ascii c = true -> is_Mn c = false
}.

(** [str(i)] for a non-negative and for an arbitrary integer. *)
Fixpoint uint_codes (d : Decimal.uint) : pystr :=
  match d with
  | Decimal.Nil => []
  | Decimal.D0 d => 48%N :: uint_codes d
  | Decimal.D1 d => 49%N :: uint_codes d
  | Decimal.D2 d => 50%N :: uint_codes d
  | Decimal.D3 d => 51%N :: uint_codes d
  | Decimal.D4 d => 52%N :: uint_codes d
  | Decimal.D5 d => 53%N :: uint_codes d
  | Decimal.D6 d => 54%N :: uint_codes d
  | Decimal.D7 d => 55%N :: uint_codes d
  | Decimal.D8 d => 56%N :: uint_codes d
  | Decimal.D9 d => 57%N :: uint_codes d
  end.

Definition str_nat (n : nat) : pystr := uint_codes (Nat.to_uint n).

Definition str_int (z : Z) : pystr :=
  match Z.to_int z with
  | Decimal.Pos d => uint_codes d
  | Decimal.Neg d => 45%N :: uint_codes d
  end.

(** Comparison of strings, code point by code point ([str.__lt__]). *)
Fixpoint str_compare (a b : pystr) : comparison :=
  match a, b with
  | [], [] => Eq
  | [], _ :: _ => Lt
  | _ :: _, [] => Gt
  | x :: a', y :: b' =>
      match (x ?= y)%N with
      | Eq => str_compare a' b'
      | c => c
      end
  end.

(** [haystack.replace(old, new)] for a non-empty [old]: occurrences are
    replaced from the left, without overlap.  [skip] counts the characters
    of a matched occurrence that are still to be dropped. *)
Fixpoint is_prefix (p s : pystr) : bool :=
  match p, s with
  | [], _ => true
  | _ :: _, [] => false
  | x :: p', y :: s' => (x =? y)%N && is_prefix p' s'
  end.

Fixpoint str_replace_from (old new : pystr) (skip : nat) (s : pystr) : pystr :=
  match s with
  | [] => []
  | x :: s' =>
      match skip with
      | S k => str_replace_from old new k s'
      | O =>
          if is_prefix old s
          then new ++ str_replace_from old new (Nat.pred (length old)) s'
          else x :: str_replace_from old new 0 s'
      end
  end.

Definition str_replace (old new s : pystr) : pystr := str_replace_from old new 0 s.

(* ================================================================== *)
(** * cli.py: normalize_str *)
(* ================================================================== *)

Section Normalize.
Context `{UnicodeData}.

(** [s.strip()]: leading and trailing whitespace removed. *)
Fixpoint lstrip (s : pystr) : pystr :=
  match s with
  | [] => []
  | c :: s' => if py_isspace c then lstrip s' else s
  end.

Definition py_strip (s : pystr) : pystr := rev (lstrip (rev (lstrip s))).

(** The lazy [.*?] followed by the closing delimiter [cl]: the number of
    characters before the first [cl], provided no line feed comes before
    it ([.] does not match a line feed). *)
Fixpoint lazy_close (cl : N) (s : pystr) : option nat :=
  match s with
  | [] => None
  | x :: s' =>
      if (x =? cl)%N then Some O
      else if (x =? 10)%N then None
      else S <$> lazy_close cl s'
  end.

(** [re.sub(op .*? cl, '', s)] for one-character delimiters: scanning from
    the left, an [op] that the pattern matches from is removed together
    with everything up to its closing [cl]; any other character is kept.
    [skip] counts the characters of the current match still to drop. *)
Fixpoint re_sub_group_from (op cl : N) (skip : nat) (s : pystr) : pystr :=
  match s with
  | [] => []
  | x :: s' =>
      match skip with
      | S k => re_sub_group_from op cl k s'
      | O =>
          if (x =? op)%N then
            match lazy_close cl s' with
            | Some n => re_sub_group_from op cl (S n) s'
            | None => x :: re_sub_group_from op cl 0 s'
            end
          else x :: re_sub_group_from op cl 0 s'
      end
  end.

Definition re_sub_group (op cl : N) (s : pystr) : pystr := re_sub_group_from op cl 0 s.

Definition normalize_str (s : pystr) : pystr :=
  match s with
  | [] => []
  | _ =>
      let s := py_strip (py_lower s) in
      let s := re_sub_group 40 41 s in
      let s := re_sub_group 91 93 s in
      let s := List.filter (fun c => negb (is_Mn c)) (nfd s) in
      List.filter is_az09 s
  end.

End Normalize.

(* ================================================================== *)
(** * models.py *)
(* ================================================================== *)

Module Artist.
Record t := mk {
  id : Z;
  name : pystr;
  picture : option pystr;
  type : option pystr
}.
End Artist.

Module Album.
Record t := mk {
  id : Z;
  title : pystr;
  cover : option pystr;
  vibrantColor : option pystr;
  artist : option Artist.t
}.
End Album.

(** [TrackSearchItem]; [TrackInfo] is the same class.  [artist] and
    [album] are declared as required.  The program reads [artist.name]
    without a test, and tests [album] for [None] each time before it reads
    the title (and takes the empty string otherwise): [artist] is required
    here and [album] optional, which covers the declared type. *)
Module Track.
Record t := mk {
  id : Z;
  title : pystr;
  duration : Z;
  popularity : option Z;
  artist : Artist.t;
  artists : list Artist.t;
  album : option Album.t;
  explicit : option bool;
  audioQuality : option pystr;
  version : option pystr;
  isrc : option pystr;
  copyright : option pystr;
  bpm : option Z;
  key : option pystr;
  keyScale : option pystr;
  releaseDate : option pystr;
  trackNumber : option Z;
  volumeNumber : option Z;
  streamStartDate : option pystr
}.

(** The assignment [t.artists = l] (reached through an alias of the list,
    see [strict_filter]). *)
Definition set_artists (l : list Artist.t) (x : t) : t :=
  mk (id x) (title x) (duration x) (popularity x) (artist x) l (album x)
     (explicit x) (audioQuality x) (version x) (isrc x) (copyright x) (bpm x)
     (key x) (keyScale x) (releaseDate x) (trackNumber x) (volumeNumber x)
     (streamStartDate x).
End Track.

#[export] Instance Artist_eq_dec : EqDecision Artist.t.
Proof. solve_decision. Defined.
#[export] Instance Album_eq_dec : EqDecision Album.t.
Proof. solve_decision. Defined.
#[export] Instance Track_eq_dec : EqDecision Track.t.
Proof. solve_decision. Defined.

(* ================================================================== *)
(** * A dict in insertion order *)
(* ================================================================== *)

(** A Python [dict] keeps its keys in the order of their first insertion;
    assigning to a key that is present replaces the value in place. *)
Section Dict.
Context {K V : Type} `{EqDecision K}.

Fixpoint dict_get (k : K) (d : list (K * V)) : option V :=
  match d with
  | [] => None
  | (k', v) :: d' => if decide (k' = k) then Some v else dict_get k d'
  end.

Fixpoint dict_set (k : K) (v : V) (d : list (K * V)) : list (K * V) :=
  match d with
  | [] => [(k, v)]
  | (k', v') :: d' =>
      if decide (k' = k) then (k, v) :: d' else (k', v') :: dict_set k v d'
  end.

Definition dict_values (d : list (K * V)) : list V := map snd d.
Definition dict_keys (d : list (K * V)) : list K := map fst d.

End Dict.

(* ================================================================== *)
(** * cli.py: deduplicate_tracks *)
(* ================================================================== *)

Section Dedup.
Context `{UnicodeData}.

(** [qualities.get(q, 0)]. *)
Definition qualities (q : option pystr) : Z :=
  match q with
  | None => 0
  | Some q =>
      if decide (q = u "LOW") then 1
      else if decide (q = u "HIGH") then 2
      else if decide (q = u "LOSSLESS") then 3
      else if decide (q = u "HI_RES_LOSSLESS") then 4
      else 0
  end.

(** [t.album.title] if [t.album], else the empty string. *)
Definition album_title (t : Track.t) : pystr :=
  match Track.album t with
  | Some al => Album.title al
  | None => []
  end.

Definition dedup_key (t : Track.t) : pystr * pystr * option bool :=
  (normalize_str (Track.title t), normalize_str (album_title t), Track.explicit t).

(** The body of the loop of [deduplicate_tracks]. *)
Definition dedup_step (unique_tracks : list (pystr * pystr * option bool * Track.t))
    (t : Track.t) : list (pystr * pystr * option bool * Track.t) :=
  let key := dedup_key t in
  match dict_get key unique_tracks with
  | None => dict_set key t unique_tracks
  | Some cur =>
      let curr_q := qualities (Track.audioQuality cur) in
      let new_q := qualities (Track.audioQuality t) in
      if new_q >? curr_q then dict_set key t unique_tracks else unique_tracks
  end.

Definition deduplicate_tracks (tracks_list : list Track.t) : list Track.t :=
  dict_values (fold_left dedup_step tracks_list []).

End Dedup.

(** ** What the specification says of deduplication *)

(** The distinct elements of a list, in the order of their first
    occurrence. *)
Fixpoint first_occurrences {K} `{EqDecision K} (l : list K) : list K :=
  match l with
  | [] => []
  | k :: l' => k :: List.filter (fun k' => bool_decide (k' <> k)) (first_occurrences l')
  end.

Section DedupSpec.
Context `{UnicodeData}.

(** [t] is, among the records of [l] that have its key, the first one of
    maximal quality: the records of the group before it are strictly
    worse, those after it are not better. *)
Definition first_best (l : list Track.t) (t : Track.t) : Prop :=
  exists l1 l2, l = l1 ++ t :: l2 /\
    (forall x, x ∈ l1 -> dedup_key x = dedup_key t ->
       qualities (Track.audioQuality x) < qualities (Track.audioQuality t)) /\
    (forall x, x ∈ l2 -> dedup_key x = dedup_key t ->
       qualities (Track.audioQuality x) <= qualities (Track.audioQuality t)).

(** What the dict of [deduplicate_tracks] holds after the records [p]. *)
Definition dedup_inv (p : list Track.t)
    (d : list (pystr * pystr * option bool * Track.t)) : Prop :=
  dict_keys d = first_occurrences (map dedup_key p) /\
  (forall k t, (k, t) ∈ d -> dedup_key t = k /\ first_best p t).

End DedupSpec.

(* ================================================================== *)
(** * cli.py: _handle_artist_search, from the artist filter to the sort *)
(* ================================================================== *)

(** [sorted(l, key=...)] compares keys with [<] only and is stable: an
    element is placed before the elements after it that are not smaller. *)
Section Sorted.
Context {A : Type} (lt : A -> A -> bool).

Fixpoint sorted_insert (x : A) (l : list A) : list A :=
  match l with
  | [] => [x]
  | y :: l' => if lt y x then y :: sorted_insert x l' else x :: y :: l'
  end.

Definition py_sorted (l : list A) : list A := fold_right sorted_insert [] l.

End Sorted.

(** [<] on the key tuples [(int, str, int)] of the final sort: the first
    component that differs decides. *)
Definition key_compare (a b : Z * pystr * Z) : comparison :=
  let '(a1, a2, a3) := a in
  let '(b1, b2, b3) := b in
  match a1 ?= b1 with
  | Eq => match str_compare a2 b2 with
          | Eq => a3 ?= b3
          | c => c
          end
  | c => c
  end.

Definition key_lt (a b : Z * pystr * Z) : bool :=
  match key_compare a b with Lt => true | _ => false end.

(** A three-way comparison that decides a strict total order. *)
Class OrderCmp {A : Type} (cmp : A -> A -> comparison) : Prop := {
  cmp_eq : forall a b, cmp a b = Eq -> a = b;
  cmp_refl : forall a, cmp a a = Eq;
  cmp_opp : forall a b, cmp b a = CompOpp (cmp a b);
  cmp_lt_trans : forall a b c, cmp a b = Lt -> cmp b c = Lt -> cmp a c = Lt
}.

Section Reconcile.
Context `{UnicodeData}.

(** The condition of lines 283-284 on one artist [a] of a track: [a], its
    name and its id are truthy, the ids print alike and the names agree
    after [lower().strip()]. *)
Definition artist_matches (artist a : Artist.t) : bool :=
  negb (bool_decide (Artist.name a = []))
  && negb (Artist.id a =? 0)
  && bool_decide (str_int (Artist.id a) = str_int (Artist.id artist))
  && bool_decide (py_strip (py_lower (Artist.name a)) = py_strip (py_lower (Artist.name artist))).

(** The loop of lines 278-286.  The track objects of [artist_info.tracks]
    live in [heap], object [i] at index [i]; [strict_tracks] holds
    references to them.  [track_artists = t.artists or []] is the list
    object of the track itself when that list is non-empty, so the
    [append] of the next line writes into the track; when the list is
    empty, [[]] is a fresh list and the track is left alone.  [t.artist]
    is an object, hence truthy. *)
Record filter_state := {
  heap : list Track.t;
  strict_tracks : list nat
}.

Definition strict_filter_step (artist : Artist.t) (st : filter_state) (i : nat)
    : filter_state :=
  match heap st !! i with
  | None => st
  | Some t =>
      let a := Track.artist t in
      let '(heap', track_artists) :=
        match Track.artists t with
        | [] => (heap st, [a])
        | l => (<[i := Track.set_artists (l ++ [a]) t]> (heap st), l ++ [a])
        end in
      {| heap := heap';
         strict_tracks :=
           if existsb (artist_matches artist) track_artists
           then strict_tracks st ++ [i] else strict_tracks st |}
  end.

Definition strict_filter (artist : Artist.t) (tracks : list Track.t) : filter_state :=
  fold_left (strict_filter_step artist) (seq 0 (length tracks))
    {| heap := tracks; strict_tracks := [] |}.

(** The objects a list of references denotes. *)
Definition deref (heap : list Track.t) (refs : list nat) : list Track.t :=
  omap (fun i => heap !! i) refs.

(** [unique_tracks = {t.id: t for t in unique_tracks_list}]. *)
Definition unique_tracks_by_id (unique_tracks_list : list Track.t) : list (Z * Track.t) :=
  fold_left (fun d t => dict_set (Track.id t) t d) unique_tracks_list [].

(** Lines 293-300. *)
Definition verified_album_ids (itunes_albums itunes_tracks : gset pystr)
    (unique_tracks : list (Z * Track.t)) : gset Z :=
  if negb (bool_decide (itunes_albums = ∅)) || negb (bool_decide (itunes_tracks = ∅))
  then
    fold_left (fun (ids : gset Z) t =>
        let n_album := normalize_str (album_title t) in
        let n_track := normalize_str (Track.title t) in
        if bool_decide (n_album ∈ itunes_albums) || bool_decide (n_track ∈ itunes_tracks)
        then match Track.album t with
             | Some al => ids ∪ {[Album.id al]}
             | None => ids
             end
        else ids)
      (dict_values unique_tracks) ∅
  else ∅.

(** Lines 306-316: the value of [is_verified] for the track [t]. *)
Definition is_verified (itunes_albums itunes_tracks : gset pystr)
    (verified_album_ids : gset Z) (t : Track.t) : bool :=
  if bool_decide (itunes_albums = ∅) && bool_decide (itunes_tracks = ∅)
  then default 0 (Track.popularity t) >=? 5
  else
    let n_album := normalize_str (album_title t) in
    let n_track := normalize_str (Track.title t) in
    if match Track.album t with
       | Some al => bool_decide (Album.id al ∈ verified_album_ids)
       | None => false
       end then true
    else if bool_decide (n_track ∈ itunes_tracks) then true
    else if bool_decide (n_album ∈ itunes_albums) then true
    else if match Track.popularity t with
            | Some p => negb (p =? 0) && (p >=? 50)
            | None => false
            end then true
    else false.

(** Lines 326-331. *)
Definition album_pops_step (album_pops : gmap pystr Z) (t : Track.t) : gmap pystr Z :=
  let al_key := normalize_str (album_title t) in
  let pop := default 0 (Track.popularity t) in
  match album_pops !! al_key with
  | None => <[al_key := pop]> album_pops
  | Some cur => if pop >? cur then <[al_key := pop]> album_pops else album_pops
  end.

Definition album_pops (final_tracks : list Track.t) : gmap pystr Z :=
  fold_left album_pops_step final_tracks ∅.

(** The key of lines 333-337. *)
Definition sort_key (album_pops : gmap pystr Z) (x : Track.t) : Z * pystr * Z :=
  (- default 0 (album_pops !! normalize_str (album_title x)),
   normalize_str (album_title x),
   default 0 (Track.trackNumber x)).

(** Lines 302-324: the verified tracks, or all of them when none is. *)
Definition final_tracks (itunes_albums itunes_tracks : gset pystr)
    (unique_tracks : list (Z * Track.t)) : list Track.t :=
  let ids := verified_album_ids itunes_albums itunes_tracks unique_tracks in
  match List.filter (is_verified itunes_albums itunes_tracks ids) (dict_values unique_tracks) with
  | [] => dict_values unique_tracks
  | verified => verified
  end.

Definition sorted_tracks (final_tracks : list Track.t) : list Track.t :=
  let pops := album_pops final_tracks in
  py_sorted (fun x y => key_lt (sort_key pops x) (sort_key pops y)) final_tracks.

(** Lines 278-337 as one function of the chosen artist, the tracks of
    [client.get_artist] and the two sets of [get_itunes_fingerprint]. *)
Definition unique_tracks (artist : Artist.t) (tracks : list Track.t)
    : list (Z * Track.t) :=
  let st := strict_filter artist tracks in
  let unique_tracks_list := deduplicate_tracks (deref (heap st) (strict_tracks st)) in
  unique_tracks_by_id unique_tracks_list.

Definition reconcile (artist : Artist.t) (tracks : list Track.t)
    (itunes_albums itunes_tracks : gset pystr) : list Track.t :=
  sorted_tracks (final_tracks itunes_albums itunes_tracks (unique_tracks artist tracks)).

End Reconcile.

(** ** What the filter does to a track *)

(** The track object after the loop of [strict_filter] has visited it. *)
Definition visited (t : Track.t) : Track.t :=
  match Track.artists t with
  | [] => t
  | l => Track.set_artists (l ++ [Track.artist t]) t
  end.

(** ** What the specification says of the order *)

Section OrderSpec.
Context `{UnicodeData}.

(** The largest popularity (a missing one counting as 0) among the tracks
    of [l] whose normalized album title is [al]; 0 when there is none. *)
Definition album_max_popularity (l : list Track.t) (al : pystr) : Z :=
  match List.filter (fun t => bool_decide (normalize_str (album_title t) = al)) l with
  | [] => 0
  | t :: g => fold_right Z.max (default 0 (Track.popularity t))
                (map (fun t => default 0 (Track.popularity t)) g)
  end.

(** The key the specification sorts by, and its order. *)
Definition spec_key (l : list Track.t) (t : Track.t) : Z * pystr * Z :=
  (- album_max_popularity l (normalize_str (album_title t)),
   normalize_str (album_title t),
   default 0 (Track.trackNumber t)).

Definition spec_key_le (l : list Track.t) (a b : Track.t) : Prop :=
  key_compare (spec_key l a) (spec_key l b) <> Gt.

(** The popularities of the tracks of an album, in the order of the list. *)
Definition group_pops (l : list Track.t) (al : pystr) : list Z :=
  map (fun t => default 0 (Track.popularity t))
    (List.filter (fun t => bool_decide (normalize_str (album_title t) = al)) l).

(** The largest element of a list, the first element taken as the start. *)
Definition max_of (g : list Z) : option Z :=
  match g with
  | [] => None
  | a :: g' => Some (fold_right Z.max a g')
  end.

End OrderSpec.

(** ** What the specification says of classification *)

Inductive verdict := Verified | Suspect.

Section ClassifySpec.
Context `{UnicodeData}.

Definition classify (itunes_albums itunes_tracks : gset pystr)
    (verified_album_ids : gset Z) (t : Track.t) : verdict :=
  if is_verified itunes_albums itunes_tracks verified_album_ids t
  then Verified else Suspect.

(** The precedence of the specification, rule by rule. *)
Definition classify_spec (reference_albums reference_tracks : gset pystr)
    (verified_album_ids : gset Z) (t : Track.t) : verdict :=
  let popularity := default 0 (Track.popularity t) in
  if bool_decide (reference_albums = ∅ /\ reference_tracks = ∅) then
    if 5 <=? popularity then Verified else Suspect
  else if match Track.album t with
          | Some al => bool_decide (Album.id al ∈ verified_album_ids)
          | None => false
          end then Verified
  else if bool_decide (normalize_str (Track.title t) ∈ reference_tracks) then Verified
  else if bool_decide (normalize_str (album_title t) ∈ reference_albums) then Verified
  else if 50 <=? popularity then Verified
  else Suspect.

End ClassifySpec.

(* ================================================================== *)
(** * downloader.py *)
(* ================================================================== *)

(** The exceptions the modelled code raises. *)
Inductive exn :=
| ValueError (msg : pystr)
| TypeError
| BinasciiError
| RequestException
| FileNotFoundError
| ParseError.

(** ** base64.b64decode

    [base64.b64decode(s)] with its default [validate=False], as the
    library documents it: a [str] must be ASCII; characters outside the
    base-64 alphabet are discarded; decoding stops at the padding that
    completes a group; data that ends inside a group is an error.  The
    state is the one of the loop of [binascii.a2b_base64]. *)

Definition b64_digit (c : N) : option N :=
  (if (65 <=? c) && (c <=? 90) then Some (c - 65)
   else if (97 <=? c) && (c <=? 122) then Some (c - 71)
   else if (48 <=? c) && (c <=? 57) then Some (c + 4)
   else if c =? 43 then Some 62
   else if c =? 47 then Some 63
   else None)%N.

Fixpoint a2b_base64 (quad_pos : nat) (leftchar : N) (pads : nat)
    (bin_data : pybytes) (ascii_data : pystr) : exn + pybytes :=
  match ascii_data with
  | [] => match quad_pos with O => inr bin_data | _ => inl BinasciiError end
  | c :: rest =>
      if (c =? 61)%N then
        if (2 <=? quad_pos)%nat then
          if (4 <=? quad_pos + S pads)%nat then inr bin_data
          else a2b_base64 quad_pos leftchar (S pads) bin_data rest
        else a2b_base64 quad_pos leftchar pads bin_data rest
      else
        match b64_digit c with
        | None => a2b_base64 quad_pos leftchar pads bin_data rest
        | Some v =>
            match quad_pos with
            | 0%nat => a2b_base64 1 v 0 bin_data rest
            | 1%nat =>
                a2b_base64 2 (N.land v 15) 0
                  (bin_data ++ [N.lor (N.shiftl leftchar 2) (N.shiftr v 4)]) rest
            | 2%nat =>
                a2b_base64 3 (N.land v 3) 0
                  (bin_data ++ [N.lor (N.shiftl leftchar 4) (N.shiftr v 2)]) rest
            | _ =>
                a2b_base64 0 0 0
                  (bin_data ++ [N.lor (N.shiftl leftchar 6) v]) rest
            end
        end
  end.

Definition b64decode (s : pystr) : exn + pybytes :=
  if forallb is_ascii s then a2b_base64 0 0 0 [] s
  else inl (ValueError (u "string argument should contain only ASCII characters")).

(** ** The file system and the remote source *)

(** What [requests.get(url, stream=True)] and the reading of its body come
    to: nothing at all (the request, [raise_for_status] or the read of the
    content length raises, before the destination is opened), or the
    chunks of [iter_content], after which the stream either ends or
    raises. *)
Inductive response :=
| NoResponse
| Body (chunks : list pybytes) (complete : bool).

(** Code that reads and writes files: a function of the file system that
    returns a value or an exception, and the file system it leaves. *)
Definition io (A : Type) : Type := gmap pystr pybytes -> (exn + A) * gmap pystr pybytes.

Definition ret {A} (a : A) : io A := fun fs => (inr a, fs).
Definition raise {A} (e : exn) : io A := fun fs => (inl e, fs).
Definition bind {A B} (m : io A) (k : A -> io B) : io B :=
  fun fs => match m fs with
            | (inr a, fs') => k a fs'
            | (inl e, fs') => (inl e, fs')
            end.

Notation "x <- m ;; k" := (bind m (fun x => k))
  (at level 100, m at next level, right associativity).
Notation "m ;;; k" := (bind m (fun _ => k))
  (at level 100, right associativity).

(** A [for] loop that carries a value from one iteration to the next. *)
Fixpoint for_each {A S} (l : list A) (body : S -> A -> io S) (s : S) : io S :=
  match l with
  | [] => ret s
  | a :: l' => s' <- body s a ;; for_each l' body s'
  end.

(** [open(p, "wb")], [out.write(data)], [open(p, "rb").read()] and
    [os.remove(p)]. *)
Definition open_wb (p : pystr) : io unit := fun fs => (inr tt, <[p := []]> fs).
Definition write (p : pystr) (data : pybytes) : io unit :=
  fun fs => (inr tt, <[p := default [] (fs !! p) ++ data]> fs).
Definition read (p : pystr) : io pybytes :=
  fun fs => match fs !! p with
            | Some data => (inr data, fs)
            | None => (inl FileNotFoundError, fs)
            end.
Definition os_remove (p : pystr) : io unit :=
  fun fs => match fs !! p with
            | Some _ => (inr tt, delete p fs)
            | None => (inl FileNotFoundError, fs)
            end.

(** [os.path.join(a, b)] (POSIX). *)
Definition os_path_join (a b : pystr) : pystr :=
  match b with
  | 47%N :: _ => b
  | _ => match rev a with
         | [] => b
         | 47%N :: _ => a ++ b
         | _ => a ++ 47%N :: b
         end
  end.

(** The directory part that [os.path.join] puts before a relative name. *)
Definition join_prefix (a : pystr) : pystr :=
  match rev a with
  | [] => []
  | 47%N :: _ => a
  | _ => a ++ [47%N]
  end.

(** [_sanitize_filename]: the characters backslash, slash, star, question
    mark, colon, double quote, less-than, greater-than and bar are
    removed. *)
Definition _sanitize_filename (name : pystr) : pystr :=
  List.filter (fun c => negb (bool_decide (c ∈ [92; 47; 42; 63; 58; 34; 60; 62; 124]%N))) name.

(** [sep.join(l)]. *)
Fixpoint str_join (sep : pystr) (l : list pystr) : pystr :=
  match l with
  | [] => []
  | [a] => a
  | a :: l' => a ++ sep ++ str_join sep l'
  end.

(** An [S] element of the segment timeline, with its attributes [d] and
    [r] read as integers ([int(None)] raises when [d] is missing). *)
Record S_elem := { S_d : option Z; S_r : option Z }.

(** What the lookups of lines 66-85 find in the manifest: the text of
    [BaseURL] (or the empty string), the attributes of the [SegmentTemplate] of the
    [Representation], and the [S] elements of its [SegmentTimeline] when
    there is one.  The XML parser is not part of the repository. *)
Inductive mpd :=
| NotXML
| NoRepresentation
| NoSegmentTemplate
| SegmentTemplate (base_url : pystr) (initialization media : option pystr)
    (timeline : option (list S_elem)).

(** Lines 94-98: the durations of the segments. *)
Definition expand_step (segments : list Z) (s : S_elem) : exn + list Z :=
  match S_d s with
  | None => inl TypeError
  | Some d =>
      let r := default 0 (S_r s) + 1 in
      inr (segments ++ repeat d (Z.to_nat r))
  end.

Fixpoint expand_from (segments : list Z) (timeline : list S_elem) : exn + list Z :=
  match timeline with
  | [] => inr segments
  | s :: rest =>
      match expand_step segments s with
      | inl e => inl e
      | inr segments' => expand_from segments' rest
      end
  end.

Definition expand_timeline (timeline : list S_elem) : exn + list Z :=
  expand_from [] timeline.

Section Downloader.
(** The remote source, [urllib.parse.urljoin], the XML lookups and the
    directory of the downloader. *)
Variable fetch : pystr -> response.
Variable urljoin : pystr -> pystr -> pystr.
Variable parse_mpd : pybytes -> mpd.
Variable output_dir : pystr.

Definition _download_file (url dest : pystr) : io unit :=
  fun fs =>
    match fetch url with
    | NoResponse => (inl RequestException, fs)
    | Body chunks complete =>
        let fs' := <[dest := concat chunks]> fs in
        if complete then (inr tt, fs') else (inl RequestException, fs')
    end.

Definition artist_names (metadata : Track.t) : pystr :=
  str_join (u ", ")
    (List.filter (fun n => negb (bool_decide (n = [])))
       (map Artist.name (Track.artists metadata))).

Definition init_path (metadata : Track.t) : pystr :=
  os_path_join output_dir (str_int (Track.id metadata) ++ u "_init.m4s").

Definition seg_path (metadata : Track.t) (i : nat) : pystr :=
  os_path_join output_dir
    (str_int (Track.id metadata) ++ u "_seg_" ++ str_nat i ++ u ".m4s").

Definition seg_url (base_url media_template : pystr) (i : nat) : pystr :=
  urljoin base_url (str_replace (u "$Number$") (str_nat i) media_template).

Definition out_path (metadata : Track.t) : pystr :=
  os_path_join output_dir
    (_sanitize_filename
       (Artist.name (Track.artist metadata) ++ u " - " ++ Track.title metadata ++ u ".flac")).

(** Lines 100-124: the assembly from the segments. *)
Definition assemble (base_url init_template media_template : pystr)
    (segments : list Z) (metadata : Track.t) : io pystr :=
  let init_url := urljoin base_url init_template in
  _download_file init_url (init_path metadata) ;;;
  media_paths <-
    for_each (seq 1 (length segments))
      (fun media_paths i =>
         _download_file (seg_url base_url media_template i) (seg_path metadata i) ;;;
         ret (media_paths ++ [seg_path metadata i]))
      [] ;;
  open_wb (out_path metadata) ;;;
  (data <- read (init_path metadata) ;; write (out_path metadata) data) ;;;
  for_each media_paths
    (fun _ mp => data <- read mp ;; write (out_path metadata) data) tt ;;;
  os_remove (init_path metadata) ;;;
  for_each media_paths (fun _ mp => os_remove mp) tt ;;;
  ret (out_path metadata).

Definition _download_dash (manifest_xml : pybytes) (metadata : Track.t) : io pystr :=
  match parse_mpd manifest_xml with
  | NotXML => raise ParseError
  | NoRepresentation => raise (ValueError (u "Could not find Representation in MPD"))
  | NoSegmentTemplate => raise (ValueError (u "Could not find SegmentTemplate"))
  | SegmentTemplate base_url (Some ((_ :: _) as init_template))
      (Some ((_ :: _) as media_template)) timeline =>
      match timeline with
      | None =>
          let media_url := seg_url base_url media_template 1 in
          let out_path :=
            os_path_join output_dir
              (_sanitize_filename
                 (artist_names metadata ++ u " - " ++ Track.title metadata ++ u ".flac")) in
          _download_file media_url out_path ;;; ret out_path
      | Some timeline =>
          match expand_timeline timeline with
          | inl e => raise e
          | inr segments => assemble base_url init_template media_template segments metadata
          end
      end
  | SegmentTemplate _ _ _ _ => raise (ValueError (u "Missing attributes in SegmentTemplate"))
  end.

(** [manifest_data]: the dict under ["data"], if any, with its entries
    ["manifestMimeType"] and ["manifest"]. *)
Record manifest_inner := {
  manifestMimeType : option pystr;
  manifest : option pystr
}.

(** [f"{mime}"]. *)
Definition str_opt (s : option pystr) : pystr := default (u "None") s.

Section Track.
(** The handler of a direct-URL manifest, which the claims do not look
    into. *)
Variable _download_bts : pybytes -> Track.t -> io pystr.

Definition download_track (track_id : Z) (manifest_data : option manifest_inner)
    (metadata : Track.t) : io pystr :=
  let mime := manifest_data ≫= manifestMimeType in
  let manifest_b64 := manifest_data ≫= manifest in
  match manifest_b64 with
  | None | Some [] =>
      raise (ValueError (u "Manifest is empty for track " ++ str_int track_id))
  | Some manifest_b64 =>
      match b64decode manifest_b64 with
      | inl e => raise e
      | inr manifest_bytes =>
          if bool_decide (mime = Some (u "application/vnd.tidal.bts"))
          then _download_bts manifest_bytes metadata
          else if bool_decide (mime = Some (u "application/dash+xml"))
          then _download_dash manifest_bytes metadata
          else raise (ValueError (u "Unsupported manifest type: " ++ str_opt mime))
      end
  end.

End Track.
End Downloader.

(** ** What the specification says of the manifest *)

(** A timeline entry of the specification: a duration and an optional
    repeat count. *)
Definition timeline_of (entries : list (Z * option Z)) : list S_elem :=
  map (fun e => {| S_d := Some (fst e); S_r := snd e |}) entries.

(** Valid base64 (RFC 4648): groups of four characters of the alphabet,
    the last group possibly ending in one or two padding characters. *)
Definition is_b64_char (c : N) : bool :=
  match b64_digit c with Some _ => true | None => false end.

Fixpoint valid_base64 (s : pystr) : bool :=
  match s with
  | [] => true
  | a :: b :: c :: d :: rest =>
      is_b64_char a && is_b64_char b &&
      match rest with
      | [] => (is_b64_char c && (is_b64_char d || (d =? 61)%N))
              || ((c =? 61)%N && (d =? 61)%N)
      | _ => is_b64_char c && is_b64_char d && valid_base64 rest
      end
  | _ => false
  end.

(** The characters the decoder does not ignore: the alphabet and the
    padding character. *)
Definition b64_kept (c : N) : bool := is_b64_char c || (c =? 61)%N.

(** ** What the specification says of the assembly *)

(** The bytes of a segment: those of a response that came through
    completely. *)
Definition body (r : response) : option pybytes :=
  match r with
  | Body chunks true => Some (concat chunks)
  | _ => None
  end.

(** The file system after the files [ps] have been removed. *)
Definition remove_all (ps : list pystr) (fs : gmap pystr pybytes) : gmap pystr pybytes :=
  fold_left (fun fs p => delete p fs) ps fs.

Section AssemblySpec.
Variable fetch : pystr -> response.
Variable urljoin : pystr -> pystr -> pystr.
Variable output_dir : pystr.
Variables base_url media_template : pystr.
Variable metadata : Track.t.

(** The bytes served for media segment [i]. *)
Definition segment_bytes (i : nat) : pybytes :=
  default [] (body (fetch (seg_url urljoin base_url media_template i))).

(** The file system after the media segments [l] have been stored. *)
Definition store_segments (l : list nat) (fs : gmap pystr pybytes) : gmap pystr pybytes :=
  fold_left (fun fs i => <[seg_path output_dir metadata i := segment_bytes i]> fs) l fs.

(** The body of the loop of lines 105-109. *)
Definition fetch_segment (media_paths : list pystr) (i : nat) : io (list pystr) :=
  _download_file fetch (seg_url urljoin base_url media_template i)
    (seg_path output_dir metadata i) ;;;
  ret (media_paths ++ [seg_path output_dir metadata i]).

End AssemblySpec.

(* ================================================================== *)
(** * Tables for evaluation *)
(* ================================================================== *)

(** The tables that leave every non-ASCII character alone.  They agree
    with the Unicode database on ASCII text, which is what the laws of
    [UnicodeData] require, and are used to run the program on ASCII
    examples. *)

Lemma map_ascii_lower_id_on_ascii (s : pystr) :
  forallb is_ascii s = true -> map (fun c => if is_ascii c then ascii_lower c else c) s = map ascii_lower s.
Proof.
  induction s as [|c s IH]; simpl; [reflexivity|].
  intros Hs. apply andb_true_iff in Hs as [Hc Hs].
  rewrite Hc, IH by assumption. reflexivity.
Qed.

Lemma ascii_isspace_on_ascii (c : N) :
  is_ascii c = true -> is_ascii c && ascii_isspace c = ascii_isspace c.
Proof. intros Hc. rewrite Hc. reflexivity. Qed.

#[export] Instance ascii_tables : UnicodeData := {|
  py_lower := map (fun c => if is_ascii c then ascii_lower c else c);
  py_isspace := fun c => is_ascii c && ascii_isspace c;
  nfd := fun s => s;
  is_Mn := fun _ => false;
  py_lower_ascii := map_ascii_lower_id_on_ascii;
  py_isspace_ascii := ascii_isspace_on_ascii;
  nfd_ascii := fun s _ => eq_refl;
  is_Mn_ascii := fun c _ => eq_refl
|}.

(* ================================================================== *)
(** * Sample data *)
(* ================================================================== *)

(** An artist, two albums and a few tracks, a manifest and a remote
    source, on which the program is run in the examples. *)
Module Sample.

Definition muse : Artist.t := Artist.mk 7 (u "Muse") None None.

Definition resistance : Album.t := Album.mk 10 (u "The Resistance") None None None.
Definition absolution : Album.t := Album.mk 11 (u "Absolution") None None None.

Definition track (id : Z) (title : string) (popularity : option Z)
    (artists : list Artist.t) (album : Album.t) (quality : string)
    (trackNumber : option Z) : Track.t :=
  Track.mk id (u title) 300 popularity muse artists (Some album) (Some false)
    (Some (u quality)) None None None None None None None trackNumber None None.

Definition uprising : Track.t :=
  track 1 "Uprising" (Some 80) [muse] resistance "LOSSLESS" (Some 1).
Definition uprising_low : Track.t :=
  track 2 "Uprising (Remastered)" (Some 80) [muse] resistance "LOW" (Some 1).
Definition resistance_song : Track.t :=
  track 3 "Resistance" (Some 30) [muse] resistance "LOSSLESS" (Some 2).
Definition hysteria : Track.t :=
  track 4 "Hysteria" (Some 40) [muse] absolution "LOSSLESS" (Some 8).
Definition unlisted : Track.t :=
  track 5 "Obscure Demo" (Some 2) [] absolution "HIGH" None.

Definition urljoin (base url : pystr) : pystr := base ++ url.
Definition output_dir : pystr := u "downloads".

(** A manifest with the timeline (d 4, r 1): two media segments. *)
Definition parse_mpd (_ : pybytes) : mpd :=
  SegmentTemplate (u "http://cdn/") (Some (u "init.mp4"))
    (Some (u "seg_$Number$.m4s"))
    (Some [ {| S_d := Some 4; S_r := Some 1 |} ]).

(** A source that serves the initialization segment and both media
    segments, and one on which the second media segment is missing. *)
Definition fetch (url : pystr) : response :=
  if bool_decide (url = u "http://cdn/init.mp4") then Body [[1; 2]; [3]]%N true
  else if bool_decide (url = u "http://cdn/seg_1.m4s") then Body [[4]]%N true
  else if bool_decide (url = u "http://cdn/seg_2.m4s") then Body [[5; 6]]%N true
  else NoResponse.

Definition fetch_without_2 (url : pystr) : response :=
  if bool_decide (url = u "http://cdn/seg_2.m4s") then NoResponse else fetch url.

(** A handler of direct-URL manifests that returns the decoded manifest. *)
Definition _download_bts (manifest_bytes : pybytes) (_ : Track.t) : io pystr :=
  ret manifest_bytes.

End Sample.

(* ================================================================== *)
(** * Further definitions: cli.py *)
(* ================================================================== *)

Section FilterSpec.
Context `{UnicodeData}.

(** The chosen artist is among the artists the filter of lines 278-286
    looks at for the track [t]: its artists list followed by its primary
    artist. *)
Definition appears (artist : Artist.t) (t : Track.t) : bool :=
  existsb (artist_matches artist) (Track.artists t ++ [Track.artist t]).

End FilterSpec.

(* ================================================================== *)
(** * Further definitions: downloader.py *)
(* ================================================================== *)

Section DownloaderMore.
Variable fetch : pystr -> response.
Variable urljoin : pystr -> pystr -> pystr.
Variable parse_mpd : pybytes -> mpd.
(** [json.loads(manifest_bytes).get("urls")]: the parse raises, or the
    key is missing, or it holds a list of URLs.  The JSON parser is not
    part of the repository. *)
Variable json_urls : pybytes -> exn + option (list pystr).
Variable output_dir : pystr.

Definition _download_bts (manifest_bytes : pybytes) (metadata : Track.t) : io pystr :=
  match json_urls manifest_bytes with
  | inl e => raise e
  | inr None | inr (Some []) => raise (ValueError (u "No URLs found in BTS manifest"))
  | inr (Some (url :: _)) =>
      let filename :=
        _sanitize_filename
          (artist_names metadata ++ u " - " ++ Track.title metadata ++ u ".flac") in
      let path := os_path_join output_dir filename in
      _download_file fetch url path ;;; ret path
  end.

(** [Downloader.download_track], with its own handlers. *)
Definition Downloader_download_track : Z -> option manifest_inner -> Track.t -> io pystr :=
  download_track fetch urljoin parse_mpd output_dir _download_bts.

End DownloaderMore.

(** The computation [m] changes no file but those whose path satisfies
    [Q]. *)
Definition only_writes {A} (Q : pystr -> Prop) (m : io A) : Prop :=
  forall (fs : gmap pystr pybytes) (p : pystr), ~ Q p -> snd (m fs) !! p = fs !! p.

(** Every value the computation [m] returns satisfies [P]. *)
Definition yields {A} (P : A -> Prop) (m : io A) : Prop :=
  forall (fs fs' : gmap pystr pybytes) (a : A), m fs = (inr a, fs') -> P a.

(** The path [p] is below the directory [dir]: it starts with what
    [os.path.join] puts before a relative name. *)
Definition below (dir p : pystr) : Prop := exists name, p = join_prefix dir ++ name.

(** The characters [_sanitize_filename] removes. *)
Definition illegal (c : N) : bool :=
  bool_decide (c ∈ [92; 47; 42; 63; 58; 34; 60; 62; 124]%N).

(* ================================================================== *)
(** * Further definitions: api.py *)
(* ================================================================== *)

(** The exceptions of the client. *)
Inductive api_exn :=
| ApiRequestException
| AttributeError
| ApiException (msg : pystr).

Section Get.
Context {data : Type}.
(** What the [attempt]-th request of a call of [_get] comes to: the
    decoded JSON, or a [RequestException] (of the request, of
    [raise_for_status] or of the decoding). *)
Variable respond : nat -> option data.

(** The run of [_get]: what it returns or raises, the number of requests
    it made and the arguments of its calls of [time.sleep], in order. *)
Record get_run := {
  get_result : api_exn + option data;
  get_requests : nat;
  get_sleeps : list Z
}.

(** The loop [for attempt in range(self.retries)], from [attempt] on, with
    [left] iterations to go.  When the range is exhausted, which happens
    only for [retries <= 0], the function ends without a [return] and
    yields [None]. *)
Fixpoint _get_from (retries : Z) (attempt left : nat) : get_run :=
  match left with
  | O => {| get_result := inr None; get_requests := 0; get_sleeps := [] |}
  | S left' =>
      match respond attempt with
      | Some d => {| get_result := inr (Some d); get_requests := 1; get_sleeps := [] |}
      | None =>
          if Z.of_nat attempt =? retries - 1
          then {| get_result := inl ApiRequestException; get_requests := 1; get_sleeps := [] |}
          else
            let run := _get_from retries (S attempt) left' in
            {| get_result := get_result run;
               get_requests := S (get_requests run);
               get_sleeps := 2 ^ Z.of_nat attempt :: get_sleeps run |}
      end
  end.

Definition _get (retries : Z) : get_run := _get_from retries 0 (Z.to_nat retries).

End Get.

(** The powers of two [k] failed attempts sleep for, from the exponent
    [a] on. *)
Definition backoff (a k : nat) : list Z := map (fun j => 2 ^ Z.of_nat j) (seq a k).

Section GetTrackManifest.
(** What [self._get(url, params)] is for the address [base]: an exception,
    [None], or the JSON object, of which the code reads the dict under
    ["data"]. *)
Variable get_base : pystr -> api_exn + option (option manifest_inner).

(** [inner.get("manifest")] is truthy. *)
Definition has_manifest (inner : option manifest_inner) : bool :=
  match inner ≫= manifest with
  | Some (_ :: _) => true
  | _ => false
  end.

Fixpoint get_track_manifest_from (track_id : Z) (quality : pystr) (bases : list pystr)
    : api_exn + option manifest_inner :=
  match bases with
  | [] => inl (ApiException
                 (u "Could not fetch a valid manifest for track " ++ str_int track_id
                  ++ u " with quality " ++ quality))
  | base :: rest =>
      match get_base base with
      | inl ApiRequestException => get_track_manifest_from track_id quality rest
      | inl e => inl e
      | inr None => inl AttributeError
      | inr (Some inner) =>
          if has_manifest inner then inr inner
          else get_track_manifest_from track_id quality rest
      end
  end.

(** An address the loop of [get_track_manifest] passes over: the request
    failed for good, or the answer carries no manifest. *)
Definition passed_over (base : pystr) : Prop :=
  get_base base = inl ApiRequestException \/
  exists inner, get_base base = inr (Some inner) /\ has_manifest inner = false.

Definition track_bases : list pystr :=
  [u "https://hund.qqdl.site"; u "https://katze.qqdl.site"].

Definition get_track_manifest (track_id : Z) (quality : pystr)
    : api_exn + option manifest_inner :=
  get_track_manifest_from track_id quality track_bases.

End GetTrackManifest.

(** The part of [download_track] after the test of line 38. *)
Definition decode_and_route (_download_bts _download_dash : pybytes -> Track.t -> io pystr)
    (mime : option pystr) (manifest_b64 : pystr) (metadata : Track.t) : io pystr :=
  match b64decode manifest_b64 with
  | inl e => raise e
  | inr manifest_bytes =>
      if bool_decide (mime = Some (u "application/vnd.tidal.bts"))
      then _download_bts manifest_bytes metadata
      else if bool_decide (mime = Some (u "application/dash+xml"))
      then _download_dash manifest_bytes metadata
      else raise (ValueError (u "Unsupported manifest type: " ++ str_opt mime))
  end.

(** Further sample data: a direct-URL manifest, a second remote source
    that differs from [Sample.fetch] on an address no download asks for,
    and the answers of the two manifest addresses. *)
Module SampleMore.

Definition json_urls (_ : pybytes) : exn + option (list pystr) :=
  inr (Some [u "http://cdn/init.mp4"; u "http://cdn/mirror.flac"]).

Definition fetch_more (url : pystr) : response :=
  if bool_decide (url = u "http://cdn/extra.bin") then Body [[9]]%N true
  else Sample.fetch url.

Definition dash_manifest : option manifest_inner :=
  Some {| manifestMimeType := Some (u "application/dash+xml");
          manifest := Some (u "YQ==") |}.

Definition get_base (base : pystr) : api_exn + option (option manifest_inner) :=
  if bool_decide (base = u "https://hund.qqdl.site") then inl ApiRequestException
  else inr (Some dash_manifest).

(** A manifest without a segment timeline. *)
Definition parse_mpd_flat (_ : pybytes) : mpd :=
  SegmentTemplate (u "http://cdn/") (Some (u "init.mp4"))
    (Some (u "seg_$Number$.m4s")) None.

End SampleMore.

(* ================================================================== *)
(** * Further definitions: metadata.py *)
(* ================================================================== *)

(** [s[a:b]] for [0 <= a <= b]: a slice stops at the end of the string. *)
Definition str_slice (a b : nat) (s : pystr) : pystr := take (b - a) (drop a s).

(** The address [download_cover] asks for, or [None] when it returns
    before any request. *)
Definition cover_url (cover_uuid : pystr) : option pystr :=
  match cover_uuid with
  | [] => None
  | _ :: _ =>
      let clean_uuid := str_replace (u "-") [] cover_uuid in
      if negb (length clean_uuid =? 32)%nat then None
      else
        let parts :=
          [str_slice 0 8 clean_uuid; str_slice 8 12 clean_uuid; str_slice 12 16 clean_uuid;
           str_slice 16 20 clean_uuid; str_slice 20 32 clean_uuid] in
        let path := str_join (u "/") parts in
        Some (u "https://resources.tidal.com/images/" ++ path ++ u "/1280x1280.jpg")
  end.

(** [session_get url] is the content of the response, or [None] for a
    [RequestException], which the function logs and turns into [None]. *)
Definition download_cover (session_get : pystr -> option pybytes) (cover_uuid : pystr)
    : option pybytes :=
  cover_url cover_uuid ≫= session_get.

(** The truth value of a string. *)
Definition nonempty (s : pystr) : bool := negb (bool_decide (s = [])).

(** [v if v else None], for a string that may be [None]. *)
Definition when_truthy (s : option pystr) : option pystr :=
  match s with
  | Some (_ :: _) => s
  | _ => None
  end.

(** [if v: audio[k] = v]: the assignment is skipped when there is no
    value. *)
Definition put (k : string) (v : option pystr) (audio : list (pystr * pystr))
    : list (pystr * pystr) :=
  match v with
  | Some v => dict_set (u k) v audio
  | None => audio
  end.

(** Lines 70-74. *)
Definition flac_year (metadata : Track.t) : option pystr :=
  match when_truthy (Track.releaseDate metadata) with
  | Some d => Some (take 4 d)
  | None =>
      match when_truthy (Track.streamStartDate metadata) with
      | Some d => Some (take 4 d)
      | None => None
      end
  end.

(** The tags of the file after [audio.delete()] and the assignments of
    lines 54-82, in the order of the assignments. *)
Definition write_flac_tags (metadata : Track.t) : list (pystr * pystr) :=
  let audio := [] in
  let audio := put "TITLE" (when_truthy (Some (Track.title metadata))) audio in
  let artist_names :=
    List.filter nonempty (map Artist.name (Track.artists metadata)) in
  let audio :=
    put "ARTIST"
      (match artist_names with [] => None | _ :: _ => Some (str_join (u ", ") artist_names) end)
      audio in
  let audio :=
    put "ALBUMARTIST" (when_truthy (Some (Artist.name (Track.artist metadata)))) audio in
  let audio :=
    put "ALBUM" (when_truthy (Album.title <$> Track.album metadata)) audio in
  let audio := put "TRACKNUMBER" (str_int <$> Track.trackNumber metadata) audio in
  let year := when_truthy (flac_year metadata) in
  let audio := put "DATE" year audio in
  let audio := put "YEAR" year audio in
  let audio := put "COPYRIGHT" (when_truthy (Track.copyright metadata)) audio in
  let audio := put "ISRC" (when_truthy (Track.isrc metadata)) audio in
  let audio := put "BPM" (str_int <$> Track.bpm metadata) audio in
  audio.

(** The tags are well formed: one value per key, and no empty value. *)
Definition tags_ok (d : list (pystr * pystr)) : Prop :=
  NoDup (dict_keys d) /\ Forall (fun kv => snd kv <> []) d.

(** A picture block and the metadata of a FLAC file. *)
Record picture := {
  pic_type : Z;
  pic_mime : pystr;
  pic_desc : pystr;
  pic_data : pybytes
}.

Record flac := {
  flac_tags : list (pystr * pystr);
  flac_pictures : list picture
}.

(** [write_flac]: [audio] is the file as [FLAC(filepath)] reads it, [None]
    when that raises; the result is what is saved, [None] when nothing
    is. *)
Definition write_flac (audio : option flac) (metadata : Track.t)
    (cover_data : option pybytes) : option flac :=
  match audio with
  | None => None
  | Some audio =>
      Some {| flac_tags := write_flac_tags metadata;
              flac_pictures :=
                match cover_data with
                | Some ((_ :: _) as data) =>
                    [ {| pic_type := 3; pic_mime := u "image/jpeg";
                         pic_desc := u "Front Cover"; pic_data := data |} ]
                | _ => flac_pictures audio
                end |}
  end.

(* ================================================================== *)
(** * Further definitions: cli.py, the tables and the choice *)
(* ================================================================== *)

(** [s.split(sep)] for a separator of one character. *)
Fixpoint str_split (sep : N) (s : pystr) : list pystr :=
  match s with
  | [] => [[]]
  | c :: s' =>
      if (c =? sep)%N then [] :: str_split sep s'
      else
        match str_split sep s' with
        | p :: ps => (c :: p) :: ps
        | [] => [[c]]
        end
  end.

(** [sub in s]. *)
Fixpoint str_contains (sub s : pystr) : bool :=
  is_prefix sub s ||
  match s with
  | [] => false
  | _ :: s' => str_contains sub s'
  end.

(** [range(start, stop)]. *)
Definition py_range (start stop : Z) : list Z :=
  map (fun k => start + Z.of_nat k) (seq 0 (Z.to_nat (stop - start))).

Section ParseChoice.
Context `{UnicodeData} {A : Type}.
(** [int(s)], [None] when it raises [ValueError]. *)
Variable py_int : pystr -> option Z.

(** [if 0 <= idx < len(items): selected.append(items[idx])], as the list
    of what is appended. *)
Definition pick (items : list A) (idx : Z) : list A :=
  if (0 <=? idx) && (idx <? Z.of_nat (length items))
  then match items !! Z.to_nat idx with Some x => [x] | None => [] end
  else [].

(** One part of the choice: what it appends, or [None] when the
    unpacking of line 372 or a call of [int] raises [ValueError]. *)
Definition parse_part (items : list A) (part : pystr) : option (list A) :=
  let part := py_strip part in
  if bool_decide (45%N ∈ part) then
    match str_split 45 part with
    | [a; b] =>
        match py_int a with
        | None => None
        | Some start =>
            match py_int b with
            | None => None
            | Some end_ => Some (flat_map (pick items) (py_range (start - 1) end_))
            end
        end
    | _ => None
    end
  else
    match py_int part with
    | None => None
    | Some n => Some (pick items (n - 1))
    end.

Fixpoint parse_parts (items : list A) (parts : list pystr) (selected : list A)
    : option (list A) :=
  match parts with
  | [] => Some selected
  | part :: rest =>
      match parse_part items part with
      | None => None
      | Some sel => parse_parts items rest (selected ++ sel)
      end
  end.

Definition _parse_choice (choice : pystr) (items : list A) : option (list A) :=
  parse_parts items (str_split 44 choice) [].

End ParseChoice.

Section FormatArtists.
(** [name.upper()]. *)
Variable py_upper : pystr -> pystr.

(** The body of the loop of [format_artists], on the name of the entry
    (the empty string for a dict without a name). *)
Definition format_artists_step (st : gset pystr * list pystr) (name : pystr)
    : gset pystr * list pystr :=
  let '(seen, artists_list) := st in
  if nonempty name then
    let name_upper := py_upper name in
    if bool_decide (name_upper ∈ seen) then st
    else ({[name_upper]} ∪ seen, artists_list ++ [name])
  else st.

Definition format_artists_list (names : list pystr) : list pystr :=
  snd (fold_left format_artists_step names (∅, [])).

Definition format_artists (names : list pystr) : pystr :=
  let artists_list := format_artists_list names in
  str_join (u ", ") (take 3 artists_list)
  ++ (if (3 <? length artists_list)%nat then u "..." else []).

(** What the loop of [format_artists] keeps true. *)
Definition format_inv (names : list pystr) (st : gset pystr * list pystr) : Prop :=
  (forall k, k ∈ fst st <-> k ∈ map py_upper (snd st)) /\
  NoDup (map py_upper (snd st)) /\
  (forall n, n ∈ snd st -> n ∈ names /\ n <> []) /\
  (forall n, n ∈ names -> n <> [] -> py_upper n ∈ fst st).

End FormatArtists.

(* ================================================================== *)
(** * Further definitions: cli.py, get_itunes_fingerprint *)
(* ================================================================== *)

(** An entry of the results of the reference catalog, with the four keys
    the program reads: when they are there, the three names are strings
    and [artistId] is an integer. *)
Module Itunes.
Record item := mk {
  artistName : option pystr;
  artistId : option Z;
  collectionName : option pystr;
  trackName : option pystr
}.
End Itunes.

(** What a request to the catalog comes to: an exception (of the request
    or of the decoding of the body), a status other than 200, or the list
    under ["results"] (empty when the key is missing). *)
Inductive itunes_response :=
| ItunesRaises
| ItunesStatus
| ItunesResults (results : list Itunes.item).

(** [max(l, key=key)] on a non-empty list: the first element whose key
    is maximal. *)
Definition py_max_by {K} (key : K -> Z) (l : list K) : option K :=
  match l with
  | [] => None
  | k :: l' => Some (fold_left (fun best k' => if key k' >? key best then k' else best) l' k)
  end.

Section Fingerprint.
Context `{UnicodeData}.

(** [item.get("artistName", "").lower()]. *)
Definition item_name (item : Itunes.item) : pystr :=
  py_lower (default [] (Itunes.artistName item)).

(** The body of the loop of lines 204-208. *)
Definition count_step (target_name : pystr) (artist_ids : list (Z * Z))
    (item : Itunes.item) : list (Z * Z) :=
  if bool_decide (item_name item = target_name) then
    match Itunes.artistId item with
    | Some aid =>
        if aid =? 0 then artist_ids
        else dict_set aid (default 0 (dict_get aid artist_ids) + 1) artist_ids
    | None => artist_ids
    end
  else artist_ids.

Definition count_artist_ids (target_name : pystr) (results : list Itunes.item)
    : list (Z * Z) :=
  fold_left (count_step target_name) results [].

(** Line 213, [None] when [artist_ids] is empty (line 210). *)
Definition main_artist (target_name : pystr) (results : list Itunes.item) : option Z :=
  let artist_ids := count_artist_ids target_name results in
  py_max_by (fun aid => default 0 (dict_get aid artist_ids)) (dict_keys artist_ids).

(** Lines 219-222 and 229-232. *)
Definition add_names (acc : gset pystr * gset pystr) (item : Itunes.item)
    : gset pystr * gset pystr :=
  let '(albums, tracks) := acc in
  let albums :=
    match when_truthy (Itunes.collectionName item) with
    | Some n => {[normalize_str n]} ∪ albums
    | None => albums
    end in
  let tracks :=
    match when_truthy (Itunes.trackName item) with
    | Some n => {[normalize_str n]} ∪ tracks
    | None => tracks
    end in
  (albums, tracks).

(** The body of the loop of lines 224-232. *)
Definition search_step (target_name : pystr) (main_artist_id : Z)
    (acc : gset pystr * gset pystr) (item : Itunes.item) : gset pystr * gset pystr :=
  if str_contains target_name (item_name item) then
    if bool_decide (item_name item = target_name)
       && negb (bool_decide (Itunes.artistId item = Some main_artist_id))
    then acc
    else add_names acc item
  else acc.

(** [search] is the answer to the search request, [lookup id] the answer
    to the lookup of an artist id.  Any exception ends the function with
    the sets as they are, which are empty whenever a request can raise. *)
Definition get_itunes_fingerprint (search : itunes_response)
    (lookup : Z -> itunes_response) (artist_name : pystr) : gset pystr * gset pystr :=
  match search with
  | ItunesResults results =>
      let target_name := py_lower artist_name in
      match main_artist target_name results with
      | None => (∅, ∅)
      | Some main_artist_id =>
          match lookup main_artist_id with
          | ItunesRaises => (∅, ∅)
          | ItunesStatus =>
              fold_left (search_step target_name main_artist_id) results (∅, ∅)
          | ItunesResults looked_up =>
              fold_left (search_step target_name main_artist_id) results
                (fold_left add_names looked_up (∅, ∅))
          end
      end
  | _ => (∅, ∅)
  end.

(** The truthy artist ids of the results that carry exactly the name
    looked for, in the order of the results. *)
Definition exact_ids (target_name : pystr) (results : list Itunes.item) : list Z :=
  omap (fun item =>
          if bool_decide (item_name item = target_name) then
            match Itunes.artistId item with
            | Some aid => if aid =? 0 then None else Some aid
            | None => None
            end
          else None) results.

End Fingerprint.

(** The number of occurrences of [k] in [l]. *)
Definition occurrences (k : Z) (l : list Z) : Z :=
  Z.of_nat (length (List.filter (fun k' => bool_decide (k' = k)) l)).

(** The counting of lines 206-208 on an id. *)
Definition count_id (artist_ids : list (Z * Z)) (aid : Z) : list (Z * Z) :=
  dict_set aid (default 0 (dict_get aid artist_ids) + 1) artist_ids.

(** Every member of the two sets is a value of [normalize_str]. *)
Definition normalized `{UnicodeData} (acc : gset pystr * gset pystr) : Prop :=
  forall s, s ∈ fst acc \/ s ∈ snd acc -> exists x, s = normalize_str x.

(* ================================================================== *)
(** * Further definitions: cli.py, the searches *)
(* ================================================================== *)

Section Searches.
Context `{UnicodeData}.

(** Lines 89-91: the tracks whose title holds the query, deduplicated. *)
Definition title_matches (query : pystr) (t : Track.t) : bool :=
  str_contains (py_strip (py_lower query)) (py_lower (Track.title t)).

Definition track_search (query : pystr) (all_tracks : list Track.t) : list Track.t :=
  deduplicate_tracks (List.filter (title_matches query) all_tracks).

(** Line 246: [a.name and a.name.lower().strip() == q_lower]. *)
Definition name_is (q_lower : pystr) (a : Artist.t) : bool :=
  nonempty (Artist.name a)
  && bool_decide (py_strip (py_lower (Artist.name a)) = q_lower).

(** The body of the inner loop of lines 244-248. *)
Definition found_step (q_lower : pystr) (artists_dict : list (Z * Artist.t))
    (a : Artist.t) : list (Z * Artist.t) :=
  if name_is q_lower a then
    match dict_get (Artist.id a) artists_dict with
    | None => dict_set (Artist.id a) a artists_dict
    | Some _ => artists_dict
    end
  else artists_dict.

Definition found_artists (query : pystr) (tracks : list Track.t) : list Artist.t :=
  let q_lower := py_strip (py_lower query) in
  dict_values
    (fold_left (fun artists_dict t => fold_left (found_step q_lower) (Track.artists t) artists_dict)
       tracks []).

(** What the loops of lines 244-248 keep true, after the artists [seen]. *)
Definition found_inv (q_lower : pystr) (seen : list Artist.t)
    (artists_dict : list (Z * Artist.t)) : Prop :=
  NoDup (dict_keys artists_dict) /\
  (forall k a, (k, a) ∈ artists_dict ->
     k = Artist.id a /\ name_is q_lower a = true /\ a ∈ seen) /\
  (forall a, a ∈ seen -> name_is q_lower a = true ->
     Artist.id a ∈ dict_keys artists_dict).

End Searches.

(* ================================================================== *)
(** * Properties *)
(* ================================================================== *)


(* ------------------------------------------------------------------ *)
(** ** normalize_str *)
(* ------------------------------------------------------------------ *)

Section NormalizeFacts.
Context `{UnicodeData}.

Lemma is_az09_ascii (c : N) : is_az09 c = true -> is_ascii c = true.
Proof. unfold is_az09, is_ascii. intros Hc. apply N.ltb_lt. lia. Qed.

Lemma is_az09_lower (c : N) : is_az09 c = true -> ascii_lower c = c.
Proof.
  unfold is_az09, ascii_lower. intros Hc.
  destruct ((65 <=? c) && (c <=? 90))%N eqn:E; [lia | reflexivity].
Qed.

Lemma is_az09_not_space (c : N) : is_az09 c = true -> py_isspace c = false.
Proof.
  intros Hc. rewrite py_isspace_ascii by (apply is_az09_ascii; exact Hc).
  unfold is_az09 in Hc. unfold ascii_isspace. lia.
Qed.

Lemma az09_all_ascii (s : pystr) :
  forallb is_az09 s = true -> forallb is_ascii s = true.
Proof.
  rewrite !forallb_forall. intros Hs c Hc. apply is_az09_ascii, Hs, Hc.
Qed.

(** Each step of [normalize_str] leaves a string over [[a-z0-9]] as it is. *)
Lemma py_lower_az09 (s : pystr) : forallb is_az09 s = true -> py_lower s = s.
Proof.
  intros Hs. rewrite py_lower_ascii by (apply az09_all_ascii; exact Hs).
  induction s as [|c s IH]; simpl in *; [reflexivity|].
  apply andb_true_iff in Hs as [Hc Hs].
  rewrite is_az09_lower, IH by assumption. reflexivity.
Qed.

Lemma lstrip_az09 (s : pystr) : forallb is_az09 s = true -> lstrip s = s.
Proof.
  destruct s as [|c s]; simpl; [reflexivity|].
  intros Hs. apply andb_true_iff in Hs as [Hc _].
  rewrite is_az09_not_space by assumption. reflexivity.
Qed.

Lemma forallb_rev {A} (f : A -> bool) (l : list A) :
  forallb f (rev l) = forallb f l.
Proof.
  induction l as [|x l IH]; simpl; [reflexivity|].
  rewrite forallb_app, IH. simpl. rewrite andb_true_r. apply andb_comm.
Qed.

Lemma py_strip_az09 (s : pystr) : forallb is_az09 s = true -> py_strip s = s.
Proof.
  intros Hs. unfold py_strip.
  rewrite (lstrip_az09 s), (lstrip_az09 (rev s)), rev_involutive;
    rewrite ?forallb_rev; auto.
Qed.

Lemma re_sub_group_absent (op cl : N) (s : pystr) :
  forallb (fun c => negb (c =? op)%N) s = true -> re_sub_group op cl s = s.
Proof.
  unfold re_sub_group. induction s as [|c s IH]; simpl; [reflexivity|].
  intros Hs. apply andb_true_iff in Hs as [Hc Hs].
  apply negb_true_iff in Hc. rewrite Hc, IH by assumption. reflexivity.
Qed.

Lemma az09_no_delim (op : N) (s : pystr) :
  is_az09 op = false -> forallb is_az09 s = true ->
  forallb (fun c => negb (c =? op)%N) s = true.
Proof.
  intros Hop. rewrite !forallb_forall. intros Hs c Hc.
  apply negb_true_iff, N.eqb_neq. intros ->.
  rewrite (Hs _ Hc) in Hop. discriminate.
Qed.

Lemma filter_all {A} (f : A -> bool) (l : list A) :
  forallb f l = true -> List.filter f l = l.
Proof.
  induction l as [|x l IH]; simpl; [reflexivity|].
  intros Hl. apply andb_true_iff in Hl as [Hx Hl].
  rewrite Hx, IH by assumption. reflexivity.
Qed.

Lemma forallb_filter {A} (f : A -> bool) (l : list A) :
  forallb f (List.filter f l) = true.
Proof.
  induction l as [|x l IH]; simpl; [reflexivity|].
  destruct (f x) eqn:E; simpl; [rewrite E|]; exact IH.
Qed.

(** The result of [normalize_str] is a string over [[a-z0-9]]. *)
Lemma normalize_str_az09 (s : pystr) : forallb is_az09 (normalize_str s) = true.
Proof.
  destruct s as [|c s]; [reflexivity|]. unfold normalize_str.
  apply forallb_filter.
Qed.

(** A string over [[a-z0-9]] is its own normal form. *)
Lemma normalize_str_fixes_az09 (s : pystr) :
  forallb is_az09 s = true -> normalize_str s = s.
Proof.
  intros Hs. destruct s as [|c s]; [reflexivity|].
  unfold normalize_str. set (t := c :: s) in *.
  rewrite py_lower_az09, py_strip_az09 by assumption.
  rewrite (re_sub_group_absent 40), (re_sub_group_absent 91)
    by (apply az09_no_delim; [reflexivity | assumption]).
  rewrite nfd_ascii by (apply az09_all_ascii; exact Hs).
  rewrite (filter_all (fun c => negb (is_Mn c))), filter_all; auto.
  apply forallb_forall. intros x Hx.
  rewrite forallb_forall in Hs.
  rewrite is_Mn_ascii; [reflexivity | apply is_az09_ascii, Hs, Hx].
Qed.

(** C9. [normalize_str] is idempotent: for every string [s], and whatever
    the Unicode tables are, normalizing a normalized string leaves it
    unchanged. *)
Theorem normalize_str_idempotent (s : pystr) :
  normalize_str (normalize_str s) = normalize_str s.
Proof. apply normalize_str_fixes_az09, normalize_str_az09. Qed.

End NormalizeFacts.

(* ------------------------------------------------------------------ *)
(** ** Insertion-ordered dicts *)
(* ------------------------------------------------------------------ *)

Section DictFacts.
Context {K V : Type} `{EqDecision K}.
Implicit Types (d : list (K * V)) (k : K) (v : V).

Lemma dict_get_None k d : dict_get k d = None <-> k ∉ dict_keys d.
Proof.
  induction d as [|[k' v'] d IH]; simpl.
  - split; [intros _; apply not_elem_of_nil | reflexivity].
  - rewrite not_elem_of_cons. destruct (decide (k' = k)) as [->|Hne].
    + split; [discriminate | intros [? _]; congruence].
    + rewrite IH. split; [intros ?; split; [congruence | assumption] | intros [_ ?]; assumption].
Qed.

Lemma dict_get_elem k v d : dict_get k d = Some v -> (k, v) ∈ d.
Proof.
  induction d as [|[k' v'] d IH]; simpl; [discriminate|].
  destruct (decide (k' = k)) as [->|Hne].
  - intros [= ->]. apply list_elem_of_here.
  - intros Hg. apply list_elem_of_further, IH, Hg.
Qed.

Lemma elem_dict_keys k v d : (k, v) ∈ d -> k ∈ dict_keys d.
Proof. intros Hin. apply (list_elem_of_fmap_2 fst) in Hin. exact Hin. Qed.

Lemma dict_get_unique k v d :
  NoDup (dict_keys d) -> (k, v) ∈ d -> dict_get k d = Some v.
Proof.
  induction d as [|[k' v'] d IH]; simpl; intros Hnd Hin.
  - apply elem_of_nil in Hin as [].
  - apply NoDup_cons in Hnd as [Hk' Hnd].
    apply elem_of_cons in Hin as [[= -> ->]|Hin].
    + destruct (decide (k' = k')); [reflexivity | congruence].
    + destruct (decide (k' = k)) as [->|Hne]; [|auto].
      exfalso. apply Hk'. eapply elem_dict_keys, Hin.
Qed.

Lemma dict_keys_set k v d :
  dict_keys (dict_set k v d) =
  if decide (k ∈ dict_keys d) then dict_keys d else dict_keys d ++ [k].
Proof.
  induction d as [|[k' v'] d IH]; simpl.
  - destruct (decide (k ∈ [])) as [Hin|_]; [|reflexivity].
    apply elem_of_nil in Hin as [].
  - destruct (decide (k' = k)) as [->|Hne]; simpl.
    + destruct (decide (k ∈ k :: dict_keys d)) as [_|Hn]; [reflexivity|].
      exfalso. apply Hn, list_elem_of_here.
    + rewrite IH. destruct (decide (k ∈ dict_keys d)) as [Hin|Hn].
      * destruct (decide (k ∈ k' :: dict_keys d)) as [_|Hn']; [reflexivity|].
        exfalso. apply Hn', list_elem_of_further, Hin.
      * destruct (decide (k ∈ k' :: dict_keys d)) as [Hin'|_]; [|reflexivity].
        apply elem_of_cons in Hin' as [->|Hin']; [congruence | contradiction].
Qed.

Lemma dict_set_elem k v k' v' d :
  NoDup (dict_keys d) -> (k', v') ∈ dict_set k v d ->
  (k', v') = (k, v) \/ ((k', v') ∈ d /\ k' <> k).
Proof.
  induction d as [|[k0 v0] d IH]; simpl; intros Hnd Hin.
  - apply list_elem_of_singleton in Hin. left. exact Hin.
  - apply NoDup_cons in Hnd as [Hk0 Hnd].
    destruct (decide (k0 = k)) as [->|Hne].
    + apply elem_of_cons in Hin as [Heq|Hin]; [left; exact Heq|].
      right. split; [apply list_elem_of_further, Hin|].
      intros ->. apply Hk0. eapply elem_dict_keys, Hin.
    + apply elem_of_cons in Hin as [[= -> ->]|Hin].
      * right. split; [apply list_elem_of_here | exact Hne].
      * destruct (IH Hnd Hin) as [Heq|[Hd Hk]]; [left; exact Heq|].
        right. split; [apply list_elem_of_further, Hd | exact Hk].
Qed.

End DictFacts.

Section FirstOccurrences.
Context {K : Type} `{EqDecision K}.
Implicit Types (l : list K) (k : K).

Lemma elem_of_first_occurrences k l : k ∈ first_occurrences l <-> k ∈ l.
Proof.
  induction l as [|a l IH]; simpl; [reflexivity|].
  rewrite !elem_of_cons, <- IH. split.
  - intros [->|Hin]; [left; reflexivity|].
    apply list_elem_of_In, filter_In in Hin as [Hin _].
    right. apply list_elem_of_In, Hin.
  - intros [->|Hin]; [left; reflexivity|].
    destruct (decide (k = a)) as [->|Hne]; [left; reflexivity|].
    right. apply list_elem_of_In, filter_In. split; [apply list_elem_of_In, Hin|].
    apply bool_decide_eq_true, Hne.
Qed.

Lemma NoDup_filter_bool (f : K -> bool) l : NoDup l -> NoDup (List.filter f l).
Proof.
  induction 1 as [|a l Ha Hnd IH]; simpl; [constructor|].
  destruct (f a); [|exact IH].
  constructor; [|exact IH].
  intros Hin. apply Ha. apply list_elem_of_In, filter_In in Hin as [Hin _].
  apply list_elem_of_In, Hin.
Qed.

Lemma NoDup_first_occurrences l : NoDup (first_occurrences l).
Proof.
  induction l as [|a l IH]; simpl; constructor.
  - intros Hin. apply list_elem_of_In, filter_In in Hin as [_ Hne].
    apply bool_decide_eq_true in Hne. congruence.
  - apply NoDup_filter_bool, IH.
Qed.

Lemma first_occurrences_snoc l k :
  first_occurrences (l ++ [k]) =
  if decide (k ∈ l) then first_occurrences l else first_occurrences l ++ [k].
Proof.
  induction l as [|a l IH]; simpl.
  - destruct (decide (k ∈ [])) as [Hin|_]; [|reflexivity].
    apply elem_of_nil in Hin as [].
  - rewrite IH. destruct (decide (k = a)) as [->|Hne].
    + destruct (decide (a ∈ a :: l)) as [_|Hn];
        [|exfalso; apply Hn, list_elem_of_here].
      destruct (decide (a ∈ l)); [reflexivity|].
      rewrite List.filter_app. simpl.
      rewrite bool_decide_eq_false_2 by auto. rewrite app_nil_r. reflexivity.
    + destruct (decide (k ∈ l)) as [Hin|Hn].
      * destruct (decide (k ∈ a :: l)) as [_|Hn']; [reflexivity|].
        exfalso. apply Hn', list_elem_of_further, Hin.
      * destruct (decide (k ∈ a :: l)) as [Hin'|_].
        { apply elem_of_cons in Hin' as [->|Hin']; [congruence | contradiction]. }
        rewrite List.filter_app. simpl.
        rewrite bool_decide_eq_true_2 by exact Hne. reflexivity.
Qed.

End FirstOccurrences.

(* ------------------------------------------------------------------ *)
(** ** deduplicate_tracks *)
(* ------------------------------------------------------------------ *)

Section DedupFacts.
Context `{UnicodeData}.

Abbreviation rank t := (qualities (Track.audioQuality t)).


Lemma first_best_snoc_other p t x :
  first_best p t -> dedup_key x <> dedup_key t -> first_best (p ++ [x]) t.
Proof.
  intros (l1 & l2 & -> & Hb & Ha) Hne.
  exists l1, (l2 ++ [x]). split; [rewrite <- app_assoc; reflexivity|].
  split; [exact Hb|].
  intros y Hy Hk. apply elem_of_app in Hy as [Hy|Hy]; [apply Ha; assumption|].
  apply list_elem_of_singleton in Hy as ->. contradiction.
Qed.

Lemma first_best_snoc_keep p t x :
  first_best p t -> rank x <= rank t -> first_best (p ++ [x]) t.
Proof.
  intros (l1 & l2 & -> & Hb & Ha) Hle.
  exists l1, (l2 ++ [x]). split; [rewrite <- app_assoc; reflexivity|].
  split; [exact Hb|].
  intros y Hy Hk. apply elem_of_app in Hy as [Hy|Hy]; [apply Ha; assumption|].
  apply list_elem_of_singleton in Hy as ->. exact Hle.
Qed.

Lemma first_best_group_le p t y :
  first_best p t -> y ∈ p -> dedup_key y = dedup_key t -> rank y <= rank t.
Proof.
  intros (l1 & l2 & -> & Hb & Ha) Hy Hk.
  apply elem_of_app in Hy as [Hy|Hy]; [specialize (Hb _ Hy Hk); lia|].
  apply elem_of_cons in Hy as [->|Hy]; [lia | apply Ha; assumption].
Qed.

Lemma dedup_inv_step p d x :
  dedup_inv p d -> dedup_inv (p ++ [x]) (dedup_step d x).
Proof.
  intros [Hkeys Hent].
  assert (Hnd : NoDup (dict_keys d)) by (rewrite Hkeys; apply NoDup_first_occurrences).
  assert (Hcov : dedup_key x ∈ dict_keys d <-> dedup_key x ∈ map dedup_key p)
    by (rewrite Hkeys; apply elem_of_first_occurrences).
  unfold dedup_step, dedup_inv. rewrite map_app. simpl.
  rewrite first_occurrences_snoc.
  destruct (dict_get (dedup_key x) d) as [cur|] eqn:Hget.
  - (* the key is present *)
    pose proof (dict_get_elem _ _ _ Hget) as Hcur.
    assert (Hin : dedup_key x ∈ dict_keys d) by (eapply elem_dict_keys, Hcur).
    destruct (Hent _ _ Hcur) as [Hkcur Hbest].
    destruct (decide (dedup_key x ∈ map dedup_key p)) as [_|Hn];
      [|exfalso; apply Hn, Hcov, Hin].
    destruct (rank x >? rank cur) eqn:Hgt.
    + split.
      * rewrite dict_keys_set. destruct (decide _); [exact Hkeys | contradiction].
      * intros k t Hkt. apply dict_set_elem in Hkt; [|exact Hnd].
        destruct Hkt as [[= -> ->]|[Hkt Hne]].
        { split; [reflexivity|]. exists p, []. split; [reflexivity|].
          split; [|intros y Hy; apply elem_of_nil in Hy as []].
          intros y Hy Hk.
          assert (rank y <= rank cur)
            by (eapply first_best_group_le; [exact Hbest | exact Hy | congruence]).
          lia. }
        destruct (Hent _ _ Hkt) as [Hk Hb]. split; [exact Hk|].
        apply first_best_snoc_other; [exact Hb | congruence].
    + split; [exact Hkeys|].
      intros k t Hkt. destruct (Hent _ _ Hkt) as [Hk Hb]. split; [exact Hk|].
      destruct (decide (k = dedup_key x)) as [->|Hne].
      * assert (t = cur) as ->.
        { pose proof (dict_get_unique _ _ _ Hnd Hkt) as Hg. congruence. }
        apply first_best_snoc_keep; [exact Hb | lia].
      * apply first_best_snoc_other; [exact Hb | congruence].
  - (* a new key *)
    apply dict_get_None in Hget.
    destruct (decide (dedup_key x ∈ map dedup_key p)) as [Hin|_];
      [exfalso; apply Hget, Hcov, Hin|].
    split.
    + rewrite dict_keys_set. destruct (decide _); [contradiction|].
      rewrite Hkeys. reflexivity.
    + intros k t Hkt. apply dict_set_elem in Hkt; [|exact Hnd].
        destruct Hkt as [[= -> ->]|[Hkt Hne]].
      * split; [reflexivity|]. exists p, []. split; [reflexivity|].
        split; [|intros y Hy; apply elem_of_nil in Hy as []].
        intros y Hy Hk. exfalso. apply Hget, Hcov.
        rewrite <- Hk. apply list_elem_of_fmap_2, Hy.
      * destruct (Hent _ _ Hkt) as [Hk Hb]. split; [exact Hk|].
        apply first_best_snoc_other; [exact Hb | congruence].
Qed.

Lemma dedup_inv_fold (l : list Track.t) : dedup_inv l (fold_left dedup_step l []).
Proof.
  induction l as [|x l IH] using rev_ind.
  - split; [reflexivity|]. intros k t Hin. apply elem_of_nil in Hin as [].
  - rewrite fold_left_app. simpl. apply dedup_inv_step, IH.
Qed.

Lemma dedup_values_keys (l : list Track.t) :
  map dedup_key (deduplicate_tracks l) = dict_keys (fold_left dedup_step l []).
Proof.
  destruct (dedup_inv_fold l) as [_ Hent].
  unfold deduplicate_tracks, dict_values, dict_keys.
  induction (fold_left dedup_step l []) as [|[k t] d IH]; simpl; [reflexivity|].
  f_equal.
  - apply (Hent k t), list_elem_of_here.
  - apply IH. intros k' t' Hin. apply Hent, list_elem_of_further, Hin.
Qed.

(** C3. Deduplication groups the records by the key (normalized title,
    normalized album title or the empty string, explicit flag).  The keys of
    the output are the distinct keys of the input in the order of their
    first occurrence, each once; every key of the input is there; and the
    record kept for a key is the first record of maximal quality of its
    group (LOW < HIGH < LOSSLESS < HI_RES_LOSSLESS, as [qualities] ranks
    them), an earlier record winning a tie. *)
Theorem deduplicate_tracks_first_best (l : list Track.t) :
  map dedup_key (deduplicate_tracks l) = first_occurrences (map dedup_key l) /\
  NoDup (map dedup_key (deduplicate_tracks l)) /\
  (forall x, x ∈ l -> dedup_key x ∈ map dedup_key (deduplicate_tracks l)) /\
  (forall t, t ∈ deduplicate_tracks l -> first_best l t) /\
  (qualities (Some (u "LOW")) < qualities (Some (u "HIGH")) /\
   qualities (Some (u "HIGH")) < qualities (Some (u "LOSSLESS")) /\
   qualities (Some (u "LOSSLESS")) < qualities (Some (u "HI_RES_LOSSLESS"))).
Proof.
  destruct (dedup_inv_fold l) as [Hkeys Hent].
  assert (Hmap : map dedup_key (deduplicate_tracks l) = first_occurrences (map dedup_key l))
    by (rewrite dedup_values_keys; exact Hkeys).
  split; [exact Hmap|]. rewrite Hmap.
  split; [apply NoDup_first_occurrences|].
  split; [|split].
  - intros x Hx. apply elem_of_first_occurrences, list_elem_of_fmap_2, Hx.
  - intros t Ht. unfold deduplicate_tracks, dict_values in Ht.
    apply list_elem_of_fmap in Ht as ([k t'] & -> & Hin).
    apply (Hent k t' Hin).
  - vm_compute. repeat split; reflexivity.
Qed.

End DedupFacts.

(* ------------------------------------------------------------------ *)
(** ** Classification *)
(* ------------------------------------------------------------------ *)

Section ClassifyFacts.
Context `{UnicodeData}.

(** C2. For every track, every pair of reference sets and every set of
    verified album ids, the classification of the program is the one of
    the specification: with both reference sets empty, Verified iff the
    popularity (0 when missing) is at least 5; otherwise Verified iff the
    album id is a verified one, else iff the normalized track title is a
    reference track, else iff the normalized album title is a reference
    album, else iff the popularity is at least 50; Suspect in every other
    case. *)
Theorem classify_precedence (itunes_albums itunes_tracks : gset pystr)
    (ids : gset Z) (t : Track.t) :
  classify itunes_albums itunes_tracks ids t
  = classify_spec itunes_albums itunes_tracks ids t.
Proof.
  unfold classify, classify_spec, is_verified.
  assert (Hpop : match Track.popularity t with
                 | Some p => negb (p =? 0) && (p >=? 50)
                 | None => false
                 end = (50 <=? default 0 (Track.popularity t))).
  { destruct (Track.popularity t) as [p|]; simpl; [|reflexivity].
    rewrite Z.geb_leb. destruct (p =? 0) eqn:E0, (50 <=? p) eqn:E1; simpl; lia. }
  rewrite Hpop, Z.geb_leb.
  assert (Hempty : bool_decide (itunes_albums = ∅) && bool_decide (itunes_tracks = ∅)
                   = bool_decide (itunes_albums = ∅ /\ itunes_tracks = ∅)).
  { destruct (decide (itunes_albums = ∅)), (decide (itunes_tracks = ∅));
      repeat first [rewrite bool_decide_eq_true_2 by tauto
                   | rewrite bool_decide_eq_false_2 by tauto]; reflexivity. }
  rewrite Hempty.
  destruct (bool_decide (itunes_albums = ∅ /\ itunes_tracks = ∅)); [reflexivity|].
  destruct (Track.album t) as [al|]; [destruct (bool_decide (Album.id al ∈ ids))|];
    try reflexivity;
    repeat (destruct (bool_decide (_ ∈ _)); try reflexivity);
    destruct (50 <=? _); reflexivity.
Qed.

End ClassifyFacts.

(** The album ids that line 313 tests against: those of the tracks whose
    normalized album or track title is in a reference set. *)
Section VerifiedAlbums.
Context `{UnicodeData}.

Lemma elem_of_verified_album_ids (itunes_albums itunes_tracks : gset pystr)
    (uts : list (Z * Track.t)) (id : Z) :
  id ∈ verified_album_ids itunes_albums itunes_tracks uts <->
  exists t al, t ∈ dict_values uts /\ Track.album t = Some al /\ Album.id al = id /\
               (normalize_str (album_title t) ∈ itunes_albums \/
                normalize_str (Track.title t) ∈ itunes_tracks).
Proof.
  unfold verified_album_ids.
  destruct (negb (bool_decide (itunes_albums = ∅)) || negb (bool_decide (itunes_tracks = ∅)))
    eqn:Hany.
  - generalize (dict_values uts). intros l.
    assert (Hgen : forall (acc : gset Z),
      id ∈ fold_left (fun (ids : gset Z) t =>
          if bool_decide (normalize_str (album_title t) ∈ itunes_albums)
             || bool_decide (normalize_str (Track.title t) ∈ itunes_tracks)
          then match Track.album t with
               | Some al => ids ∪ {[Album.id al]}
               | None => ids
               end
          else ids) l acc <->
      id ∈ acc \/
      exists t al, t ∈ l /\ Track.album t = Some al /\ Album.id al = id /\
        (normalize_str (album_title t) ∈ itunes_albums \/
         normalize_str (Track.title t) ∈ itunes_tracks)).
    { induction l as [|t l IH]; intros acc; simpl.
      - split; [auto|]. intros [Hacc|(t & al & Hin & _)]; [exact Hacc|].
        apply elem_of_nil in Hin as [].
      - rewrite IH. clear IH.
        assert (Href : bool_decide (normalize_str (album_title t) ∈ itunes_albums)
                       || bool_decide (normalize_str (Track.title t) ∈ itunes_tracks) = true
                       <-> (normalize_str (album_title t) ∈ itunes_albums \/
                            normalize_str (Track.title t) ∈ itunes_tracks)).
        { rewrite orb_true_iff, !bool_decide_eq_true. reflexivity. }
        destruct (bool_decide _ || bool_decide _) eqn:Hb.
        + destruct (Track.album t) as [al|] eqn:Hal.
          * rewrite elem_of_union, elem_of_singleton. split.
            -- intros [[Hacc | ->] | (t' & al' & Hin & Hrest)].
               ++ left. exact Hacc.
               ++ right. exists t, al. split; [apply list_elem_of_here|].
                  split; [exact Hal|]. split; [reflexivity|]. apply Href. reflexivity.
               ++ right. exists t', al'. split; [apply list_elem_of_further, Hin | exact Hrest].
            -- intros [Hacc|(t' & al' & Hin & Hal' & Hid & Hr)]; [left; left; exact Hacc|].
               apply elem_of_cons in Hin as [->|Hin].
               ++ left. right. congruence.
               ++ right. exists t', al'. auto.
          * split.
            -- intros [Hacc|(t' & al' & Hin & Hrest)]; [left; exact Hacc|].
               right. exists t', al'. split; [apply list_elem_of_further, Hin | exact Hrest].
            -- intros [Hacc|(t' & al' & Hin & Hal' & Hid & Hr)]; [left; exact Hacc|].
               apply elem_of_cons in Hin as [->|Hin]; [congruence|].
               right. exists t', al'. auto.
        + split.
          * intros [Hacc|(t' & al' & Hin & Hrest)]; [left; exact Hacc|].
            right. exists t', al'. split; [apply list_elem_of_further, Hin | exact Hrest].
          * intros [Hacc|(t' & al' & Hin & Hal' & Hid & Hr)]; [left; exact Hacc|].
            apply elem_of_cons in Hin as [->|Hin].
            -- apply Href in Hr. discriminate Hr.
            -- right. exists t', al'. auto.
    }
    rewrite Hgen. split; [|auto].
    intros [Hacc|Hex]; [|exact Hex]. apply not_elem_of_empty in Hacc as [].
  - apply orb_false_iff in Hany as [Ha Ht].
    apply negb_false_iff, bool_decide_eq_true in Ha, Ht. subst.
    split; [intros Hin; apply not_elem_of_empty in Hin as []|].
    intros (t & al & _ & _ & _ & [Hin|Hin]); apply not_elem_of_empty in Hin as [].
Qed.

End VerifiedAlbums.

(* ------------------------------------------------------------------ *)
(** ** Comparisons and the stable sort *)
(* ------------------------------------------------------------------ *)


Lemma cmp_le_trans {A} (cmp : A -> A -> comparison) `{!OrderCmp cmp} (a b c : A) :
  cmp a b <> Gt -> cmp b c <> Gt -> cmp a c <> Gt.
Proof.
  intros Hab Hbc.
  destruct (cmp a b) eqn:Eab; [apply cmp_eq in Eab as ->; exact Hbc | | congruence].
  destruct (cmp b c) eqn:Ebc; [apply cmp_eq in Ebc as <-; congruence | | congruence].
  rewrite (cmp_lt_trans a b c Eab Ebc). discriminate.
Qed.

#[export] Instance Z_compare_order : OrderCmp Z.compare.
Proof.
  split.
  - intros a b. apply Z.compare_eq.
  - apply Z.compare_refl.
  - intros a b. apply Z.compare_antisym.
  - intros a b c. rewrite !Z.compare_lt_iff. lia.
Qed.

#[export] Instance N_compare_order : OrderCmp N.compare.
Proof.
  split.
  - intros a b. apply N.compare_eq.
  - apply N.compare_refl.
  - intros a b. apply N.compare_antisym.
  - intros a b c. rewrite !N.compare_lt_iff. lia.
Qed.

#[export] Instance str_compare_order : OrderCmp str_compare.
Proof.
  split.
  - intros a. induction a as [|x a IH]; intros [|y b]; simpl; try discriminate; [reflexivity|].
    destruct (x ?= y)%N eqn:E; try discriminate.
    apply N.compare_eq in E as ->. intros Hab. f_equal. apply IH, Hab.
  - intros a. induction a as [|x a IH]; simpl; [reflexivity|].
    rewrite N.compare_refl. exact IH.
  - intros a. induction a as [|x a IH]; intros [|y b]; simpl; try reflexivity.
    rewrite (N.compare_antisym x y).
    destruct (x ?= y)%N; simpl; [apply IH | reflexivity | reflexivity].
  - intros a. induction a as [|x a IH]; intros [|y b] [|z c]; simpl; try discriminate;
      try reflexivity.
    destruct (x ?= y)%N eqn:Exy; try discriminate.
    + apply N.compare_eq in Exy as ->.
      destruct (y ?= z)%N; try discriminate; [apply IH | reflexivity].
    + intros _. destruct (y ?= z)%N eqn:Eyz; try discriminate.
      * apply N.compare_eq in Eyz as <-. rewrite Exy. reflexivity.
      * rewrite (cmp_lt_trans x y z Exy Eyz). reflexivity.
Qed.

#[export] Instance key_compare_order : OrderCmp key_compare.
Proof.
  split.
  - intros [[a1 a2] a3] [[b1 b2] b3]. simpl.
    destruct (a1 ?= b1) eqn:E1; try discriminate.
    destruct (str_compare a2 b2) eqn:E2; try discriminate.
    intros E3. apply cmp_eq in E1, E2, E3. congruence.
  - intros [[a1 a2] a3]. simpl.
    rewrite (@cmp_refl _ Z.compare _ a1), (@cmp_refl _ str_compare _ a2).
    apply Z.compare_refl.
  - intros [[a1 a2] a3] [[b1 b2] b3]. simpl.
    rewrite (@cmp_opp _ Z.compare _ a1 b1), (@cmp_opp _ str_compare _ a2 b2),
      (@cmp_opp _ Z.compare _ a3 b3).
    destruct (a1 ?= b1); simpl; try reflexivity.
    destruct (str_compare a2 b2); reflexivity.
  - intros [[a1 a2] a3] [[b1 b2] b3] [[c1 c2] c3]. simpl.
    destruct (a1 ?= b1) eqn:E1; try discriminate.
    + apply cmp_eq in E1 as ->. destruct (b1 ?= c1); try discriminate; [|reflexivity].
      destruct (str_compare a2 b2) eqn:E2; try discriminate.
      * apply cmp_eq in E2 as ->.
        destruct (str_compare b2 c2); try discriminate; [|reflexivity].
        apply cmp_lt_trans.
      * intros _. destruct (str_compare b2 c2) eqn:E3; try discriminate.
        { apply cmp_eq in E3 as <-. rewrite E2. reflexivity. }
        rewrite (cmp_lt_trans a2 b2 c2 E2 E3). reflexivity.
    + intros _. destruct (b1 ?= c1) eqn:E3; try discriminate.
      * apply cmp_eq in E3 as <-. rewrite E1. reflexivity.
      * rewrite (cmp_lt_trans a1 b1 c1 E1 E3). reflexivity.
Qed.

Section SortedFacts.
Context {A : Type} (lt : A -> A -> bool) (R : A -> A -> Prop).
Hypothesis not_lt_R : forall x y, lt y x = false -> R x y.
Hypothesis lt_R : forall x y, lt y x = true -> R y x.
Hypothesis R_trans : forall x y z, R x y -> R y z -> R x z.

Lemma sorted_insert_perm (x : A) (l : list A) : sorted_insert lt x l ≡ₚ x :: l.
Proof.
  induction l as [|y l IH]; simpl; [reflexivity|].
  destruct (lt y x); [|reflexivity].
  rewrite IH. apply perm_swap.
Qed.

Lemma py_sorted_perm (l : list A) : py_sorted lt l ≡ₚ l.
Proof.
  induction l as [|x l IH]; simpl; [reflexivity|].
  rewrite sorted_insert_perm, IH. reflexivity.
Qed.

Lemma sorted_insert_sorted (x : A) (l : list A) :
  StronglySorted R l -> StronglySorted R (sorted_insert lt x l).
Proof.
  induction 1 as [|y l Hs IH Hy]; simpl.
  - constructor; [constructor | constructor].
  - destruct (lt y x) eqn:E.
    + constructor; [exact IH|].
      rewrite sorted_insert_perm. constructor; [apply lt_R, E | exact Hy].
    + constructor; [constructor; assumption|].
      pose proof (not_lt_R _ _ E) as Hxy.
      constructor; [exact Hxy|].
      eapply Forall_impl; [exact Hy|]. intros z Hz. eapply R_trans; eassumption.
Qed.

Lemma py_sorted_sorted (l : list A) : StronglySorted R (py_sorted lt l).
Proof.
  induction l as [|x l IH]; simpl; [constructor|].
  apply sorted_insert_sorted, IH.
Qed.

End SortedFacts.

Lemma StronglySorted_later {A} (R : A -> A -> Prop) (l1 l2 : list A) (x y : A) :
  StronglySorted R (l1 ++ y :: l2) -> x ∈ l2 -> R y x.
Proof.
  induction l1 as [|a l1 IH]; simpl; intros Hs Hx.
  - apply StronglySorted_inv in Hs as [_ Hall].
    rewrite Forall_forall in Hall. apply Hall, Hx.
  - apply StronglySorted_inv in Hs as [Hs _]. apply IH; assumption.
Qed.

(* ------------------------------------------------------------------ *)
(** ** The order of the reconciled tracks *)
(* ------------------------------------------------------------------ *)

Section OrderFacts.
Context `{UnicodeData}.

Abbreviation n_album t := (normalize_str (album_title t)).
Abbreviation pop0 t := (default 0 (Track.popularity t)).


Lemma fold_right_max_snoc (a b : Z) (g : list Z) :
  fold_right Z.max a (g ++ [b]) = Z.max (fold_right Z.max a g) b.
Proof. induction g as [|c g IH]; simpl; [lia | rewrite IH; lia]. Qed.

Lemma max_of_snoc (g : list Z) (b : Z) :
  max_of (g ++ [b]) = Some (match max_of g with Some m => Z.max m b | None => b end).
Proof.
  destruct g as [|a g]; simpl; [reflexivity|].
  rewrite fold_right_max_snoc. reflexivity.
Qed.

Lemma group_pops_snoc (p : list Track.t) (x : Track.t) (al : pystr) :
  group_pops (p ++ [x]) al =
  if decide (n_album x = al) then group_pops p al ++ [pop0 x] else group_pops p al.
Proof.
  unfold group_pops. rewrite List.filter_app, map_app. simpl.
  destruct (decide (n_album x = al)) as [Heq|Hne].
  - rewrite bool_decide_eq_true_2 by exact Heq. reflexivity.
  - rewrite bool_decide_eq_false_2 by exact Hne. apply app_nil_r.
Qed.

(** The dict [album_pops] holds, for each normalized album title, the
    largest popularity of its tracks. *)
Lemma album_pops_lookup (l : list Track.t) (al : pystr) :
  album_pops l !! al = max_of (group_pops l al).
Proof.
  unfold album_pops. induction l as [|x l IH] using rev_ind; [reflexivity|].
  rewrite fold_left_app, group_pops_snoc. simpl.
  set (m := fold_left album_pops_step l ∅) in *.
  unfold album_pops_step.
  destruct (decide (n_album x = al)) as [<-|Hne].
  - rewrite max_of_snoc, <- IH.
    destruct (m !! n_album x) as [cur|] eqn:Hcur.
    + destruct (pop0 x >? cur) eqn:Hgt.
      * rewrite lookup_insert_eq. f_equal. lia.
      * rewrite Hcur. f_equal. lia.
    + rewrite lookup_insert_eq. reflexivity.
  - destruct (m !! n_album x) as [cur|];
      [destruct (pop0 x >? cur)|]; rewrite ?lookup_insert_ne by exact Hne; exact IH.
Qed.

Lemma album_pops_get (l : list Track.t) (al : pystr) :
  default 0 (album_pops l !! al) = album_max_popularity l al.
Proof.
  rewrite album_pops_lookup. unfold group_pops, album_max_popularity.
  destruct (List.filter _ l); reflexivity.
Qed.

Lemma sort_key_spec (l : list Track.t) (t : Track.t) :
  sort_key (album_pops l) t = spec_key l t.
Proof. unfold sort_key, spec_key. rewrite album_pops_get. reflexivity. Qed.

(** [album_max_popularity] is a maximum: no track of the album is more
    popular, and a track of the album has this popularity. *)
Lemma fold_right_max_ge (a : Z) (g : list Z) :
  a <= fold_right Z.max a g /\ Forall (fun b => b <= fold_right Z.max a g) g.
Proof.
  induction g as [|c g [IHa IHg]]; simpl; [split; [lia | constructor]|].
  split; [lia|]. constructor; [lia|].
  eapply Forall_impl; [exact IHg|]. simpl. intros b Hb. lia.
Qed.

Lemma fold_right_max_in (a : Z) (g : list Z) :
  fold_right Z.max a g = a \/ fold_right Z.max a g ∈ g.
Proof.
  induction g as [|c g IH]; simpl; [left; reflexivity|].
  destruct (Z.max_spec c (fold_right Z.max a g)) as [[_ ->]|[_ ->]].
  - destruct IH as [IH|IH]; [left; exact IH | right; apply list_elem_of_further, IH].
  - right. apply list_elem_of_here.
Qed.

Lemma album_max_popularity_upper (l : list Track.t) (t : Track.t) :
  t ∈ l -> pop0 t <= album_max_popularity l (n_album t).
Proof.
  intros Ht. unfold album_max_popularity.
  assert (Hin : t ∈ List.filter (fun t' => bool_decide (n_album t' = n_album t)) l).
  { apply list_elem_of_In, filter_In. split; [apply list_elem_of_In, Ht|].
    apply bool_decide_eq_true. reflexivity. }
  destruct (List.filter _ l) as [|t0 g]; [apply elem_of_nil in Hin as []|].
  destruct (fold_right_max_ge (pop0 t0) (map (fun t => pop0 t) g)) as [Ha Hg].
  apply elem_of_cons in Hin as [->|Hin]; [exact Ha|].
  rewrite Forall_forall in Hg. apply (Hg (pop0 t)).
  apply (list_elem_of_fmap_2 (fun t => pop0 t)), Hin.
Qed.

Lemma album_max_popularity_attained (l : list Track.t) (t : Track.t) :
  t ∈ l ->
  exists t', t' ∈ l /\ n_album t' = n_album t /\
             pop0 t' = album_max_popularity l (n_album t).
Proof.
  intros Ht. unfold album_max_popularity.
  assert (Hin : t ∈ List.filter (fun t' => bool_decide (n_album t' = n_album t)) l).
  { apply list_elem_of_In, filter_In. split; [apply list_elem_of_In, Ht|].
    apply bool_decide_eq_true. reflexivity. }
  assert (Hsub : forall t', t' ∈ List.filter (fun t' => bool_decide (n_album t' = n_album t)) l ->
                   t' ∈ l /\ n_album t' = n_album t).
  { intros t' Ht'. apply list_elem_of_In, filter_In in Ht' as [Hl Hk].
    split; [apply list_elem_of_In, Hl | apply bool_decide_eq_true in Hk; exact Hk]. }
  destruct (List.filter _ l) as [|t0 g]; [apply elem_of_nil in Hin as []|].
  destruct (fold_right_max_in (pop0 t0) (map (fun t => pop0 t) g)) as [Heq|Hmem].
  - exists t0. destruct (Hsub t0 (list_elem_of_here _ _)) as [? ?]. auto.
  - apply list_elem_of_fmap in Hmem as (t' & Hp & Ht').
    exists t'. destruct (Hsub t' (list_elem_of_further _ _ _ Ht')) as [? ?]. auto.
Qed.

Lemma sorted_tracks_perm (final : list Track.t) : sorted_tracks final ≡ₚ final.
Proof. apply py_sorted_perm. Qed.

Lemma sorted_tracks_sorted (final : list Track.t) :
  StronglySorted (spec_key_le final) (sorted_tracks final).
Proof.
  unfold sorted_tracks, spec_key_le.
  apply py_sorted_sorted.
  - intros x y. rewrite !sort_key_spec. unfold key_lt.
    rewrite (cmp_opp (spec_key final x) (spec_key final y)).
    destruct (key_compare (spec_key final x) (spec_key final y)); simpl; congruence.
  - intros x y. rewrite !sort_key_spec. unfold key_lt.
    destruct (key_compare (spec_key final y) (spec_key final x)); congruence.
  - intros x y z. apply cmp_le_trans. apply key_compare_order.
Qed.

(** A track of a more popular album is never behind a track of a less
    popular one. *)
Lemma sorted_tracks_album_first (final l1 l2 : list Track.t) (x y : Track.t) :
  sorted_tracks final = l1 ++ y :: l2 -> x ∈ l2 ->
  album_max_popularity final (n_album y) < album_max_popularity final (n_album x) ->
  False.
Proof.
  intros Hsplit Hx Hlt.
  pose proof (sorted_tracks_sorted final) as Hs. rewrite Hsplit in Hs.
  pose proof (StronglySorted_later _ _ _ _ _ Hs Hx) as Hle.
  apply Hle. unfold spec_key. simpl.
  destruct (Z.compare_spec (- album_max_popularity final (n_album y))
              (- album_max_popularity final (n_album x))); [lia | lia | reflexivity].
Qed.

(** C4. The reconciled sequence holds the tracks kept by classification,
    sorted by the key (largest popularity of the normalized album,
    descending; normalized album title, ascending; track number,
    ascending), a missing popularity or track number counting as 0.  In
    particular no track of an album of largest popularity 80 comes after a
    track of an album of largest popularity 40. *)
Theorem reconcile_sorted (artist : Artist.t) (tracks : list Track.t)
    (itunes_albums itunes_tracks : gset pystr) :
  let final := final_tracks itunes_albums itunes_tracks (unique_tracks artist tracks) in
  let out := reconcile artist tracks itunes_albums itunes_tracks in
  out ≡ₚ final /\
  StronglySorted (spec_key_le final) out /\
  (forall x y l1 l2,
     out = l1 ++ y :: l2 -> x ∈ l2 ->
     album_max_popularity final (n_album x) = 80 ->
     album_max_popularity final (n_album y) = 40 -> False).
Proof.
  intros final out. unfold out, reconcile. fold final.
  split; [apply sorted_tracks_perm|].
  split; [apply sorted_tracks_sorted|].
  intros x y l1 l2 Hsplit Hx H80 H40.
  apply (sorted_tracks_album_first final l1 l2 x y Hsplit Hx). lia.
Qed.

End OrderFacts.

(* ------------------------------------------------------------------ *)
(** ** The fallback of the reconciliation *)
(* ------------------------------------------------------------------ *)

Section FallbackFacts.
Context `{UnicodeData}.

Lemma dict_set_fresh {K V} `{EqDecision K} (k : K) (v : V) (d : list (K * V)) :
  k ∉ dict_keys d -> dict_set k v d = d ++ [(k, v)].
Proof.
  induction d as [|[k' v'] d IH]; simpl; [reflexivity|].
  intros Hk. apply not_elem_of_cons in Hk as [Hne Hk].
  destruct (decide (k' = k)); [congruence|]. rewrite IH by exact Hk. reflexivity.
Qed.

Lemma dict_set_nonempty {K V} `{EqDecision K} (k : K) (v : V) (d : list (K * V)) :
  dict_set k v d <> [].
Proof. destruct d as [|[k' v'] d]; simpl; [|destruct (decide (k' = k))]; discriminate. Qed.

(** Indexing by id changes nothing when the ids are distinct. *)
Lemma unique_tracks_by_id_distinct (l : list Track.t) :
  NoDup (map Track.id l) ->
  unique_tracks_by_id l = map (fun t => (Track.id t, t)) l.
Proof.
  unfold unique_tracks_by_id. induction l as [|x l IH] using rev_ind; [reflexivity|].
  rewrite map_app, fold_left_app. simpl. intros Hnd.
  apply NoDup_app in Hnd as (Hl & Hx & _). rewrite IH by exact Hl.
  rewrite dict_set_fresh; [rewrite map_app; reflexivity|].
  unfold dict_keys. rewrite map_map. simpl.
  intros Hin. apply (Hx _ Hin), list_elem_of_here.
Qed.

Lemma dict_values_by_id_distinct (l : list Track.t) :
  NoDup (map Track.id l) -> dict_values (unique_tracks_by_id l) = l.
Proof.
  intros Hnd. rewrite unique_tracks_by_id_distinct by exact Hnd.
  unfold dict_values. rewrite map_map. simpl. apply map_id.
Qed.

Lemma unique_tracks_by_id_nonempty (l : list Track.t) :
  l <> [] -> dict_values (unique_tracks_by_id l) <> [].
Proof.
  unfold unique_tracks_by_id. destruct l as [|x l _] using rev_ind; [congruence|].
  intros _. rewrite fold_left_app. simpl.
  intros Hnil. apply map_eq_nil in Hnil. exact (dict_set_nonempty _ _ _ Hnil).
Qed.

Lemma filter_none {A} (f : A -> bool) (l : list A) :
  (forall x, x ∈ l -> f x = false) -> List.filter f l = [].
Proof.
  induction l as [|a l IH]; simpl; [reflexivity|]. intros Hall.
  rewrite (Hall a) by apply list_elem_of_here.
  apply IH. intros x Hx. apply Hall, list_elem_of_further, Hx.
Qed.

(** Lines 323-324: with no track verified, every track is kept. *)
Lemma final_tracks_fallback (itunes_albums itunes_tracks : gset pystr)
    (uts : list (Z * Track.t)) :
  (forall t, t ∈ dict_values uts ->
     classify itunes_albums itunes_tracks
       (verified_album_ids itunes_albums itunes_tracks uts) t = Suspect) ->
  final_tracks itunes_albums itunes_tracks uts = dict_values uts.
Proof.
  intros Hall. unfold final_tracks. rewrite filter_none; [reflexivity|].
  intros t Ht. specialize (Hall t Ht). unfold classify in Hall.
  destruct (is_verified _ _ _ t); [discriminate | reflexivity].
Qed.

Lemma final_tracks_nonempty (itunes_albums itunes_tracks : gset pystr)
    (uts : list (Z * Track.t)) :
  dict_values uts <> [] -> final_tracks itunes_albums itunes_tracks uts <> [].
Proof.
  intros Hne. unfold final_tracks.
  destruct (List.filter _ (dict_values uts)); [exact Hne | discriminate].
Qed.

(** C8. When classification marks no track of the deduplicated set
    Verified, the reconciliation returns all of it (in sorted order).  The
    deduplicated set is the dict [unique_tracks] of the program: the
    output of [deduplicate_tracks] indexed by track id, which is that
    output itself when its ids are distinct.  And whenever the output of
    [deduplicate_tracks] is not empty, the reconciliation returns a
    non-empty sequence. *)
Theorem reconcile_fallback (artist : Artist.t) (tracks : list Track.t)
    (itunes_albums itunes_tracks : gset pystr) :
  let st := strict_filter artist tracks in
  let deduplicated := deduplicate_tracks (deref (heap st) (strict_tracks st)) in
  let uts := unique_tracks artist tracks in
  let out := reconcile artist tracks itunes_albums itunes_tracks in
  ((forall t, t ∈ dict_values uts ->
      classify itunes_albums itunes_tracks
        (verified_album_ids itunes_albums itunes_tracks uts) t = Suspect) ->
   out ≡ₚ dict_values uts) /\
  (NoDup (map Track.id deduplicated) -> dict_values uts = deduplicated) /\
  (deduplicated <> [] -> out <> []).
Proof.
  intros st deduplicated uts out. split; [|split].
  - intros Hall. unfold out, reconcile. fold uts.
    rewrite (final_tracks_fallback _ _ _ Hall). apply sorted_tracks_perm.
  - apply dict_values_by_id_distinct.
  - intros Hne Hout.
    assert (Hperm : out ≡ₚ final_tracks itunes_albums itunes_tracks uts)
      by apply sorted_tracks_perm.
    rewrite Hout in Hperm. apply Permutation_nil in Hperm.
    revert Hperm. apply final_tracks_nonempty.
    apply unique_tracks_by_id_nonempty, Hne.
Qed.

End FallbackFacts.

(* ------------------------------------------------------------------ *)
(** ** The segment timeline *)
(* ------------------------------------------------------------------ *)

Lemma expand_from_timeline_of (entries : list (Z * option Z)) (segments : list Z) :
  expand_from segments (timeline_of entries) =
  inr (segments ++
       flat_map (fun e => repeat (fst e) (Z.to_nat (default 0 (snd e) + 1))) entries).
Proof.
  revert segments. induction entries as [|[d r] entries IH]; intros segments; simpl.
  - rewrite app_nil_r. reflexivity.
  - unfold expand_step. simpl. rewrite IH, <- app_assoc. reflexivity.
Qed.

(** C5. The expansion of a timeline is the flat list in which every entry,
    of duration [d] and repeat count [r] (0 when absent), contributes
    [r + 1] consecutive segments of duration [d], in the order of the
    entries; the entries (d 4, r 2), (d 5) expand to 4, 4, 4, 5.  (The
    number of copies is the one of the list repetition of Python, which is
    [r + 1] for every repeat count from -1 on.) *)
Theorem expand_timeline_repeats (entries : list (Z * option Z)) :
  expand_timeline (timeline_of entries) =
    inr (flat_map (fun e => repeat (fst e) (Z.to_nat (default 0 (snd e) + 1))) entries) /\
  Forall (fun e =>
      -1 <= default 0 (snd e) ->
      Z.of_nat (length (repeat (fst e) (Z.to_nat (default 0 (snd e) + 1))))
      = default 0 (snd e) + 1) entries /\
  expand_timeline (timeline_of [(4, Some 2); (5, None)]) = inr [4; 4; 4; 5].
Proof.
  split; [apply (expand_from_timeline_of entries [])|].
  split; [|reflexivity].
  apply Forall_forall. intros [d r] _. simpl. intros Hle.
  rewrite repeat_length. lia.
Qed.

Lemma expand_timeline_repeats_witness :
  expand_timeline [ {| S_d := Some 4; S_r := Some 2 |}; {| S_d := Some 5; S_r := None |} ]
  = inr [4; 4; 4; 5].
Proof.
  exact (proj1 (expand_timeline_repeats [(4, Some 2); (5, None)])).
Defined.

(** An entry without the attribute [d] makes the expansion raise. *)
Lemma expand_timeline_missing_d (r : option Z) (rest : list S_elem) :
  expand_timeline ({| S_d := None; S_r := r |} :: rest) = inl TypeError.
Proof. reflexivity. Qed.

(** A negative repeat count contributes no segment: the list repetition of
    Python is empty for a count below 1. *)
Lemma expand_timeline_negative (d r : Z) :
  r < 0 -> expand_timeline (timeline_of [(d, Some r)]) = inr [].
Proof.
  intros Hr. unfold expand_timeline.
  rewrite (expand_from_timeline_of [(d, Some r)] []). simpl.
  replace (Z.to_nat (r + 1)) with O by lia. reflexivity.
Qed.

(* ------------------------------------------------------------------ *)
(** ** The manifest decoder *)
(* ------------------------------------------------------------------ *)

(** Characters outside the alphabet are ignored by the decoder. *)
Lemma a2b_base64_ignores (s : pystr) :
  forall quad_pos leftchar pads bin_data,
    a2b_base64 quad_pos leftchar pads bin_data s =
    a2b_base64 quad_pos leftchar pads bin_data (List.filter b64_kept s).
Proof.
  induction s as [|c s IH]; intros quad_pos leftchar pads bin_data; [reflexivity|].
  simpl. unfold b64_kept, is_b64_char.
  destruct (c =? 61)%N eqn:Epad.
  - rewrite orb_true_r. simpl. rewrite Epad, <- !IH. reflexivity.
  - destruct (b64_digit c) as [v|] eqn:Edig; simpl; [|apply IH].
    rewrite Epad, Edig, <- !IH. reflexivity.
Qed.

Lemma forallb_filter_sub {A} (f g : A -> bool) (l : list A) :
  forallb f l = true -> forallb f (List.filter g l) = true.
Proof.
  induction l as [|x l IH]; simpl; [reflexivity|].
  intros Hl. apply andb_true_iff in Hl as [Hx Hl].
  destruct (g x); simpl; [rewrite Hx|]; auto.
Qed.

Lemma b64decode_ignores (s : pystr) :
  forallb is_ascii s = true -> b64decode s = b64decode (List.filter b64_kept s).
Proof.
  intros Hs. unfold b64decode.
  rewrite Hs, (forallb_filter_sub _ _ _ Hs). apply a2b_base64_ignores.
Qed.

Lemma b64_digit_not_pad (c v : N) : b64_digit c = Some v -> (c =? 61)%N = false.
Proof.
  unfold b64_digit. intros Hd. destruct (c =? 61)%N eqn:E; [|reflexivity].
  apply N.eqb_eq in E. subst c. discriminate.
Qed.

Lemma b64_digit_ascii (c v : N) : b64_digit c = Some v -> is_ascii c = true.
Proof.
  unfold b64_digit, is_ascii.
  destruct ((65 <=? c) && (c <=? 90))%N eqn:E1; [lia|].
  destruct ((97 <=? c) && (c <=? 122))%N eqn:E2; [lia|].
  destruct ((48 <=? c) && (c <=? 57))%N eqn:E3; [lia|].
  destruct (c =? 43)%N eqn:E4; [lia|].
  destruct (c =? 47)%N eqn:E5; [lia | discriminate].
Qed.

Lemma a2b_base64_digit (c v : N) (quad_pos : nat) (leftchar : N) (pads : nat)
    (bin_data : pybytes) (rest : pystr) :
  b64_digit c = Some v ->
  a2b_base64 quad_pos leftchar pads bin_data (c :: rest) =
  match quad_pos with
  | 0%nat => a2b_base64 1 v 0 bin_data rest
  | 1%nat => a2b_base64 2 (N.land v 15) 0
               (bin_data ++ [N.lor (N.shiftl leftchar 2) (N.shiftr v 4)]) rest
  | 2%nat => a2b_base64 3 (N.land v 3) 0
               (bin_data ++ [N.lor (N.shiftl leftchar 4) (N.shiftr v 2)]) rest
  | _ => a2b_base64 0 0 0 (bin_data ++ [N.lor (N.shiftl leftchar 6) v]) rest
  end.
Proof.
  intros Hd. cbn [a2b_base64]. rewrite (b64_digit_not_pad _ _ Hd), Hd. reflexivity.
Qed.

(** Data that ends inside a group of four is rejected. *)
Lemma a2b_base64_truncated (s : pystr) :
  forall quad_pos leftchar pads bin_data,
    (quad_pos < 4)%nat -> forallb is_b64_char s = true ->
    ((quad_pos + length s) mod 4 <> 0)%nat ->
    a2b_base64 quad_pos leftchar pads bin_data s = inl BinasciiError.
Proof.
  induction s as [|c s IH]; intros quad_pos leftchar pads bin_data Hq Hs Hmod.
  - destruct quad_pos; [exfalso; apply Hmod; reflexivity | reflexivity].
  - simpl in Hs. apply andb_true_iff in Hs as [Hc Hs].
    unfold is_b64_char in Hc. destruct (b64_digit c) as [v|] eqn:Hd; [|discriminate].
    rewrite (a2b_base64_digit _ _ _ _ _ _ _ Hd).
    change (length (c :: s)) with (S (length s)) in Hmod.
    assert (Hstep : forall q, (quad_pos + S (length s) = q + length s + 4 * (quad_pos / 3))%nat ->
                      ((q + length s) mod 4 <> 0)%nat).
    { intros q Hq'. intros Hz. apply Hmod. rewrite Hq'.
      rewrite (Nat.mul_comm 4), Nat.Div0.mod_add. exact Hz. }
    destruct quad_pos as [|[|[|[|quad_pos]]]]; try lia; apply IH; auto; try lia;
      apply Hstep; cbn; lia.
Qed.

Lemma b64decode_truncated (s : pystr) :
  forallb is_b64_char s = true -> (length s mod 4 <> 0)%nat ->
  b64decode s = inl BinasciiError.
Proof.
  intros Hs Hmod. unfold b64decode.
  assert (Ha : forallb is_ascii s = true).
  { rewrite forallb_forall in *. intros c Hc. specialize (Hs c Hc).
    unfold is_b64_char in Hs. destruct (b64_digit c) eqn:Hd; [|discriminate].
    eapply b64_digit_ascii, Hd. }
  rewrite Ha. apply a2b_base64_truncated; [lia | exact Hs | exact Hmod].
Qed.

(* ------------------------------------------------------------------ *)
(** ** Paths of the temporary files and of the output *)
(* ------------------------------------------------------------------ *)

Lemma uint_codes_inj (d e : Decimal.uint) : uint_codes d = uint_codes e -> d = e.
Proof.
  revert e. induction d; intros []; simpl; intros Heq;
    try discriminate; try reflexivity;
    injection Heq as Heq; f_equal; apply IHd, Heq.
Qed.

Lemma str_nat_inj (i j : nat) : str_nat i = str_nat j -> i = j.
Proof.
  unfold str_nat. intros Heq. apply uint_codes_inj in Heq.
  rewrite <- (DecimalNat.Unsigned.of_to i), <- (DecimalNat.Unsigned.of_to j), Heq.
  reflexivity.
Qed.

Lemma uint_codes_digits (d : Decimal.uint) : Forall (fun c => c <> 47%N) (uint_codes d).
Proof. induction d; simpl; constructor; try exact IHd; discriminate. Qed.

Lemma str_int_no_slash (z : Z) : Forall (fun c => c <> 47%N) (str_int z).
Proof.
  unfold str_int. destruct (Z.to_int z);
    [|constructor; [discriminate|]]; apply uint_codes_digits.
Qed.

Lemma match_slash {A} (c : N) (x y : A) :
  c <> 47%N -> match c with 47%N => x | _ => y end = y.
Proof.
  intros Hne. destruct c as [|p]; [reflexivity|].
  do 6 (try (destruct p as [p|p|]; try reflexivity)).
  exfalso. apply Hne. reflexivity.
Qed.

Lemma os_path_join_relative (a b : pystr) :
  head b <> Some 47%N -> os_path_join a b = join_prefix a ++ b.
Proof.
  intros Hb. unfold os_path_join, join_prefix.
  assert (Hrel : match b with
                 | 47%N :: _ => b
                 | _ => match rev a with
                        | [] => b
                        | 47%N :: _ => a ++ b
                        | _ => a ++ 47%N :: b
                        end
                 end = match rev a with
                       | [] => b
                       | 47%N :: _ => a ++ b
                       | _ => a ++ 47%N :: b
                       end).
  { destruct b as [|c b]; [reflexivity|].
    apply match_slash. intros ->. apply Hb. reflexivity. }
  rewrite Hrel. destruct (rev a) as [|c r]; [reflexivity|].
  destruct (N.eq_dec c 47%N) as [->|Hne]; [reflexivity|].
  rewrite !match_slash by exact Hne. rewrite <- app_assoc. reflexivity.
Qed.

Lemma os_path_join_inj (a b c : pystr) :
  head b <> Some 47%N -> head c <> Some 47%N ->
  os_path_join a b = os_path_join a c -> b = c.
Proof.
  intros Hb Hc. rewrite !os_path_join_relative by assumption. apply app_inv_head.
Qed.

Lemma head_no_slash (l r : pystr) (c : N) :
  Forall (fun x => x <> 47%N) l -> c <> 47%N -> head (l ++ c :: r) <> Some 47%N.
Proof.
  intros Hl Hc. destruct l as [|x l]; simpl; [congruence|].
  apply Forall_cons in Hl as [Hx _]. congruence.
Qed.

Lemma sanitize_no_slash (name : pystr) : head (_sanitize_filename name) <> Some 47%N.
Proof.
  unfold _sanitize_filename.
  destruct (List.filter _ name) as [|c l] eqn:E; simpl; [discriminate|].
  assert (Hin : In c (List.filter (fun c => negb (bool_decide
      (c ∈ [92; 47; 42; 63; 58; 34; 60; 62; 124]%N))) name))
    by (rewrite E; left; reflexivity).
  apply filter_In in Hin as [_ Hc]. intros [= ->]. discriminate Hc.
Qed.

Lemma sanitize_flac (name : pystr) :
  _sanitize_filename (name ++ u ".flac") = _sanitize_filename name ++ u ".flac".
Proof. unfold _sanitize_filename. rewrite List.filter_app. reflexivity. Qed.

Section Paths.
Variable output_dir : pystr.
Variable metadata : Track.t.

Lemma init_name_relative :
  head (str_int (Track.id metadata) ++ u "_init.m4s") <> Some 47%N.
Proof. apply head_no_slash; [apply str_int_no_slash | discriminate]. Qed.

Lemma seg_name_relative (i : nat) :
  head (str_int (Track.id metadata) ++ u "_seg_" ++ str_nat i ++ u ".m4s") <> Some 47%N.
Proof. apply head_no_slash; [apply str_int_no_slash | discriminate]. Qed.

Lemma seg_path_inj (i j : nat) :
  seg_path output_dir metadata i = seg_path output_dir metadata j -> i = j.
Proof.
  unfold seg_path. intros Heq.
  apply os_path_join_inj in Heq; try apply seg_name_relative.
  apply app_inv_head in Heq. apply (app_inv_head (u "_seg_")) in Heq.
  apply app_inv_tail in Heq. apply str_nat_inj, Heq.
Qed.

Lemma init_path_not_seg (i : nat) :
  init_path output_dir metadata <> seg_path output_dir metadata i.
Proof.
  unfold init_path, seg_path. intros Heq.
  apply os_path_join_inj in Heq;
    [|apply init_name_relative | apply seg_name_relative].
  apply app_inv_head in Heq. discriminate Heq.
Qed.

Lemma flac_not_m4s (a b : pystr) : a ++ u ".flac" <> b ++ u ".m4s".
Proof.
  intros Heq. apply (f_equal (@rev N)) in Heq.
  rewrite !rev_app_distr in Heq. discriminate Heq.
Qed.

Lemma out_path_not_init :
  out_path output_dir metadata <> init_path output_dir metadata.
Proof.
  unfold out_path, init_path. intros Heq.
  apply os_path_join_inj in Heq;
    [|apply sanitize_no_slash | apply init_name_relative].
  rewrite !app_assoc, sanitize_flac in Heq.
  change (u "_init.m4s") with (u "_init" ++ u ".m4s") in Heq.
  rewrite app_assoc in Heq. exact (flac_not_m4s _ _ Heq).
Qed.

Lemma out_path_not_seg (i : nat) :
  out_path output_dir metadata <> seg_path output_dir metadata i.
Proof.
  unfold out_path, seg_path. intros Heq.
  apply os_path_join_inj in Heq;
    [|apply sanitize_no_slash | apply seg_name_relative].
  rewrite !app_assoc, sanitize_flac in Heq. exact (flac_not_m4s _ _ Heq).
Qed.

End Paths.

(* ------------------------------------------------------------------ *)
(** ** The loops of the assembly *)
(* ------------------------------------------------------------------ *)

Section Loops.
Variable fetch : pystr -> response.

Lemma download_file_run (url dest : pystr) (fs : gmap pystr pybytes) :
  _download_file fetch url dest fs =
  match fetch url with
  | NoResponse => (inl RequestException, fs)
  | Body chunks complete =>
      (if complete then inr tt else inl RequestException, <[dest := concat chunks]> fs)
  end.
Proof.
  unfold _download_file. destruct (fetch url) as [|chunks []]; reflexivity.
Qed.

Lemma download_file_ok (url dest : pystr) (data : pybytes) (fs : gmap pystr pybytes) :
  body (fetch url) = Some data ->
  _download_file fetch url dest fs = (inr tt, <[dest := data]> fs).
Proof.
  rewrite download_file_run. destruct (fetch url) as [|chunks []]; simpl; try discriminate.
  intros [= <-]. reflexivity.
Qed.

Lemma download_file_fail (url dest : pystr) (fs : gmap pystr pybytes) :
  body (fetch url) = None ->
  exists fs', _download_file fetch url dest fs = (inl RequestException, fs') /\
              forall p, p <> dest -> fs' !! p = fs !! p.
Proof.
  rewrite download_file_run. destruct (fetch url) as [|chunks []]; simpl; try discriminate;
    intros _; eexists; (split; [reflexivity|]); intros p Hp; [reflexivity|].
  apply lookup_insert_ne. congruence.
Qed.

(** The loop that copies the files [ps] to the end of the file [out]. *)
Lemma copy_loop (out : pystr) (ps : list pystr) :
  forall (fs : gmap pystr pybytes) (acc : pybytes),
    out ∉ ps -> (forall p, p ∈ ps -> is_Some (fs !! p)) -> fs !! out = Some acc ->
    for_each ps (fun _ mp => data <- read mp ;; write out data) tt fs =
    (inr tt, <[out := acc ++ concat (map (fun p => default [] (fs !! p)) ps)]> fs).
Proof.
  induction ps as [|p ps IH]; intros fs acc Hout Hex Hacc.
  - simpl. unfold ret. rewrite app_nil_r, insert_id by exact Hacc. reflexivity.
  - apply not_elem_of_cons in Hout as [Hne Hout].
    destruct (Hex p (list_elem_of_here _ _)) as [data Hdata].
    cbn [for_each]. unfold bind at 1. unfold bind at 1. unfold read at 1. rewrite Hdata.
    unfold write at 1. rewrite Hacc. cbn [default].
    assert (Hmap : forall v,
      map (fun q => default [] (<[out := v]> fs !! q)) ps
      = map (fun q => default [] (fs !! q)) ps).
    { intros v. apply map_ext_in. intros q Hq.
      rewrite lookup_insert_ne; [reflexivity|].
      intros ->. apply Hout, list_elem_of_In, Hq. }
    rewrite (IH _ (acc ++ data)).
    + rewrite Hmap, insert_insert_eq. simpl. rewrite Hdata. simpl.
      rewrite <- app_assoc. reflexivity.
    + exact Hout.
    + intros q Hq. rewrite lookup_insert_ne; [apply Hex, list_elem_of_further, Hq|].
      intros ->. contradiction.
    + apply lookup_insert_eq.
Qed.

Lemma remove_all_lookup (ps : list pystr) :
  forall (fs : gmap pystr pybytes) (q : pystr),
    remove_all ps fs !! q = if decide (q ∈ ps) then None else fs !! q.
Proof.
  induction ps as [|p ps IH]; intros fs q; simpl.
  - destruct (decide (q ∈ [])) as [Hin|_]; [apply elem_of_nil in Hin as [] | reflexivity].
  - unfold remove_all in IH. rewrite IH.
    destruct (decide (q ∈ ps)) as [Hin|Hn].
    + destruct (decide (q ∈ p :: ps)) as [_|Hn']; [reflexivity|].
      exfalso. apply Hn', list_elem_of_further, Hin.
    + destruct (decide (q = p)) as [->|Hne].
      * rewrite lookup_delete_eq.
        destruct (decide (p ∈ p :: ps)) as [_|Hn']; [reflexivity|].
        exfalso. apply Hn', list_elem_of_here.
      * rewrite lookup_delete_ne by congruence.
        destruct (decide (q ∈ p :: ps)) as [Hin|_]; [|reflexivity].
        apply elem_of_cons in Hin as [?|?]; contradiction.
Qed.

(** The loop that removes the files [ps]. *)
Lemma remove_loop (ps : list pystr) :
  forall (fs : gmap pystr pybytes),
    NoDup ps -> (forall p, p ∈ ps -> is_Some (fs !! p)) ->
    for_each ps (fun _ mp => os_remove mp) tt fs = (inr tt, remove_all ps fs).
Proof.
  induction ps as [|p ps IH]; intros fs Hnd Hex; [reflexivity|].
  apply NoDup_cons in Hnd as [Hp Hnd].
  destruct (Hex p (list_elem_of_here _ _)) as [data Hdata].
  cbn [for_each]. unfold bind at 1. unfold os_remove at 1. rewrite Hdata.
  rewrite IH; [reflexivity | exact Hnd |].
  intros q Hq. rewrite lookup_delete_ne; [apply Hex, list_elem_of_further, Hq|].
  intros ->. contradiction.
Qed.

End Loops.

(* ------------------------------------------------------------------ *)
(** ** The segmented assembly *)
(* ------------------------------------------------------------------ *)

Section AssembleFacts.
Variable fetch : pystr -> response.
Variable urljoin : pystr -> pystr -> pystr.
Variable output_dir : pystr.
Variables base_url init_template media_template : pystr.
Variable metadata : Track.t.

Abbreviation Init := (init_path output_dir metadata).
Abbreviation Seg := (seg_path output_dir metadata).
Abbreviation Out := (out_path output_dir metadata).
Abbreviation SegUrl := (seg_url urljoin base_url media_template).

Abbreviation SegBytes := (segment_bytes fetch urljoin base_url media_template).
Abbreviation Stored :=
  (store_segments fetch urljoin output_dir base_url media_template metadata).
Abbreviation FetchSeg :=
  (fetch_segment fetch urljoin output_dir base_url media_template metadata).

Lemma store_segments_other (l : list nat) :
  forall (fs : gmap pystr pybytes) (p : pystr),
    (forall i, i ∈ l -> p <> Seg i) -> Stored l fs !! p = fs !! p.
Proof.
  induction l as [|i l IH]; intros fs p Hp; [reflexivity|].
  simpl. rewrite IH.
  - apply lookup_insert_ne. intros Heq. apply (Hp i (list_elem_of_here _ _)). congruence.
  - intros j Hj. apply Hp, list_elem_of_further, Hj.
Qed.

Lemma store_segments_seg (l : list nat) :
  forall (fs : gmap pystr pybytes) (i : nat),
    NoDup l -> i ∈ l -> Stored l fs !! Seg i = Some (SegBytes i).
Proof.
  induction l as [|j l IH]; intros fs i Hnd Hi; [apply elem_of_nil in Hi as []|].
  apply NoDup_cons in Hnd as [Hj Hnd]. simpl.
  destruct (decide (i ∈ l)) as [Hin|Hn].
  - apply IH; assumption.
  - apply elem_of_cons in Hi as [->|Hi]; [|contradiction].
    rewrite store_segments_other; [apply lookup_insert_eq|].
    intros k Hk Heq. apply seg_path_inj in Heq. congruence.
Qed.

Lemma fetch_loop_ok (l : list nat) :
  forall (acc : list pystr) (fs : gmap pystr pybytes),
    (forall i, i ∈ l -> is_Some (body (fetch (SegUrl i)))) ->
    for_each l FetchSeg acc fs = (inr (acc ++ map Seg l), Stored l fs).
Proof.
  induction l as [|i l IH]; intros acc fs Hok.
  - simpl. rewrite app_nil_r. reflexivity.
  - destruct (Hok i (list_elem_of_here _ _)) as [data Hdata].
    cbn [for_each]. unfold bind at 1. unfold fetch_segment at 1. unfold bind at 1.
    rewrite (download_file_ok _ _ _ _ _ Hdata). unfold ret at 1.
    rewrite IH by (intros j Hj; apply Hok, list_elem_of_further, Hj).
    assert (Hb : SegBytes i = data)
      by (unfold segment_bytes; rewrite Hdata; reflexivity).
    unfold store_segments. cbn [fold_left map]. rewrite Hb, <- app_assoc. reflexivity.
Qed.

Lemma fetch_loop_fail (l1 l2 : list nat) (k : nat) :
  forall (acc : list pystr) (fs : gmap pystr pybytes),
    (forall i, i ∈ l1 -> is_Some (body (fetch (SegUrl i)))) ->
    body (fetch (SegUrl k)) = None ->
    exists fs',
      for_each (l1 ++ k :: l2) FetchSeg acc fs = (inl RequestException, fs') /\
      forall p, p <> Seg k -> fs' !! p = Stored l1 fs !! p.
Proof.
  induction l1 as [|i l1 IH]; intros acc fs Hok Hk.
  - destruct (download_file_fail fetch (SegUrl k) (Seg k) fs Hk) as (fs' & Hrun & Hfs').
    exists fs'. split; [|exact Hfs'].
    cbn [app for_each]. unfold bind at 1. unfold fetch_segment at 1. unfold bind at 1.
    rewrite Hrun. reflexivity.
  - destruct (Hok i (list_elem_of_here _ _)) as [data Hdata].
    destruct (IH (acc ++ [Seg i]) (<[Seg i := data]> fs)) as (fs' & Hrun & Hfs').
    { intros j Hj. apply Hok, list_elem_of_further, Hj. }
    { exact Hk. }
    exists fs'. split.
    + cbn [app for_each]. unfold bind at 1. unfold fetch_segment at 1. unfold bind at 1.
      rewrite (download_file_ok _ _ _ _ _ Hdata). unfold ret at 1. exact Hrun.
    + intros p Hp. rewrite (Hfs' p Hp).
      assert (Hb : SegBytes i = data)
        by (unfold segment_bytes; rewrite Hdata; reflexivity).
      unfold store_segments. cbn [fold_left]. rewrite Hb. reflexivity.
Qed.

(** Either every segment of [l] is served, or there is a first one that is
    not. *)
Lemma first_failure (l : list nat) :
  (forall i, i ∈ l -> is_Some (body (fetch (SegUrl i)))) \/
  exists l1 k l2, l = l1 ++ k :: l2 /\
    (forall i, i ∈ l1 -> is_Some (body (fetch (SegUrl i)))) /\
    body (fetch (SegUrl k)) = None.
Proof.
  induction l as [|i l IH].
  - left. intros i Hi. apply elem_of_nil in Hi as [].
  - destruct (body (fetch (SegUrl i))) as [data|] eqn:Hi.
    + destruct IH as [Hall|(l1 & k & l2 & -> & Hl1 & Hk)].
      * left. intros j Hj. apply elem_of_cons in Hj as [->|Hj]; [rewrite Hi; eauto | auto].
      * right. exists (i :: l1), k, l2. split; [reflexivity|]. split; [|exact Hk].
        intros j Hj. apply elem_of_cons in Hj as [->|Hj]; [rewrite Hi; eauto | auto].
    + right. exists [], i, l. split; [reflexivity|]. split; [|exact Hi].
      intros j Hj. apply elem_of_nil in Hj as [].
Qed.

Lemma bind_ok {A B} (m : io A) (k : A -> io B) (fs fs' : gmap pystr pybytes) (a : A) :
  m fs = (inr a, fs') -> bind m k fs = k a fs'.
Proof. intros Hm. unfold bind. rewrite Hm. reflexivity. Qed.

Lemma bind_raise {A B} (m : io A) (k : A -> io B) (fs fs' : gmap pystr pybytes) (e : exn) :
  m fs = (inl e, fs') -> bind m k fs = (inl e, fs').
Proof. intros Hm. unfold bind. rewrite Hm. reflexivity. Qed.

Lemma NoDup_seg_paths (n : nat) : NoDup (map Seg (seq 1 n)).
Proof.
  apply NoDup_fmap_2; [|apply NoDup_ListNoDup, seq_NoDup].
  intros i j. apply seg_path_inj.
Qed.

Lemma elem_of_seg_paths (p : pystr) (l : list nat) :
  p ∈ map Seg l <-> exists i, i ∈ l /\ p = Seg i.
Proof.
  rewrite list_elem_of_fmap. split; intros (i & Hi & Hp); exists i; auto.
Qed.

(** When every fetch succeeds the assembly returns the output path; the
    output file holds the initialization segment followed by the media
    segments in ascending order, no temporary file is left, and no other
    file has changed. *)
Lemma assemble_ok (segments : list Z) (fs : gmap pystr pybytes) (ib : pybytes) :
  body (fetch (urljoin base_url init_template)) = Some ib ->
  (forall i, i ∈ seq 1 (length segments) -> is_Some (body (fetch (SegUrl i)))) ->
  exists fs',
    assemble fetch urljoin output_dir base_url init_template media_template
      segments metadata fs = (inr Out, fs') /\
    fs' !! Out = Some (ib ++ concat (map SegBytes (seq 1 (length segments)))) /\
    fs' !! Init = None /\
    (forall i, i ∈ seq 1 (length segments) -> fs' !! Seg i = None) /\
    (forall p, p <> Out -> p <> Init ->
       (forall i, i ∈ seq 1 (length segments) -> p <> Seg i) -> fs' !! p = fs !! p).
Proof.
  intros Hinit Hsegs. set (ids := seq 1 (length segments)) in *.
  set (fs1 := <[Init := ib]> fs).
  set (fs2 := Stored ids fs1).
  set (fs3 := <[Out := []]> fs2).
  set (fs4 := <[Out := ib]> fs3).
  set (content := ib ++ concat (map SegBytes ids)).
  set (fs5 := <[Out := content]> fs4).
  set (fs6 := delete Init fs5).
  set (fs7 := remove_all (map Seg ids) fs6).
  assert (Hout_seg : forall i, Out <> Seg i) by (intros i; apply out_path_not_seg).
  assert (Hout_init : Out <> Init) by apply out_path_not_init.
  assert (Hinit_seg : forall i, Init <> Seg i) by (intros i; apply init_path_not_seg).
  assert (Hnd : NoDup ids) by (apply NoDup_ListNoDup, seq_NoDup).
  assert (H2seg : forall i, i ∈ ids -> fs2 !! Seg i = Some (SegBytes i))
    by (intros i Hi; apply store_segments_seg; assumption).
  assert (H2init : fs2 !! Init = Some ib).
  { unfold fs2. rewrite store_segments_other by (intros i _; apply Hinit_seg).
    apply lookup_insert_eq. }
  assert (H4seg : forall i, i ∈ ids -> fs4 !! Seg i = Some (SegBytes i)).
  { intros i Hi. unfold fs4, fs3. rewrite !lookup_insert_ne by apply Hout_seg.
    apply H2seg, Hi. }
  assert (H4init : fs4 !! Init = Some ib).
  { unfold fs4, fs3. rewrite !lookup_insert_ne by exact Hout_init. exact H2init. }
  assert (Hnotin : Out ∉ map Seg ids).
  { intros Hin. apply elem_of_seg_paths in Hin as (i & _ & Heq). exact (Hout_seg i Heq). }
  exists fs7. split; [|split; [|split; [|split]]].
  - assert (H3init : fs3 !! Init = Some ib).
    { unfold fs3. rewrite lookup_insert_ne by exact Hout_init. exact H2init. }
    assert (Hcontent : map (fun p => default [] (fs4 !! p)) (map Seg ids)
                       = map SegBytes ids).
    { rewrite map_map. apply map_ext_in. intros i Hi.
      rewrite (H4seg i) by (apply list_elem_of_In, Hi). reflexivity. }
    unfold assemble. fold ids.
    rewrite (bind_ok _ _ fs fs1 tt) by (apply download_file_ok; exact Hinit).
    rewrite (bind_ok _ _ fs1 fs2 (map Seg ids)) by (apply (fetch_loop_ok ids []); exact Hsegs).
    rewrite (bind_ok _ _ fs2 fs3 tt) by reflexivity.
    rewrite (bind_ok _ _ fs3 fs4 tt).
    2:{ rewrite (bind_ok _ _ fs3 fs3 ib) by (unfold read; rewrite H3init; reflexivity).
        unfold write, fs4, fs3. rewrite lookup_insert_eq, insert_insert_eq.
        rewrite insert_insert_eq. reflexivity. }
    rewrite (bind_ok _ _ fs4 fs5 tt).
    2:{ rewrite (copy_loop Out (map Seg ids) fs4 ib).
        - rewrite Hcontent. reflexivity.
        - exact Hnotin.
        - intros p Hp. apply elem_of_seg_paths in Hp as (i & Hi & ->).
          rewrite (H4seg i Hi). eauto.
        - apply lookup_insert_eq. }
    rewrite (bind_ok _ _ fs5 fs6 tt).
    2:{ unfold os_remove. unfold fs5 at 1.
        rewrite lookup_insert_ne by exact Hout_init. rewrite H4init. reflexivity. }
    rewrite (bind_ok _ _ fs6 fs7 tt).
    2:{ apply remove_loop; [apply NoDup_seg_paths|].
        intros p Hp. apply elem_of_seg_paths in Hp as (i & Hi & ->).
        unfold fs6, fs5. rewrite lookup_delete_ne by apply Hinit_seg.
        rewrite lookup_insert_ne by apply Hout_seg. rewrite (H4seg i Hi). eauto. }
    reflexivity.
  - unfold fs7. rewrite remove_all_lookup.
    destruct (decide (Out ∈ map Seg ids)); [contradiction|].
    unfold fs6. rewrite lookup_delete_ne by congruence.
    apply lookup_insert_eq.
  - unfold fs7. rewrite remove_all_lookup.
    destruct (decide (Init ∈ map Seg ids)); [reflexivity|].
    apply lookup_delete_eq.
  - intros i Hi. unfold fs7. rewrite remove_all_lookup.
    destruct (decide (Seg i ∈ map Seg ids)) as [_|Hn]; [reflexivity|].
    exfalso. apply Hn, elem_of_seg_paths. eauto.
  - intros p Hpo Hpi Hps. unfold fs7. rewrite remove_all_lookup.
    destruct (decide (p ∈ map Seg ids)) as [Hin|_].
    { apply elem_of_seg_paths in Hin as (i & Hi & ->). exfalso. exact (Hps i Hi eq_refl). }
    unfold fs6, fs5, fs4, fs3, fs2.
    rewrite lookup_delete_ne by congruence.
    rewrite !lookup_insert_ne by congruence.
    rewrite store_segments_other by exact Hps.
    apply lookup_insert_ne. congruence.
Qed.

(** When the fetch of the initialization segment fails, the error
    propagates; nothing but the initialization file can have changed. *)
Lemma assemble_fail_init (segments : list Z) (fs : gmap pystr pybytes) :
  body (fetch (urljoin base_url init_template)) = None ->
  exists fs',
    assemble fetch urljoin output_dir base_url init_template media_template
      segments metadata fs = (inl RequestException, fs') /\
    forall p, p <> Init -> fs' !! p = fs !! p.
Proof.
  intros Hinit.
  destruct (download_file_fail fetch _ Init fs Hinit) as (fs' & Hrun & Hfs').
  exists fs'. split; [|exact Hfs'].
  unfold assemble. apply bind_raise, Hrun.
Qed.

(** When the fetch of a media segment fails, the error propagates, and the
    initialization file and the media segments stored before it are still
    there. *)
Lemma assemble_fail_segment (segments : list Z) (fs : gmap pystr pybytes)
    (ib : pybytes) (l1 l2 : list nat) (k : nat) :
  body (fetch (urljoin base_url init_template)) = Some ib ->
  seq 1 (length segments) = l1 ++ k :: l2 ->
  (forall i, i ∈ l1 -> is_Some (body (fetch (SegUrl i)))) ->
  body (fetch (SegUrl k)) = None ->
  exists fs',
    assemble fetch urljoin output_dir base_url init_template media_template
      segments metadata fs = (inl RequestException, fs') /\
    fs' !! Init = Some ib /\
    (forall i, i ∈ l1 -> fs' !! Seg i = Some (SegBytes i)).
Proof.
  intros Hinit Hsplit Hl1 Hk.
  assert (Hnd : NoDup (l1 ++ k :: l2))
    by (rewrite <- Hsplit; apply NoDup_ListNoDup, seq_NoDup).
  apply NoDup_app in Hnd as (Hnd1 & Hdisj & _).
  destruct (fetch_loop_fail l1 l2 k [] (<[Init := ib]> fs) Hl1 Hk) as (fs' & Hrun & Hfs').
  exists fs'. split; [|split].
  - unfold assemble. rewrite Hsplit.
    rewrite (bind_ok _ _ fs (<[Init := ib]> fs) tt) by (apply download_file_ok; exact Hinit).
    apply bind_raise, Hrun.
  - rewrite Hfs' by apply init_path_not_seg.
    rewrite store_segments_other by (intros i _; apply init_path_not_seg).
    apply lookup_insert_eq.
  - intros i Hi. rewrite Hfs'.
    + apply store_segments_seg; assumption.
    + intros Heq. apply seg_path_inj in Heq. subst i.
      apply (Hdisj k Hi), list_elem_of_here.
Qed.

(** The assembly returns only when every fetch has succeeded. *)
Lemma assemble_returns (segments : list Z) (fs fs' : gmap pystr pybytes) (p : pystr) :
  assemble fetch urljoin output_dir base_url init_template media_template
    segments metadata fs = (inr p, fs') ->
  exists ib,
    body (fetch (urljoin base_url init_template)) = Some ib /\
    (forall i, i ∈ seq 1 (length segments) -> is_Some (body (fetch (SegUrl i)))).
Proof.
  intros Hrun.
  destruct (body (fetch (urljoin base_url init_template))) as [ib|] eqn:Hinit.
  - exists ib. split; [reflexivity|].
    destruct (first_failure (seq 1 (length segments)))
      as [Hall|(l1 & k & l2 & Hsplit & Hl1 & Hk)]; [exact Hall|].
    destruct (assemble_fail_segment segments fs ib l1 l2 k Hinit Hsplit Hl1 Hk)
      as (fs'' & Hfail & _).
    rewrite Hfail in Hrun. discriminate Hrun.
  - destruct (assemble_fail_init segments fs Hinit) as (fs'' & Hfail & _).
    rewrite Hfail in Hrun. discriminate Hrun.
Qed.

End AssembleFacts.

(* ------------------------------------------------------------------ *)
(** ** _download_dash *)
(* ------------------------------------------------------------------ *)

Section DashFacts.
Variable fetch : pystr -> response.
Variable urljoin : pystr -> pystr -> pystr.
Variable parse_mpd : pybytes -> mpd.
Variable output_dir : pystr.

Abbreviation dash := (_download_dash fetch urljoin parse_mpd output_dir).

(** With a timeline, [_download_dash] is the expansion followed by the
    assembly. *)
Lemma download_dash_timeline (manifest_xml : pybytes) (metadata : Track.t)
    (base_url init_template media_template : pystr) (timeline : list S_elem)
    (fs : gmap pystr pybytes) :
  parse_mpd manifest_xml =
    SegmentTemplate base_url (Some init_template) (Some media_template) (Some timeline) ->
  dash manifest_xml metadata fs =
  match init_template, media_template with
  | [], _ | _, [] => (inl (ValueError (u "Missing attributes in SegmentTemplate")), fs)
  | _, _ =>
      match expand_timeline timeline with
      | inl e => (inl e, fs)
      | inr segments =>
          assemble fetch urljoin output_dir base_url init_template media_template
            segments metadata fs
      end
  end.
Proof.
  intros Hparse. unfold _download_dash. rewrite Hparse.
  destruct init_template, media_template; try reflexivity.
  destruct (expand_timeline timeline); reflexivity.
Qed.

(** The assembly returns whenever the initialization segment and every
    media segment of the timeline is served. *)
Lemma download_dash_succeeds (manifest_xml : pybytes) (metadata : Track.t)
    (base_url init_template media_template : pystr) (timeline : list S_elem)
    (segments : list Z) (ib : pybytes) (fs : gmap pystr pybytes) :
  parse_mpd manifest_xml =
    SegmentTemplate base_url (Some init_template) (Some media_template) (Some timeline) ->
  init_template <> [] -> media_template <> [] ->
  expand_timeline timeline = inr segments ->
  body (fetch (urljoin base_url init_template)) = Some ib ->
  (forall i, i ∈ seq 1 (length segments) ->
     is_Some (body (fetch (seg_url urljoin base_url media_template i)))) ->
  exists fs', dash manifest_xml metadata fs = (inr (out_path output_dir metadata), fs').
Proof.
  intros Hparse Hi Hm Hexp Hinit Hsegs.
  destruct (assemble_ok fetch urljoin output_dir base_url init_template media_template
              metadata segments fs ib Hinit Hsegs) as (fs' & Hrun & _).
  exists fs'. rewrite (download_dash_timeline _ _ _ _ _ _ _ Hparse), Hexp.
  destruct init_template, media_template; congruence.
Qed.

(** C6. Whenever the assembly of a segmented manifest returns, the
    initialization segment and the N media segments of the timeline were
    all served, and the output file holds the bytes of the initialization
    segment followed by those of the media segments 1 to N in this order,
    and nothing else. *)
Theorem download_dash_layout (manifest_xml : pybytes) (metadata : Track.t)
    (base_url init_template media_template : pystr) (timeline : list S_elem)
    (fs fs' : gmap pystr pybytes) (p : pystr) :
  parse_mpd manifest_xml =
    SegmentTemplate base_url (Some init_template) (Some media_template) (Some timeline) ->
  dash manifest_xml metadata fs = (inr p, fs') ->
  exists (segments : list Z) (ib : pybytes),
    expand_timeline timeline = inr segments /\
    body (fetch (urljoin base_url init_template)) = Some ib /\
    (forall i, i ∈ seq 1 (length segments) ->
       is_Some (body (fetch (seg_url urljoin base_url media_template i)))) /\
    p = out_path output_dir metadata /\
    fs' !! p =
      Some (ib ++ concat (map (segment_bytes fetch urljoin base_url media_template)
                            (seq 1 (length segments)))).
Proof.
  intros Hparse Hrun. rewrite (download_dash_timeline _ _ _ _ _ _ _ Hparse) in Hrun.
  assert (Hrun' : exists segments, expand_timeline timeline = inr segments /\
            assemble fetch urljoin output_dir base_url init_template media_template
              segments metadata fs = (inr p, fs')).
  { destruct init_template, media_template; try discriminate Hrun;
      destruct (expand_timeline timeline) as [e|segments]; try discriminate Hrun;
      exists segments; split; [reflexivity | exact Hrun]. }
  destruct Hrun' as (segments & Hexp & Hasm).
  destruct (assemble_returns _ _ _ _ _ _ _ _ _ _ _ Hasm) as (ib & Hinit & Hsegs).
  destruct (assemble_ok fetch urljoin output_dir base_url init_template media_template
              metadata segments fs ib Hinit Hsegs) as (fs'' & Hok & Hout & _).
  rewrite Hok in Hasm. injection Hasm as <- <-.
  exists segments, ib. auto.
Qed.

(** C1, as the program has it.  After an assembly that returns, neither
    the initialization file nor any media segment file of the call is
    left.  There is no cleanup on failure: when the fetch of a media
    segment fails, the error propagates at once, and the initialization
    file and the media segment files stored before it are still there. *)
Theorem download_dash_temporary_files (manifest_xml : pybytes) (metadata : Track.t)
    (base_url init_template media_template : pystr) (timeline : list S_elem)
    (segments : list Z) (fs : gmap pystr pybytes) :
  parse_mpd manifest_xml =
    SegmentTemplate base_url (Some init_template) (Some media_template) (Some timeline) ->
  init_template <> [] -> media_template <> [] ->
  expand_timeline timeline = inr segments ->
  (forall p fs', dash manifest_xml metadata fs = (inr p, fs') ->
     fs' !! init_path output_dir metadata = None /\
     forall i, i ∈ seq 1 (length segments) ->
       fs' !! seg_path output_dir metadata i = None) /\
  (forall ib l1 k l2,
     body (fetch (urljoin base_url init_template)) = Some ib ->
     seq 1 (length segments) = l1 ++ k :: l2 ->
     (forall i, i ∈ l1 ->
        is_Some (body (fetch (seg_url urljoin base_url media_template i)))) ->
     body (fetch (seg_url urljoin base_url media_template k)) = None ->
     exists fs',
       dash manifest_xml metadata fs = (inl RequestException, fs') /\
       fs' !! init_path output_dir metadata = Some ib /\
       forall i, i ∈ l1 ->
         fs' !! seg_path output_dir metadata i =
         Some (segment_bytes fetch urljoin base_url media_template i)).
Proof.
  intros Hparse Hi Hm Hexp.
  assert (Hdash : dash manifest_xml metadata fs =
            assemble fetch urljoin output_dir base_url init_template media_template
              segments metadata fs).
  { rewrite (download_dash_timeline _ _ _ _ _ _ _ Hparse), Hexp.
    destruct init_template, media_template; congruence. }
  rewrite Hdash. split.
  - intros p fs' Hrun.
    destruct (assemble_returns _ _ _ _ _ _ _ _ _ _ _ Hrun) as (ib & Hinit & Hsegs).
    destruct (assemble_ok fetch urljoin output_dir base_url init_template media_template
                metadata segments fs ib Hinit Hsegs) as (fs'' & Hok & _ & Hnoinit & Hnoseg & _).
    rewrite Hok in Hrun. injection Hrun as <- <-. auto.
  - intros ib l1 k l2. apply assemble_fail_segment.
Qed.

End DashFacts.

(** The run of the sample manifest on the complete source: the output is
    the six bytes in order and no other file is left. *)
Example sample_assembly :
  let run := _download_dash Sample.fetch Sample.urljoin Sample.parse_mpd
               Sample.output_dir [] Sample.uprising ∅ in
  fst run = inr (u "downloads/Muse - Uprising.flac") /\
  map_to_list (snd run) = [(u "downloads/Muse - Uprising.flac", [1; 2; 3; 4; 5; 6]%N)].
Proof. vm_compute. split; reflexivity. Qed.

Lemma download_dash_layout_witness :
  exists (segments : list Z) (ib : pybytes),
    expand_timeline [ {| S_d := Some 4; S_r := Some 1 |} ] = inr segments /\
    body (Sample.fetch (Sample.urljoin (u "http://cdn/") (u "init.mp4"))) = Some ib /\
    (forall i, i ∈ seq 1 (length segments) ->
       is_Some (body (Sample.fetch
                        (seg_url Sample.urljoin (u "http://cdn/") (u "seg_$Number$.m4s") i)))) /\
    u "downloads/Muse - Uprising.flac" = out_path Sample.output_dir Sample.uprising /\
    snd (_download_dash Sample.fetch Sample.urljoin Sample.parse_mpd
           Sample.output_dir [] Sample.uprising ∅)
      !! u "downloads/Muse - Uprising.flac" =
      Some (ib ++ concat (map (segment_bytes Sample.fetch Sample.urljoin (u "http://cdn/")
                                 (u "seg_$Number$.m4s"))
                            (seq 1 (length segments)))).
Proof.
  apply (download_dash_layout Sample.fetch Sample.urljoin Sample.parse_mpd
           Sample.output_dir [] Sample.uprising (u "http://cdn/") (u "init.mp4")
           (u "seg_$Number$.m4s") [ {| S_d := Some 4; S_r := Some 1 |} ] ∅).
  - reflexivity.
  - vm_compute. reflexivity.
Defined.

(** C1 fails as stated: on the source without the second media segment
    the assembly raises, and the initialization file and the first media
    segment file stay behind. *)
Lemma download_dash_leaves_files :
  let run := _download_dash Sample.fetch_without_2 Sample.urljoin Sample.parse_mpd
               Sample.output_dir [] Sample.uprising ∅ in
  fst run = inl RequestException /\
  snd run !! u "downloads/1_init.m4s" = Some [1; 2; 3]%N /\
  snd run !! u "downloads/1_seg_1.m4s" = Some [4]%N.
Proof. vm_compute. repeat split; reflexivity. Qed.

Lemma download_dash_temporary_files_witness :
  let run := _download_dash Sample.fetch Sample.urljoin Sample.parse_mpd
               Sample.output_dir [] Sample.uprising ∅ in
  snd run !! init_path Sample.output_dir Sample.uprising = None /\
  forall i, i ∈ seq 1 2 -> snd run !! seg_path Sample.output_dir Sample.uprising i = None.
Proof.
  refine (proj1 (download_dash_temporary_files Sample.fetch Sample.urljoin Sample.parse_mpd
           Sample.output_dir [] Sample.uprising (u "http://cdn/") (u "init.mp4")
           (u "seg_$Number$.m4s") [ {| S_d := Some 4; S_r := Some 1 |} ] [4; 4] ∅
           _ _ _ _) (u "downloads/Muse - Uprising.flac") _ _).
  - reflexivity.
  - discriminate.
  - discriminate.
  - reflexivity.
  - vm_compute. reflexivity.
Defined.

(* ------------------------------------------------------------------ *)
(** ** download_track *)
(* ------------------------------------------------------------------ *)

Section TrackFacts.
Variable fetch : pystr -> response.
Variable urljoin : pystr -> pystr -> pystr.
Variable parse_mpd : pybytes -> mpd.
Variable output_dir : pystr.
Variable _download_bts : pybytes -> Track.t -> io pystr.

Abbreviation run_track :=
  (download_track fetch urljoin parse_mpd output_dir _download_bts).

(** C7, as the program has it.  For every manifest and declared type: the
    download raises when the encoded payload is absent or empty, and when
    [b64decode] rejects it, which it does for text that is not ASCII and
    for data that ends inside a group of four; characters outside the
    base-64 alphabet are ignored, not rejected.  When the payload decodes,
    a declared type other than the direct-URL type and the DASH type raises
    an error whose message names the declared type, and the two supported
    types go to their handlers. *)
Theorem download_track_decoding (track_id : Z) (manifest_data : option manifest_inner)
    (metadata : Track.t) (fs : gmap pystr pybytes) :
  let mime := manifest_data ≫= manifestMimeType in
  let payload := manifest_data ≫= manifest in
  (payload = None \/ payload = Some [] ->
     run_track track_id manifest_data metadata fs =
     (inl (ValueError (u "Manifest is empty for track " ++ str_int track_id)), fs)) /\
  (forall s e, payload = Some s -> s <> [] -> b64decode s = inl e ->
     run_track track_id manifest_data metadata fs = (inl e, fs)) /\
  (forall s, forallb is_ascii s = false -> exists msg, b64decode s = inl (ValueError msg)) /\
  (forall s, forallb is_b64_char s = true -> (length s mod 4 <> 0)%nat ->
     b64decode s = inl BinasciiError) /\
  (forall s, forallb is_ascii s = true ->
     b64decode s = b64decode (List.filter b64_kept s)) /\
  (forall s manifest_bytes,
     payload = Some s -> s <> [] -> b64decode s = inr manifest_bytes ->
     (mime = Some (u "application/vnd.tidal.bts") ->
        run_track track_id manifest_data metadata fs =
        _download_bts manifest_bytes metadata fs) /\
     (mime = Some (u "application/dash+xml") ->
        run_track track_id manifest_data metadata fs =
        _download_dash fetch urljoin parse_mpd output_dir manifest_bytes metadata fs) /\
     (mime <> Some (u "application/vnd.tidal.bts") ->
      mime <> Some (u "application/dash+xml") ->
        run_track track_id manifest_data metadata fs =
        (inl (ValueError (u "Unsupported manifest type: " ++ str_opt mime)), fs))).
Proof.
  intros mime payload. unfold download_track. fold mime payload.
  split; [|split; [|split; [|split; [|split]]]].
  - intros [-> | ->]; reflexivity.
  - intros s e -> Hs He. destruct s; [congruence|]. rewrite He. reflexivity.
  - intros s Hs. unfold b64decode. rewrite Hs. eauto.
  - apply b64decode_truncated.
  - apply b64decode_ignores.
  - intros s manifest_bytes -> Hs Hdec. destruct s; [congruence|]. rewrite Hdec.
    split; [|split].
    + intros ->. reflexivity.
    + intros ->. reflexivity.
    + intros Hbts Hdash. rewrite !bool_decide_eq_false_2 by assumption. reflexivity.
Qed.

End TrackFacts.

(** C7 fails as stated: a payload with a star in the middle and other
    text after the padding is not valid base64, and it is decoded all the
    same; with the direct-URL type the download goes on with the decoded
    manifest. *)
Lemma invalid_base64_decodes :
  let payload := u "eyJ1cmxz*IjpbImgiXX0=#junk" in
  valid_base64 payload = false /\
  b64decode payload = b64decode (u "eyJ1cmxzIjpbImgiXX0=") /\
  download_track Sample.fetch Sample.urljoin Sample.parse_mpd Sample.output_dir
    Sample._download_bts 1
    (Some {| manifestMimeType := Some (u "application/vnd.tidal.bts");
             manifest := Some payload |})
    Sample.uprising ∅
  = (inr [123; 34; 117; 114; 108; 115; 34; 58; 91; 34; 104; 34; 93; 125]%N, ∅).
Proof. vm_compute. repeat split; reflexivity. Qed.

Lemma download_track_decoding_witness :
  download_track Sample.fetch Sample.urljoin Sample.parse_mpd Sample.output_dir
    Sample._download_bts 1
    (Some {| manifestMimeType := Some (u "audio/flac"); manifest := Some (u "YQ==") |})
    Sample.uprising ∅
  = (inl (ValueError (u "Unsupported manifest type: audio/flac")), ∅).
Proof.
  destruct (download_track_decoding Sample.fetch Sample.urljoin Sample.parse_mpd
              Sample.output_dir Sample._download_bts 1
              (Some {| manifestMimeType := Some (u "audio/flac");
                       manifest := Some (u "YQ==") |})
              Sample.uprising ∅) as (_ & _ & _ & _ & _ & Hroute).
  destruct (Hroute (u "YQ==") [97%N]) as (_ & _ & Hother);
    [reflexivity | discriminate | reflexivity |].
  apply Hother; discriminate.
Defined.

(* ------------------------------------------------------------------ *)
(** ** The artist filter and the track records *)
(* ------------------------------------------------------------------ *)

Section FilterFacts.
Context `{UnicodeData}.

Lemma strict_filter_step_heap (artist : Artist.t) (st : filter_state) (i : nat)
    (t : Track.t) :
  heap st !! i = Some t ->
  heap (strict_filter_step artist st i) = <[i := visited t]> (heap st).
Proof.
  intros Ht. unfold strict_filter_step, visited. rewrite Ht.
  destruct (Track.artists t) as [|a l] eqn:Ha; simpl.
  - symmetry. apply list_insert_id, Ht.
  - reflexivity.
Qed.

Lemma strict_filter_prefix (artist : Artist.t) (tracks : list Track.t) (n : nat) :
  (n <= length tracks)%nat ->
  heap (fold_left (strict_filter_step artist) (seq 0 n)
          {| heap := tracks; strict_tracks := [] |})
  = map visited (take n tracks) ++ drop n tracks.
Proof.
  induction n as [|n IH]; intros Hn.
  - simpl. rewrite drop_0. reflexivity.
  - rewrite seq_S, fold_left_app. simpl.
    set (st := fold_left (strict_filter_step artist) (seq 0 n)
                 {| heap := tracks; strict_tracks := [] |}) in *.
    assert (Hlt : (n < length tracks)%nat) by lia.
    destruct (lookup_lt_is_Some_2 tracks n Hlt) as [t Ht].
    assert (Hheap : heap st = map visited (take n tracks) ++ drop n tracks)
      by (apply IH; lia).
    assert (Hlen : length (map visited (take n tracks)) = n)
      by (rewrite length_map, length_take; lia).
    assert (Hst : heap st !! n = Some t).
    { rewrite Hheap, lookup_app_r by lia. rewrite Hlen, Nat.sub_diag, lookup_drop.
      rewrite Nat.add_0_r. exact Ht. }
    rewrite (strict_filter_step_heap artist st n t Hst), Hheap.
    rewrite (take_S_r tracks n t Ht), map_app. simpl.
    rewrite (drop_S tracks t n Ht).
    rewrite <- (Nat.add_0_r n) at 1. rewrite <- Hlen at 1.
    rewrite insert_app_r. simpl. rewrite <- app_assoc. reflexivity.
Qed.

(** After the filter every track object is its [visited] version: the
    primary artist has been appended to a non-empty artists list, and
    nothing else has changed. *)
Lemma strict_filter_heap (artist : Artist.t) (tracks : list Track.t) :
  heap (strict_filter artist tracks) = map visited tracks.
Proof.
  unfold strict_filter. rewrite strict_filter_prefix by lia.
  rewrite firstn_all, drop_all, app_nil_r. reflexivity.
Qed.

Lemma visited_artists (t : Track.t) :
  Track.artists (visited t) =
  match Track.artists t with
  | [] => []
  | l => l ++ [Track.artist t]
  end.
Proof. unfold visited. destruct (Track.artists t) eqn:E; [exact E | reflexivity]. Qed.

(** A track with a non-empty artists list does not come out of the filter
    as it went in. *)
Lemma strict_filter_changes_artists (artist : Artist.t) (tracks : list Track.t)
    (i : nat) (t : Track.t) :
  tracks !! i = Some t -> Track.artists t <> [] ->
  exists t', heap (strict_filter artist tracks) !! i = Some t' /\
             Track.artists t' = Track.artists t ++ [Track.artist t] /\
             Track.artists t' <> Track.artists t.
Proof.
  intros Ht Hne. exists (visited t). rewrite strict_filter_heap.
  split; [rewrite list_lookup_fmap, Ht; reflexivity|].
  rewrite visited_artists. destruct (Track.artists t) as [|a l]; [congruence|].
  split; [reflexivity|].
  intros Heq. apply (f_equal (@length _)) in Heq.
  rewrite length_app in Heq. simpl in Heq. lia.
Qed.

End FilterFacts.

(** C10 does not hold of the program.  The filter of the reconciliation
    appends the primary artist to the artists list of a track whose list
    is not empty (the list it appends to is the track's own), and leaves a
    track with an empty list alone. *)
Theorem strict_filter_appends_artist :
  Track.artists Sample.uprising = [Sample.muse] /\
  heap (strict_filter Sample.muse [Sample.uprising; Sample.unlisted])
  = [Track.set_artists [Sample.muse; Sample.muse] Sample.uprising; Sample.unlisted] /\
  strict_tracks (strict_filter Sample.muse [Sample.uprising; Sample.unlisted]) = [0; 1]%nat.
Proof. vm_compute. repeat split; reflexivity. Qed.

(* ------------------------------------------------------------------ *)
(** ** The program on the sample data *)
(* ------------------------------------------------------------------ *)

Example normalize_remix :
  normalize_str (u "Blinding Lights (Remix)") = normalize_str (u "Blinding Lights").
Proof. reflexivity. Qed.

(** Of two records with the same title, album and explicit flag, one LOW
    and one LOSSLESS, the LOSSLESS one is kept, whichever comes first. *)
Example dedup_keeps_lossless :
  deduplicate_tracks [Sample.uprising_low; Sample.uprising; Sample.hysteria]
    = [Sample.uprising; Sample.hysteria] /\
  deduplicate_tracks [Sample.uprising; Sample.uprising_low; Sample.hysteria]
    = [Sample.uprising; Sample.hysteria].
Proof. vm_compute. split; reflexivity. Qed.

(** Without reference data a popularity of 10 is Verified and one of 2 is
    Suspect. *)
Example classify_without_reference :
  classify ∅ ∅ ∅ (Sample.track 9 "A" (Some 10) [] Sample.absolution "LOW" None) = Verified /\
  classify ∅ ∅ ∅ (Sample.track 9 "A" (Some 2) [] Sample.absolution "LOW" None) = Suspect /\
  classify ∅ ∅ ∅ (Sample.track 9 "A" None [] Sample.absolution "LOW" None) = Suspect.
Proof. vm_compute. repeat split; reflexivity. Qed.

(** The album of largest popularity 80 comes before the one of 40, and the
    tracks of an album are in the order of their numbers. *)
Example reconcile_sample :
  map Track.id
    (reconcile Sample.muse
       [Sample.hysteria; Sample.uprising_low; Sample.resistance_song;
        Sample.uprising; Sample.unlisted] ∅ ∅) = [1; 3; 4].
Proof. vm_compute. reflexivity. Qed.

Lemma reconcile_sorted_witness :
  let tracks := [Sample.hysteria; Sample.resistance_song; Sample.uprising] in
  let final := final_tracks ∅ ∅ (unique_tracks Sample.muse tracks) in
  reconcile Sample.muse tracks ∅ ∅ ≡ₚ final /\
  StronglySorted (spec_key_le final) (reconcile Sample.muse tracks ∅ ∅).
Proof.
  destruct (reconcile_sorted Sample.muse
              [Sample.hysteria; Sample.resistance_song; Sample.uprising] ∅ ∅)
    as (Hperm & Hsorted & _).
  split; [exact Hperm | exact Hsorted].
Defined.

(** A track of popularity 2 is Suspect without reference data; alone, it
    is returned all the same. *)
Lemma reconcile_fallback_witness :
  reconcile Sample.muse [Sample.unlisted] ∅ ∅
    ≡ₚ dict_values (unique_tracks Sample.muse [Sample.unlisted]) /\
  reconcile Sample.muse [Sample.unlisted] ∅ ∅ <> [].
Proof.
  destruct (reconcile_fallback Sample.muse [Sample.unlisted] ∅ ∅)
    as (Hall & _ & Hne).
  split.
  - apply Hall. intros t Ht. vm_compute in Ht.
    apply list_elem_of_singleton in Ht. subst t. vm_compute. reflexivity.
  - apply Hne. vm_compute. discriminate.
Defined.


(* ================================================================== *)
(** * Further properties of cli.py *)
(* ================================================================== *)

(* ------------------------------------------------------------------ *)
(** ** deduplicate_tracks, once more *)
(* ------------------------------------------------------------------ *)

Section DedupMore.
Context `{UnicodeData}.

(** On records with pairwise distinct keys the loop of
    [deduplicate_tracks] only appends. *)
Lemma dedup_fold_distinct (l : list Track.t) :
  NoDup (map dedup_key l) ->
  fold_left dedup_step l [] = map (fun t => (dedup_key t, t)) l.
Proof.
  induction l as [|x l IH] using rev_ind; [reflexivity|].
  rewrite map_app, fold_left_app. simpl. intros Hnd.
  apply NoDup_app in Hnd as (Hl & Hx & _). rewrite IH by exact Hl.
  assert (Hfresh : dedup_key x ∉ dict_keys (map (fun t => (dedup_key t, t)) l)).
  { unfold dict_keys. rewrite map_map. simpl.
    intros Hin. apply (Hx _ Hin), list_elem_of_here. }
  unfold dedup_step.
  rewrite (proj2 (dict_get_None _ _) Hfresh), dict_set_fresh by exact Hfresh.
  rewrite map_app. reflexivity.
Qed.

Lemma dedup_distinct (l : list Track.t) :
  NoDup (map dedup_key l) -> deduplicate_tracks l = l.
Proof.
  intros Hnd. unfold deduplicate_tracks, dict_values.
  rewrite dedup_fold_distinct by exact Hnd.
  rewrite map_map. simpl. apply map_id.
Qed.

Lemma dedup_keys_NoDup (l : list Track.t) :
  NoDup (map dedup_key (deduplicate_tracks l)).
Proof.
  rewrite dedup_values_keys. destruct (dedup_inv_fold l) as [-> _].
  apply NoDup_first_occurrences.
Qed.

Lemma dedup_elem (l : list Track.t) (t : Track.t) :
  t ∈ deduplicate_tracks l -> t ∈ l.
Proof.
  intros Ht. destruct (dedup_inv_fold l) as [_ Hent].
  unfold deduplicate_tracks, dict_values in Ht.
  apply list_elem_of_fmap in Ht as ([k t'] & -> & Hin).
  destruct (Hent k t' Hin) as [_ (l1 & l2 & -> & _)].
  apply elem_of_app. right. apply list_elem_of_here.
Qed.

Lemma first_occurrences_length {K} `{EqDecision K} (l : list K) :
  (length (first_occurrences l) <= length l)%nat.
Proof.
  induction l as [|k l IH]; simpl; [lia|].
  pose proof (filter_length_le (fun k' => bool_decide (k' <> k)) (first_occurrences l)).
  lia.
Qed.

(** X1. Deduplication is idempotent: deduplicating a deduplicated list
    changes nothing; more generally a list whose records have pairwise
    distinct keys comes back as it is. *)
Theorem deduplicate_tracks_idempotent (l : list Track.t) :
  deduplicate_tracks (deduplicate_tracks l) = deduplicate_tracks l /\
  (NoDup (map dedup_key l) -> deduplicate_tracks l = l).
Proof.
  split; [|apply dedup_distinct].
  apply dedup_distinct, dedup_keys_NoDup.
Qed.

(** X2. Deduplication only drops records: every record of the output is a
    record of the input, the output is not longer than the input, and it
    is empty only for an empty input. *)
Theorem deduplicate_tracks_subset (l : list Track.t) :
  (forall t, t ∈ deduplicate_tracks l -> t ∈ l) /\
  (length (deduplicate_tracks l) <= length l)%nat /\
  (deduplicate_tracks l = [] <-> l = []).
Proof.
  split; [apply dedup_elem|]. split.
  - rewrite <- (length_map dedup_key (deduplicate_tracks l)), dedup_values_keys.
    destruct (dedup_inv_fold l) as [-> _].
    etransitivity; [apply first_occurrences_length|]. rewrite length_map. lia.
  - split; [|intros ->; reflexivity].
    intros Hnil. destruct l as [|x l]; [reflexivity|]. exfalso.
    assert (Hk : map dedup_key (deduplicate_tracks (x :: l)) = []) by (rewrite Hnil; reflexivity).
    rewrite dedup_values_keys in Hk. destruct (dedup_inv_fold (x :: l)) as [Hkeys _].
    rewrite Hkeys in Hk. discriminate Hk.
Qed.

End DedupMore.

(* ------------------------------------------------------------------ *)
(** ** The artist filter, the index by id and the result *)
(* ------------------------------------------------------------------ *)

Section ReconcileMore.
Context `{UnicodeData}.

Lemma strict_filter_step_refs (artist : Artist.t) (st : filter_state) (i : nat)
    (t : Track.t) :
  heap st !! i = Some t ->
  strict_tracks (strict_filter_step artist st i) =
  if appears artist t then strict_tracks st ++ [i] else strict_tracks st.
Proof.
  intros Ht. unfold strict_filter_step, appears. rewrite Ht.
  destruct (Track.artists t) as [|a l]; reflexivity.
Qed.

Lemma strict_filter_prefix_refs (artist : Artist.t) (tracks : list Track.t) (n : nat) :
  (n <= length tracks)%nat ->
  strict_tracks (fold_left (strict_filter_step artist) (seq 0 n)
                   {| heap := tracks; strict_tracks := [] |})
  = List.filter (fun i => match tracks !! i with
                          | Some t => appears artist t
                          | None => false
                          end) (seq 0 n).
Proof.
  induction n as [|n IH]; intros Hn; [reflexivity|].
  rewrite seq_S, fold_left_app, List.filter_app. simpl.
  set (st := fold_left (strict_filter_step artist) (seq 0 n)
               {| heap := tracks; strict_tracks := [] |}) in *.
  assert (Hlt : (n < length tracks)%nat) by lia.
  destruct (lookup_lt_is_Some_2 tracks n Hlt) as [t Ht].
  assert (Hst : heap st !! n = Some t).
  { unfold st. rewrite strict_filter_prefix by lia.
    rewrite lookup_app_r by (rewrite length_map, length_take; lia).
    rewrite length_map, length_take, Nat.min_l, Nat.sub_diag, lookup_drop by lia.
    rewrite Nat.add_0_r. exact Ht. }
  rewrite (strict_filter_step_refs artist st n t Hst), IH by lia.
  rewrite Ht. destruct (appears artist t); [reflexivity | rewrite app_nil_r; reflexivity].
Qed.

Lemma omap_lookup_app {A} (l l' : list A) (idx : list nat) :
  Forall (fun i => (i < length l)%nat) idx ->
  omap (fun i => (l ++ l') !! i) idx = omap (fun i => l !! i) idx.
Proof.
  induction 1 as [|i idx Hi _ IH]; [reflexivity|].
  change (i :: idx) with ([i] ++ idx). rewrite !omap_app, IH. f_equal.
  simpl. rewrite lookup_app_l by exact Hi. reflexivity.
Qed.

Lemma deref_filter_seq {A B} (f : A -> B) (P : A -> bool) (l : list A) :
  omap (fun i => map f l !! i)
    (List.filter (fun i => match l !! i with Some t => P t | None => false end)
       (seq 0 (length l)))
  = map f (List.filter P l).
Proof.
  induction l as [|x l IH] using rev_ind; [reflexivity|].
  rewrite length_app. cbn [length]. rewrite Nat.add_1_r, seq_S, !List.filter_app, !map_app.
  cbn [Nat.add List.filter map]. rewrite omap_app.
  assert (Hpre : List.filter (fun i => match (l ++ [x]) !! i with
                                       | Some t => P t | None => false end)
                   (seq 0 (length l))
                 = List.filter (fun i => match l !! i with
                                         | Some t => P t | None => false end)
                     (seq 0 (length l))).
  { apply filter_ext_in. intros i Hi. apply in_seq in Hi.
    rewrite lookup_app_l by lia. reflexivity. }
  rewrite Hpre, omap_lookup_app, IH.
  - f_equal. rewrite list_lookup_middle by reflexivity.
    destruct (P x); simpl; [|reflexivity].
    rewrite list_lookup_middle by (rewrite length_map; reflexivity). reflexivity.
  - apply Forall_forall. intros i Hi.
    apply list_elem_of_In, filter_In in Hi as [Hi _]. apply in_seq in Hi.
    rewrite length_map. lia.
Qed.

Lemma strict_refs (artist : Artist.t) (tracks : list Track.t) :
  strict_tracks (strict_filter artist tracks) =
  List.filter (fun i => match tracks !! i with
                        | Some t => appears artist t
                        | None => false
                        end) (seq 0 (length tracks)).
Proof. unfold strict_filter. apply strict_filter_prefix_refs. lia. Qed.

Lemma strict_deref (artist : Artist.t) (tracks : list Track.t) :
  deref (heap (strict_filter artist tracks)) (strict_tracks (strict_filter artist tracks))
  = map visited (List.filter (appears artist) tracks).
Proof.
  unfold deref. rewrite strict_refs, strict_filter_heap. apply deref_filter_seq.
Qed.

(** X3. The artist filter keeps, in their order, exactly the tracks on
    which the chosen artist appears (same id, same name after
    [lower().strip()], both truthy) in the artists list or as the primary
    artist; the records it hands on are the visited ones. *)
Theorem strict_filter_selects (artist : Artist.t) (tracks : list Track.t) :
  let st := strict_filter artist tracks in
  strict_tracks st =
    List.filter (fun i => match tracks !! i with
                          | Some t => appears artist t
                          | None => false
                          end) (seq 0 (length tracks)) /\
  deref (heap st) (strict_tracks st) = map visited (List.filter (appears artist) tracks).
Proof.
  intros st. split; [apply strict_refs | apply strict_deref].
Qed.

(** What the dict [{t.id: t for t in l}] holds. *)
Lemma unique_tracks_by_id_inv (l : list Track.t) :
  NoDup (dict_keys (unique_tracks_by_id l)) /\
  (forall k t, (k, t) ∈ unique_tracks_by_id l -> Track.id t = k /\ t ∈ l).
Proof.
  unfold unique_tracks_by_id. induction l as [|x l [Hnd Hent]] using rev_ind.
  - split; [constructor|]. intros k t Hin. apply elem_of_nil in Hin as [].
  - rewrite fold_left_app. simpl.
    set (d := fold_left (fun d t => dict_set (Track.id t) t d) l []) in *.
    split.
    + rewrite dict_keys_set. destruct (decide (Track.id x ∈ dict_keys d)); [exact Hnd|].
      apply NoDup_app. split; [exact Hnd|]. split; [|apply NoDup_singleton].
      intros k Hk Hk'. apply list_elem_of_singleton in Hk'. congruence.
    + intros k t Hin. apply dict_set_elem in Hin; [|exact Hnd].
      destruct Hin as [[= -> ->]|[Hin _]].
      * split; [reflexivity|]. apply elem_of_app. right. apply list_elem_of_here.
      * destruct (Hent k t Hin) as [Hid Hl]. split; [exact Hid|].
        apply elem_of_app. left. exact Hl.
Qed.

Lemma unique_tracks_by_id_ids (l : list Track.t) :
  map Track.id (dict_values (unique_tracks_by_id l)) = dict_keys (unique_tracks_by_id l).
Proof.
  destruct (unique_tracks_by_id_inv l) as [_ Hent].
  unfold dict_values, dict_keys.
  induction (unique_tracks_by_id l) as [|[k t] d IH]; [reflexivity|].
  simpl. f_equal.
  - apply (Hent k t), list_elem_of_here.
  - apply IH. intros k' t' Hin. apply Hent, list_elem_of_further, Hin.
Qed.

Lemma NoDup_map_filter {A B} (f : A -> B) (P : A -> bool) (l : list A) :
  NoDup (map f l) -> NoDup (map f (List.filter P l)).
Proof.
  induction l as [|x l IH]; simpl; [auto|]. intros Hnd.
  apply NoDup_cons in Hnd as [Hx Hnd]. destruct (P x); [|auto].
  simpl. apply NoDup_cons. split; [|auto].
  intros Hin. apply Hx. apply list_elem_of_fmap in Hin as (y & -> & Hy).
  apply list_elem_of_fmap_2. apply list_elem_of_In, filter_In in Hy as [Hy _].
  apply list_elem_of_In, Hy.
Qed.

Lemma final_tracks_elem (itunes_albums itunes_tracks : gset pystr)
    (uts : list (Z * Track.t)) (t : Track.t) :
  t ∈ final_tracks itunes_albums itunes_tracks uts -> t ∈ dict_values uts.
Proof.
  unfold final_tracks.
  destruct (List.filter _ (dict_values uts)) as [|y v] eqn:E; [auto|].
  rewrite <- E. intros Hin. apply list_elem_of_In, filter_In in Hin as [Hin _].
  apply list_elem_of_In, Hin.
Qed.

Lemma final_tracks_ids (itunes_albums itunes_tracks : gset pystr)
    (uts : list (Z * Track.t)) :
  NoDup (map Track.id (dict_values uts)) ->
  NoDup (map Track.id (final_tracks itunes_albums itunes_tracks uts)).
Proof.
  intros Hnd. unfold final_tracks.
  destruct (List.filter _ (dict_values uts)) as [|y v] eqn:E; [exact Hnd|].
  rewrite <- E. apply NoDup_map_filter, Hnd.
Qed.

(** X4. The tracks of the result have pairwise distinct ids: the dict
    indexed by track id holds one record per id. *)
Theorem reconcile_distinct_ids (artist : Artist.t) (tracks : list Track.t)
    (itunes_albums itunes_tracks : gset pystr) :
  NoDup (map Track.id (reconcile artist tracks itunes_albums itunes_tracks)).
Proof.
  unfold reconcile.
  rewrite (sorted_tracks_perm
             (final_tracks itunes_albums itunes_tracks (unique_tracks artist tracks))).
  apply final_tracks_ids. unfold unique_tracks.
  rewrite unique_tracks_by_id_ids. apply unique_tracks_by_id_inv.
Qed.

(** X5. Every track of the result is a track of the listing on which the
    chosen artist appears (as the filter left it): the reconciliation
    returns no track of its own making and none of another artist. *)
Theorem reconcile_from_listing (artist : Artist.t) (tracks : list Track.t)
    (itunes_albums itunes_tracks : gset pystr) (t : Track.t) :
  t ∈ reconcile artist tracks itunes_albums itunes_tracks ->
  exists t0, t0 ∈ tracks /\ appears artist t0 = true /\ t = visited t0.
Proof.
  unfold reconcile. rewrite sorted_tracks_perm. intros Ht.
  apply final_tracks_elem in Ht. unfold unique_tracks, dict_values in Ht.
  apply list_elem_of_fmap in Ht as ([k t'] & -> & Hin). simpl.
  apply unique_tracks_by_id_inv in Hin as [_ Hin].
  apply dedup_elem in Hin. rewrite strict_deref in Hin.
  apply list_elem_of_fmap in Hin as (t0 & -> & Hin).
  apply list_elem_of_In, filter_In in Hin as [Hin Happ].
  exists t0. split; [apply list_elem_of_In, Hin|]. auto.
Qed.

(** Lines 306-316: a popularity of 50 or more verifies a track whatever
    the reference sets hold. *)
Lemma is_verified_popular (itunes_albums itunes_tracks : gset pystr) (ids : gset Z)
    (t : Track.t) (p : Z) :
  Track.popularity t = Some p -> 50 <= p ->
  is_verified itunes_albums itunes_tracks ids t = true.
Proof.
  intros Hp Hle. unfold is_verified. rewrite Hp. simpl.
  destruct (bool_decide (itunes_albums = ∅) && bool_decide (itunes_tracks = ∅)).
  - rewrite Z.geb_leb. lia.
  - destruct (Track.album t) as [al|]; [destruct (bool_decide (Album.id al ∈ ids))|];
      try reflexivity;
      repeat (destruct (bool_decide (_ ∈ _)); try reflexivity);
      rewrite Z.geb_leb; destruct (p =? 0) eqn:E0, (50 <=? p) eqn:E1; simpl; lia.
Qed.

Lemma final_tracks_keeps_verified (itunes_albums itunes_tracks : gset pystr)
    (uts : list (Z * Track.t)) (t : Track.t) :
  t ∈ dict_values uts ->
  is_verified itunes_albums itunes_tracks
    (verified_album_ids itunes_albums itunes_tracks uts) t = true ->
  t ∈ final_tracks itunes_albums itunes_tracks uts.
Proof.
  intros Hin Hv. unfold final_tracks.
  assert (Hf : t ∈ List.filter (is_verified itunes_albums itunes_tracks
                 (verified_album_ids itunes_albums itunes_tracks uts)) (dict_values uts)).
  { apply list_elem_of_In, filter_In. split; [apply list_elem_of_In, Hin | exact Hv]. }
  destruct (List.filter _ (dict_values uts)); [apply elem_of_nil in Hf as [] | exact Hf].
Qed.

(** X6. A track of popularity 50 or more that is in the dict of unique
    tracks is always in the result, whatever the reference catalog
    returned. *)
Theorem reconcile_keeps_popular (artist : Artist.t) (tracks : list Track.t)
    (itunes_albums itunes_tracks : gset pystr) (t : Track.t) (p : Z) :
  t ∈ dict_values (unique_tracks artist tracks) ->
  Track.popularity t = Some p -> 50 <= p ->
  t ∈ reconcile artist tracks itunes_albums itunes_tracks.
Proof.
  intros Hin Hp Hle. unfold reconcile. rewrite sorted_tracks_perm.
  apply final_tracks_keeps_verified; [exact Hin|].
  eapply is_verified_popular; eassumption.
Qed.

(** X7. Suspect tracks are shown only when nothing at all is verified: as
    soon as one track of the dict is verified, every track of the result
    is. *)
Theorem reconcile_drops_suspects (artist : Artist.t) (tracks : list Track.t)
    (itunes_albums itunes_tracks : gset pystr) (t0 : Track.t) :
  let uts := unique_tracks artist tracks in
  let ids := verified_album_ids itunes_albums itunes_tracks uts in
  t0 ∈ dict_values uts ->
  is_verified itunes_albums itunes_tracks ids t0 = true ->
  forall t, t ∈ reconcile artist tracks itunes_albums itunes_tracks ->
    is_verified itunes_albums itunes_tracks ids t = true.
Proof.
  intros uts ids Hin0 Hv0 t. unfold reconcile. fold uts. rewrite sorted_tracks_perm.
  unfold final_tracks. fold ids.
  assert (Hf : t0 ∈ List.filter (is_verified itunes_albums itunes_tracks ids) (dict_values uts)).
  { apply list_elem_of_In, filter_In. split; [apply list_elem_of_In, Hin0 | exact Hv0]. }
  destruct (List.filter _ (dict_values uts)) as [|y v] eqn:E;
    [apply elem_of_nil in Hf as []|].
  rewrite <- E. intros Ht. apply list_elem_of_In, filter_In in Ht as [_ Ht]. exact Ht.
Qed.

End ReconcileMore.

Lemma reconcile_from_listing_witness :
  exists t0, t0 ∈ [Sample.hysteria; Sample.uprising] /\
             appears Sample.muse t0 = true /\
             Track.set_artists [Sample.muse; Sample.muse] Sample.uprising = visited t0.
Proof.
  apply (reconcile_from_listing Sample.muse [Sample.hysteria; Sample.uprising] ∅ ∅).
  apply list_elem_of_In. vm_compute. auto.
Defined.

Lemma reconcile_keeps_popular_witness :
  Track.set_artists [Sample.muse; Sample.muse] Sample.uprising
  ∈ reconcile Sample.muse [Sample.hysteria; Sample.uprising] {[ u "absolution" ]} ∅.
Proof.
  apply (reconcile_keeps_popular Sample.muse [Sample.hysteria; Sample.uprising]
           {[ u "absolution" ]} ∅ _ 80).
  - apply list_elem_of_In. vm_compute. auto.
  - reflexivity.
  - lia.
Defined.

Lemma reconcile_drops_suspects_witness :
  forallb (is_verified ∅ ∅
             (verified_album_ids ∅ ∅
                (unique_tracks Sample.muse [Sample.unlisted; Sample.hysteria])))
    (reconcile Sample.muse [Sample.unlisted; Sample.hysteria] ∅ ∅) = true.
Proof.
  apply forallb_forall. intros t Ht. apply list_elem_of_In in Ht.
  apply (reconcile_drops_suspects Sample.muse [Sample.unlisted; Sample.hysteria] ∅ ∅
           (visited Sample.hysteria)).
  - apply list_elem_of_In. vm_compute. auto.
  - vm_compute. reflexivity.
  - exact Ht.
Defined.


(* ================================================================== *)
(** * Further properties of downloader.py *)
(* ================================================================== *)

(* ------------------------------------------------------------------ *)
(** ** _sanitize_filename *)
(* ------------------------------------------------------------------ *)

(** X8. A sanitized name holds none of the nine characters the function
    removes, in particular no path separator; sanitizing is idempotent,
    and a name without such a character is left as it is. *)
Theorem sanitize_filename_clean (name : pystr) :
  forallb (fun c => negb (illegal c)) (_sanitize_filename name) = true /\
  _sanitize_filename (_sanitize_filename name) = _sanitize_filename name /\
  (forallb (fun c => negb (illegal c)) name = true -> _sanitize_filename name = name).
Proof.
  unfold _sanitize_filename, illegal.
  split; [apply forallb_filter|]. split; [|apply filter_all].
  apply filter_all, forallb_filter.
Qed.

(* ------------------------------------------------------------------ *)
(** ** Which files a download touches *)
(* ------------------------------------------------------------------ *)

Section Frame.
Context {Q : pystr -> Prop}.

Lemma only_writes_ret {A} (a : A) : only_writes Q (ret a).
Proof. intros fs p _. reflexivity. Qed.

Lemma only_writes_raise {A} (e : exn) : only_writes Q (@raise A e).
Proof. intros fs p _. reflexivity. Qed.

Lemma only_writes_bind {A B} (m : io A) (k : A -> io B) :
  only_writes Q m -> (forall a, only_writes Q (k a)) -> only_writes Q (bind m k).
Proof.
  intros Hm Hk fs p Hp. unfold bind. specialize (Hm fs p Hp).
  destruct (m fs) as [[e|a] fs1]; simpl in *; [exact Hm|].
  rewrite (Hk a fs1 p Hp). exact Hm.
Qed.

Lemma only_writes_for_each {A S} (l : list A) (body : S -> A -> io S) :
  (forall s a, only_writes Q (body s a)) -> forall s, only_writes Q (for_each l body s).
Proof.
  intros Hbody. induction l as [|a l IH]; intros s; simpl.
  - apply only_writes_ret.
  - apply only_writes_bind; [apply Hbody | exact IH].
Qed.

Lemma only_writes_read (p : pystr) : only_writes Q (read p).
Proof. intros fs q _. unfold read. destruct (fs !! p); reflexivity. Qed.

Lemma only_writes_open_wb (p : pystr) : Q p -> only_writes Q (open_wb p).
Proof.
  intros Hp fs q Hq. unfold open_wb. simpl. apply lookup_insert_ne. congruence.
Qed.

Lemma only_writes_write (p : pystr) (data : pybytes) : Q p -> only_writes Q (write p data).
Proof.
  intros Hp fs q Hq. unfold write. simpl. apply lookup_insert_ne. congruence.
Qed.

Lemma only_writes_remove (p : pystr) : Q p -> only_writes Q (os_remove p).
Proof.
  intros Hp fs q Hq. unfold os_remove. destruct (fs !! p); simpl; [|reflexivity].
  apply lookup_delete_ne. congruence.
Qed.

Lemma only_writes_download_file (fetch : pystr -> response) (url dest : pystr) :
  Q dest -> only_writes Q (_download_file fetch url dest).
Proof.
  intros Hd fs q Hq. rewrite download_file_run.
  destruct (fetch url) as [|chunks c]; simpl; [reflexivity|].
  apply lookup_insert_ne. congruence.
Qed.

Lemma only_writes_bind_yields {A B} (P : A -> Prop) (m : io A) (k : A -> io B) :
  only_writes Q m -> yields P m -> (forall a, P a -> only_writes Q (k a)) ->
  only_writes Q (bind m k).
Proof.
  intros Hm Hy Hk fs p Hp. unfold bind. specialize (Hm fs p Hp). specialize (Hy fs).
  destruct (m fs) as [[e|a] fs1]; simpl in *; [exact Hm|].
  rewrite (Hk a (Hy fs1 a eq_refl) fs1 p Hp). exact Hm.
Qed.

Lemma only_writes_for_each_in {A S} (l : list A) (body : S -> A -> io S) :
  (forall s a, a ∈ l -> only_writes Q (body s a)) ->
  forall s, only_writes Q (for_each l body s).
Proof.
  induction l as [|a l IH]; intros Hbody s; simpl.
  - apply only_writes_ret.
  - apply only_writes_bind; [apply Hbody, list_elem_of_here|].
    intros s'. apply IH. intros s0 b Hb. apply Hbody, list_elem_of_further, Hb.
Qed.

End Frame.

Lemma below_join (dir name : pystr) :
  head name <> Some 47%N -> below dir (os_path_join dir name).
Proof. intros Hn. exists name. apply os_path_join_relative, Hn. Qed.

Section FrameOfDownloads.
Variable fetch : pystr -> response.
Variable urljoin : pystr -> pystr -> pystr.
Variable parse_mpd : pybytes -> mpd.
Variable json_urls : pybytes -> exn + option (list pystr).
Variable output_dir : pystr.

Lemma below_init (metadata : Track.t) : below output_dir (init_path output_dir metadata).
Proof. apply below_join, init_name_relative. Qed.

Lemma below_seg (metadata : Track.t) (i : nat) :
  below output_dir (seg_path output_dir metadata i).
Proof. apply below_join, seg_name_relative. Qed.

Lemma below_out (metadata : Track.t) : below output_dir (out_path output_dir metadata).
Proof. apply below_join, sanitize_no_slash. Qed.

Lemma yields_for_each {A S} (I : S -> Prop) (l : list A) (body : S -> A -> io S) :
  (forall s a, I s -> yields I (body s a)) ->
  forall s, I s -> yields I (for_each l body s).
Proof.
  intros Hbody. induction l as [|a l IH]; intros s Hs fs fs' r; simpl.
  - unfold ret. intros [= <- _]. exact Hs.
  - unfold bind. destruct (body s a fs) as [[e|s'] fs1] eqn:E; [discriminate|].
    apply IH. exact (Hbody s a Hs fs fs1 s' E).
Qed.

Lemma fetch_loop_yields (base_url media_template : pystr) (metadata : Track.t)
    (l : list nat) :
  yields (Forall (below output_dir))
    (for_each l
       (fun media_paths i =>
          _download_file fetch (seg_url urljoin base_url media_template i)
            (seg_path output_dir metadata i) ;;;
          ret (media_paths ++ [seg_path output_dir metadata i]))
       []).
Proof.
  apply yields_for_each; [|constructor].
  intros s i Hs fs fs' r. unfold bind.
  destruct (_download_file _ _ _ fs) as [[e|[]] fs1]; [discriminate|].
  unfold ret. intros [= <- _]. apply Forall_app. split; [exact Hs|].
  constructor; [apply below_seg | constructor].
Qed.

Lemma assemble_frame (base_url init_template media_template : pystr)
    (segments : list Z) (metadata : Track.t) :
  only_writes (below output_dir)
    (assemble fetch urljoin output_dir base_url init_template media_template
       segments metadata).
Proof.
  unfold assemble.
  apply only_writes_bind; [apply only_writes_download_file, below_init|]. intros _.
  apply (only_writes_bind_yields (Forall (below output_dir)));
    [|apply fetch_loop_yields|].
  { apply only_writes_for_each. intros s i.
    apply only_writes_bind; [apply only_writes_download_file, below_seg|].
    intros _. apply only_writes_ret. }
  intros media_paths Hpaths. rewrite Forall_forall in Hpaths.
  apply only_writes_bind; [apply only_writes_open_wb, below_out|]. intros _.
  apply only_writes_bind.
  { apply only_writes_bind; [apply only_writes_read|].
    intros data. apply only_writes_write, below_out. }
  intros _.
  apply only_writes_bind.
  { apply only_writes_for_each. intros s mp.
    apply only_writes_bind; [apply only_writes_read|].
    intros data. apply only_writes_write, below_out. }
  intros _.
  apply only_writes_bind; [apply only_writes_remove, below_init|]. intros _.
  apply only_writes_bind; [|intros _; apply only_writes_ret].
  apply only_writes_for_each_in. intros s mp Hmp.
  apply only_writes_remove, Hpaths, Hmp.
Qed.

Lemma download_dash_frame (manifest_xml : pybytes) (metadata : Track.t) :
  only_writes (below output_dir)
    (_download_dash fetch urljoin parse_mpd output_dir manifest_xml metadata).
Proof.
  unfold _download_dash.
  destruct (parse_mpd manifest_xml) as [| | |base_url [[|c1 i1]|] [[|c2 m2]|] timeline];
    try apply only_writes_raise.
  destruct timeline as [timeline|].
  - destruct (expand_timeline timeline); [apply only_writes_raise | apply assemble_frame].
  - apply only_writes_bind; [|intros _; apply only_writes_ret].
    apply only_writes_download_file, below_join, sanitize_no_slash.
Qed.

Lemma download_bts_frame (manifest_bytes : pybytes) (metadata : Track.t) :
  only_writes (below output_dir)
    (_download_bts fetch json_urls output_dir manifest_bytes metadata).
Proof.
  unfold _download_bts.
  destruct (json_urls manifest_bytes) as [e|[[|url urls]|]];
    try apply only_writes_raise.
  apply only_writes_bind; [|intros _; apply only_writes_ret].
  apply only_writes_download_file, below_join, sanitize_no_slash.
Qed.

(** X9. Whatever the manifest and the remote source, and whether it
    returns or raises, a download changes no file outside the output
    directory: every path it writes or removes is the directory prefix
    followed by a name of its own. *)
Theorem download_track_frame (track_id : Z) (manifest_data : option manifest_inner)
    (metadata : Track.t) (fs : gmap pystr pybytes) (p : pystr) :
  ~ below output_dir p ->
  snd (Downloader_download_track fetch urljoin parse_mpd json_urls output_dir
         track_id manifest_data metadata fs) !! p = fs !! p.
Proof.
  revert fs p. change (only_writes (below output_dir)
    (Downloader_download_track fetch urljoin parse_mpd json_urls output_dir
       track_id manifest_data metadata)).
  unfold Downloader_download_track, download_track.
  destruct (manifest_data ≫= manifest) as [[|c s]|]; try apply only_writes_raise.
  destruct (b64decode (c :: s)); [apply only_writes_raise|].
  destruct (bool_decide _); [apply download_bts_frame|].
  destruct (bool_decide _); [apply download_dash_frame | apply only_writes_raise].
Qed.

End FrameOfDownloads.

(* ------------------------------------------------------------------ *)
(** ** How a download fails, and what it asks of the remote source *)
(* ------------------------------------------------------------------ *)

Section Outcomes.
Variable urljoin : pystr -> pystr -> pystr.
Variable parse_mpd : pybytes -> mpd.
Variable json_urls : pybytes -> exn + option (list pystr).
Variable output_dir : pystr.



(** Two sources that serve the same on the URLs of the loop give the same
    loop. *)
Lemma for_each_ext {A S} (l : list A) (body body' : S -> A -> io S) :
  (forall s a fs, a ∈ l -> body s a fs = body' s a fs) ->
  forall s fs, for_each l body s fs = for_each l body' s fs.
Proof.
  induction l as [|a l IH]; intros Hext s fs; [reflexivity|].
  simpl. unfold bind. rewrite Hext by apply list_elem_of_here.
  destruct (body' s a fs) as [[e|s'] fs1]; [reflexivity|].
  apply IH. intros s0 b fs0 Hb. apply Hext, list_elem_of_further, Hb.
Qed.

Lemma download_file_ext (fetch fetch' : pystr -> response) (url dest : pystr)
    (fs : gmap pystr pybytes) :
  fetch url = fetch' url -> _download_file fetch url dest fs = _download_file fetch' url dest fs.
Proof. intros Heq. unfold _download_file. rewrite Heq. reflexivity. Qed.

Lemma bind_ext {A B} (m m' : io A) (k k' : A -> io B) (fs : gmap pystr pybytes) :
  m fs = m' fs -> (forall a fs1, k a fs1 = k' a fs1) -> bind m k fs = bind m' k' fs.
Proof.
  intros Hm Hk. unfold bind. rewrite Hm.
  destruct (m' fs) as [[e|a] fs1]; [reflexivity | apply Hk].
Qed.

(** X11. The assembly asks the remote source for the initialization
    segment and for the media segments 1 to N, and for nothing else: two
    sources that agree on these URLs give the same result and the same
    files. *)
Theorem assemble_requests (fetch fetch' : pystr -> response)
    (base_url init_template media_template : pystr)
    (segments : list Z) (metadata : Track.t) (fs : gmap pystr pybytes) :
  fetch (urljoin base_url init_template) = fetch' (urljoin base_url init_template) ->
  (forall i, (1 <= i <= length segments)%nat ->
     fetch (seg_url urljoin base_url media_template i)
     = fetch' (seg_url urljoin base_url media_template i)) ->
  assemble fetch urljoin output_dir base_url init_template media_template
    segments metadata fs
  = assemble fetch' urljoin output_dir base_url init_template media_template
      segments metadata fs.
Proof using Type.
  clear parse_mpd json_urls. intros Hinit Hsegs. unfold assemble.
  apply bind_ext; [apply download_file_ext, Hinit|]. intros _ fs1.
  apply bind_ext; [|reflexivity].
  apply for_each_ext. intros s i fs0 Hi. apply list_elem_of_In, in_seq in Hi.
  apply bind_ext; [|reflexivity]. apply download_file_ext, Hsegs. lia.
Qed.

End Outcomes.



(* ------------------------------------------------------------------ *)
(** ** _download_bts *)
(* ------------------------------------------------------------------ *)

(** X12. A direct-URL manifest without URLs is refused before anything is
    written.  Otherwise only the first URL counts: when it is served
    completely, the download returns the output path and the file system
    is the old one with the served bytes at that path; when the request
    fails, the file system is as it was. *)
Theorem download_bts_result (fetch : pystr -> response)
    (json_urls : pybytes -> exn + option (list pystr)) (output_dir : pystr)
    (manifest_bytes : pybytes) (metadata : Track.t) (fs : gmap pystr pybytes) :
  let path :=
    os_path_join output_dir
      (_sanitize_filename
         (artist_names metadata ++ u " - " ++ Track.title metadata ++ u ".flac")) in
  let run := _download_bts fetch json_urls output_dir manifest_bytes metadata fs in
  (json_urls manifest_bytes = inr None \/ json_urls manifest_bytes = inr (Some []) ->
     run = (inl (ValueError (u "No URLs found in BTS manifest")), fs)) /\
  (forall url urls data,
     json_urls manifest_bytes = inr (Some (url :: urls)) ->
     body (fetch url) = Some data ->
     run = (inr path, <[path := data]> fs)) /\
  (forall url urls,
     json_urls manifest_bytes = inr (Some (url :: urls)) ->
     fetch url = NoResponse ->
     run = (inl RequestException, fs)).
Proof.
  intros path run. unfold run, _download_bts. split; [|split].
  - intros [-> | ->]; reflexivity.
  - intros url urls data -> Hbody. fold path.
    rewrite (bind_ok _ _ fs (<[path := data]> fs) tt); [reflexivity|].
    apply download_file_ok, Hbody.
  - intros url urls -> Hno. fold path. apply bind_raise.
    rewrite download_file_run, Hno. reflexivity.
Qed.

(* ================================================================== *)
(** * Properties of api.py *)
(* ================================================================== *)

Section GetFacts.
Context {data : Type}.
Variable respond : nat -> option data.

Lemma backoff_sum (k : nat) : fold_right Z.add 0 (backoff 0 k) = 2 ^ Z.of_nat k - 1.
Proof.
  unfold backoff. induction k as [|k IH]; [reflexivity|].
  rewrite seq_S, map_app, fold_right_app. simpl.
  assert (Hgen : forall (l : list Z) (z : Z),
            fold_right Z.add z l = fold_right Z.add 0 l + z).
  { induction l as [|x l IHl]; intros z; simpl; [lia | rewrite IHl; lia]. }
  rewrite Hgen, IH, Nat2Z.inj_succ, Z.pow_succ_r by lia. lia.
Qed.

Lemma get_from_S (retries : Z) (attempt left : nat) :
  _get_from respond retries attempt (S left) =
  match respond attempt with
  | Some d => {| get_result := inr (Some d); get_requests := 1; get_sleeps := [] |}
  | None =>
      if Z.of_nat attempt =? retries - 1
      then {| get_result := inl ApiRequestException; get_requests := 1; get_sleeps := [] |}
      else
        let run := _get_from respond retries (S attempt) left in
        {| get_result := get_result run;
           get_requests := S (get_requests run);
           get_sleeps := 2 ^ Z.of_nat attempt :: get_sleeps run |}
  end.
Proof. reflexivity. Qed.

Lemma get_from_success (retries : Z) (k : nat) (d : data) :
  forall a left,
    (k < left)%nat -> Z.of_nat (a + k) < retries ->
    (forall j, (j < k)%nat -> respond (a + j) = None) ->
    respond (a + k) = Some d ->
    _get_from respond retries a left =
    {| get_result := inr (Some d); get_requests := S k; get_sleeps := backoff a k |}.
Proof.
  induction k as [|k IH]; intros a left Hleft Hret Hfail Hok.
  - destruct left as [|left]; [lia|]. simpl.
    rewrite Nat.add_0_r in Hok. rewrite Hok. reflexivity.
  - destruct left as [|left]; [lia|]. simpl.
    pose proof (Hfail 0%nat ltac:(lia)) as H0. rewrite Nat.add_0_r in H0. rewrite H0.
    destruct (Z.of_nat a =? retries - 1) eqn:E; [lia|].
    rewrite (IH (S a) left).
    + reflexivity.
    + lia.
    + lia.
    + intros j Hj. replace (S a + j)%nat with (a + S j)%nat by lia. apply Hfail. lia.
    + replace (S a + k)%nat with (a + S k)%nat by lia. exact Hok.
Qed.

Lemma get_from_failure (retries : Z) (n : nat) :
  forall a,
    Z.of_nat (a + n) = retries - 1 ->
    (forall j, (j <= n)%nat -> respond (a + j) = None) ->
    _get_from respond retries a (S n) =
    {| get_result := inl ApiRequestException; get_requests := S n;
       get_sleeps := backoff a n |}.
Proof.
  induction n as [|n IH]; intros a Hret Hfail.
  - simpl. pose proof (Hfail 0%nat ltac:(lia)) as H0. rewrite Nat.add_0_r in H0. rewrite H0.
    destruct (Z.of_nat a =? retries - 1) eqn:E; [reflexivity | lia].
  - rewrite get_from_S.
    pose proof (Hfail 0%nat ltac:(lia)) as H0. rewrite Nat.add_0_r in H0. rewrite H0.
    destruct (Z.of_nat a =? retries - 1) eqn:E; [lia|].
    cbv zeta. rewrite (IH (S a)).
    + reflexivity.
    + lia.
    + intros j Hj. replace (S a + j)%nat with (a + S j)%nat by lia. apply Hfail. lia.
Qed.

(** X13. [_get] returns the first response that comes through, having
    made one request more than there were failures and slept 1, 2, 4, ...
    seconds between them (2^k - 1 in all after k failures).  When all of
    its [retries] requests fail it raises, having slept 2^(retries-1) - 1
    seconds and not after the last failure.  With [retries] at most 0 it
    makes no request and returns [None]. *)
Theorem get_retries (retries : Z) :
  (retries <= 0 ->
     _get respond retries =
     {| get_result := inr None; get_requests := 0; get_sleeps := [] |}) /\
  (forall k d,
     Z.of_nat k < retries -> (forall j, (j < k)%nat -> respond j = None) ->
     respond k = Some d ->
     _get respond retries =
     {| get_result := inr (Some d); get_requests := S k; get_sleeps := backoff 0 k |} /\
     fold_right Z.add 0 (backoff 0 k) = 2 ^ Z.of_nat k - 1) /\
  (0 < retries -> (forall j, Z.of_nat j < retries -> respond j = None) ->
     _get respond retries =
     {| get_result := inl ApiRequestException;
        get_requests := Z.to_nat retries;
        get_sleeps := backoff 0 (Z.to_nat retries - 1) |} /\
     fold_right Z.add 0 (backoff 0 (Z.to_nat retries - 1)) = 2 ^ (retries - 1) - 1).
Proof.
  unfold _get. split; [|split].
  - intros Hle. replace (Z.to_nat retries) with O by lia. reflexivity.
  - intros k d Hk Hfail Hok. split; [|apply backoff_sum].
    apply (get_from_success retries k d 0); auto; lia.
  - intros Hpos Hfail. split.
    + replace (Z.to_nat retries) with (S (Z.to_nat retries - 1)) at 1 2 by lia.
      replace (S (Z.to_nat retries - 1) - 1)%nat with (Z.to_nat retries - 1)%nat by lia.
      apply (get_from_failure retries (Z.to_nat retries - 1) 0); [lia|].
      intros j Hj. apply Hfail. lia.
    + rewrite backoff_sum. f_equal. f_equal. lia.
Qed.

End GetFacts.

Section ManifestFacts.
Variable get_base : pystr -> api_exn + option (option manifest_inner).

Lemma has_manifest_payload (inner : option manifest_inner) :
  has_manifest inner = true ->
  exists payload, inner ≫= manifest = Some payload /\ payload <> [].
Proof.
  unfold has_manifest. destruct (inner ≫= manifest) as [[|c payload]|]; try discriminate.
  intros _. exists (c :: payload). split; [reflexivity | discriminate].
Qed.

Lemma download_track_routes (fetch : pystr -> response) (urljoin : pystr -> pystr -> pystr)
    (parse_mpd : pybytes -> mpd) (output_dir : pystr)
    (bts : pybytes -> Track.t -> io pystr) (track_id : Z)
    (inner : option manifest_inner) (payload : pystr) (metadata : Track.t) :
  inner ≫= manifest = Some payload -> payload <> [] ->
  download_track fetch urljoin parse_mpd output_dir bts track_id inner metadata =
  decode_and_route bts (_download_dash fetch urljoin parse_mpd output_dir)
    (inner ≫= manifestMimeType) payload metadata.
Proof.
  intros Hm Hne. unfold download_track, decode_and_route. rewrite Hm.
  destruct payload as [|c payload]; [congruence | reflexivity].
Qed.

(** X14. What [get_track_manifest] returns is the answer of the first
    address that has a manifest, every address before it having failed or
    answered without one; its payload is present and non-empty, so
    [download_track] never refuses it as empty and goes on to decode it.
    When every address is passed over, the error raised is the generic
    one, whatever the requests failed with. *)
Theorem get_track_manifest_usable (track_id : Z) (quality : pystr) (bases : list pystr) :
  (forall inner,
     get_track_manifest_from get_base track_id quality bases = inr inner ->
     (exists skipped base rest,
        bases = skipped ++ base :: rest /\
        Forall (passed_over get_base) skipped /\
        get_base base = inr (Some inner)) /\
     exists payload,
       inner ≫= manifest = Some payload /\ payload <> [] /\
       forall fetch urljoin parse_mpd output_dir bts tid metadata,
         download_track fetch urljoin parse_mpd output_dir bts tid inner metadata =
         decode_and_route bts (_download_dash fetch urljoin parse_mpd output_dir)
           (inner ≫= manifestMimeType) payload metadata) /\
  (Forall (passed_over get_base) bases ->
     get_track_manifest_from get_base track_id quality bases =
     inl (ApiException
            (u "Could not fetch a valid manifest for track " ++ str_int track_id
             ++ u " with quality " ++ quality))).
Proof.
  split.
  - induction bases as [|base rest IH]; intros inner Hres; [discriminate|].
    cbn [get_track_manifest_from] in Hres.
    assert (Hlater : get_track_manifest_from get_base track_id quality rest = inr inner ->
                     passed_over get_base base ->
                     (exists skipped base0 rest0,
                        base :: rest = skipped ++ base0 :: rest0 /\
                        Forall (passed_over get_base) skipped /\
                        get_base base0 = inr (Some inner)) /\
                     exists payload,
                       inner ≫= manifest = Some payload /\ payload <> [] /\
                       forall fetch urljoin parse_mpd output_dir bts tid metadata,
                         download_track fetch urljoin parse_mpd output_dir bts tid inner metadata =
                         decode_and_route bts (_download_dash fetch urljoin parse_mpd output_dir)
                           (inner ≫= manifestMimeType) payload metadata).
    { intros Hrest Hpass. destruct (IH inner Hrest) as [(sk & b & r & -> & Hsk & Hb) Hpay].
      split; [|exact Hpay].
      exists (base :: sk), b, r. split; [reflexivity|]. split; [|exact Hb].
      constructor; assumption. }
    destruct (get_base base) as [[| |msg]|[inner0|]] eqn:Hbase; try discriminate.
    + apply Hlater; [exact Hres | left; exact Hbase].
    + destruct (has_manifest inner0) eqn:Hman.
      * injection Hres as <-. split.
        -- exists [], base, rest. split; [reflexivity|]. split; [constructor | exact Hbase].
        -- destruct (has_manifest_payload _ Hman) as (payload & Hp & Hne).
           exists payload. split; [exact Hp|]. split; [exact Hne|].
           intros. apply download_track_routes; assumption.
      * apply Hlater; [exact Hres|]. right. exists inner0. split; [exact Hbase | exact Hman].
  - induction 1 as [|base rest Hpass _ IH]; [reflexivity|].
    cbn [get_track_manifest_from].
    destruct Hpass as [-> | (inner0 & -> & ->)]; exact IH.
Qed.

End ManifestFacts.

(* ------------------------------------------------------------------ *)
(** ** The properties on the sample data *)
(* ------------------------------------------------------------------ *)

Lemma download_track_frame_witness :
  snd (Downloader_download_track Sample.fetch Sample.urljoin Sample.parse_mpd
         SampleMore.json_urls Sample.output_dir 1 SampleMore.dash_manifest
         Sample.uprising (<[u "notes.txt" := [1%N]]> ∅)) !! u "notes.txt"
  = (<[u "notes.txt" := [1%N]]> ∅ : gmap pystr pybytes) !! u "notes.txt".
Proof.
  apply download_track_frame.
  intros [name Hname]. vm_compute in Hname. discriminate.
Defined.

Lemma assemble_requests_witness :
  assemble Sample.fetch Sample.urljoin Sample.output_dir (u "http://cdn/")
    (u "init.mp4") (u "seg_$Number$.m4s") [4; 4] Sample.uprising ∅
  = assemble SampleMore.fetch_more Sample.urljoin Sample.output_dir (u "http://cdn/")
      (u "init.mp4") (u "seg_$Number$.m4s") [4; 4] Sample.uprising ∅.
Proof.
  apply assemble_requests.
  - reflexivity.
  - intros i Hi. assert (Hcases : i = 1%nat \/ i = 2%nat) by (simpl in Hi; lia).
    destruct Hcases as [-> | ->]; vm_compute; reflexivity.
Defined.

Example get_track_manifest_sample :
  get_track_manifest SampleMore.get_base 1 (u "LOSSLESS") = inr SampleMore.dash_manifest.
Proof. reflexivity. Qed.

(* ================================================================== *)
(** * Properties of metadata.py *)
(* ================================================================== *)

(** Replacing one character by nothing is filtering it out. *)
Lemma str_replace_char_empty (c : N) (s : pystr) :
  str_replace [c] [] s = List.filter (fun x => negb (c =? x)%N) s.
Proof.
  unfold str_replace. induction s as [|x s IH]; [reflexivity|].
  cbn [str_replace_from is_prefix length Nat.pred List.filter].
  rewrite andb_true_r. destruct (c =? x)%N; simpl; rewrite IH; reflexivity.
Qed.

Lemma filter_absent (c : N) (s : pystr) :
  c ∉ s -> List.filter (fun x => negb (c =? x)%N) s = s.
Proof.
  induction s as [|x s IH]; [reflexivity|]. intros Hc.
  apply not_elem_of_cons in Hc as [Hne Hc]. simpl.
  destruct (c =? x)%N eqn:E; [apply N.eqb_eq in E; congruence|].
  simpl. rewrite IH by exact Hc. reflexivity.
Qed.

Lemma str_slice_app (a b : nat) (l1 l2 l3 : pystr) :
  length l1 = a -> length l2 = (b - a)%nat -> str_slice a b (l1 ++ l2 ++ l3) = l2.
Proof.
  intros H1 H2. unfold str_slice.
  rewrite drop_app_length' by (symmetry; exact H1).
  apply take_app_length'. symmetry. exact H2.
Qed.

(** X15. For an identifier in the canonical form of five groups of 8, 4,
    4, 4 and 12 characters separated by hyphens, the cover is asked for at
    the path made of the five groups separated by slashes, and the same
    address is asked for when the identifier comes without its hyphens.
    An identifier that does not have 32 characters besides its hyphens
    leads to no request at all. *)
Theorem cover_url_canonical (g1 g2 g3 g4 g5 : pystr) :
  length g1 = 8%nat -> length g2 = 4%nat -> length g3 = 4%nat ->
  length g4 = 4%nat -> length g5 = 12%nat ->
  45%N ∉ g1 ++ g2 ++ g3 ++ g4 ++ g5 ->
  let url :=
    u "https://resources.tidal.com/images/"
    ++ str_join (u "/") [g1; g2; g3; g4; g5] ++ u "/1280x1280.jpg" in
  cover_url (str_join (u "-") [g1; g2; g3; g4; g5]) = Some url /\
  cover_url (g1 ++ g2 ++ g3 ++ g4 ++ g5) = Some url /\
  forall (session_get : pystr -> option pybytes) (s : pystr),
    length (List.filter (fun x => negb (45 =? x)%N) s) <> 32%nat ->
    cover_url s = None /\ download_cover session_get s = None.
Proof.
  intros H1 H2 H3 H4 H5 Hno url.
  assert (Hclean : forall s, s <> [] ->
            List.filter (fun x => negb (45 =? x)%N) s = g1 ++ g2 ++ g3 ++ g4 ++ g5 ->
            cover_url s = Some url).
  { intros s Hs Hf. unfold cover_url. destruct s as [|c s]; [congruence|].
    change (u "-") with [45%N]. rewrite str_replace_char_empty, Hf.
    rewrite !length_app, H1, H2, H3, H4, H5. cbn [Nat.add Nat.eqb negb].
    assert (S1 : str_slice 0 8 (g1 ++ g2 ++ g3 ++ g4 ++ g5) = g1)
      by (apply (str_slice_app 0 8 []); [reflexivity | exact H1]).
    assert (S2 : str_slice 8 12 (g1 ++ g2 ++ g3 ++ g4 ++ g5) = g2)
      by (apply (str_slice_app 8 12); assumption).
    assert (S3 : str_slice 12 16 (g1 ++ g2 ++ g3 ++ g4 ++ g5) = g3).
    { rewrite (app_assoc g1 g2). apply (str_slice_app 12 16); [|assumption].
      rewrite length_app. lia. }
    assert (S4 : str_slice 16 20 (g1 ++ g2 ++ g3 ++ g4 ++ g5) = g4).
    { rewrite (app_assoc g1 g2), (app_assoc (g1 ++ g2) g3).
      apply (str_slice_app 16 20); [|assumption]. rewrite !length_app. lia. }
    assert (S5 : str_slice 20 32 (g1 ++ g2 ++ g3 ++ g4 ++ g5) = g5).
    { rewrite (app_assoc g1 g2), (app_assoc (g1 ++ g2) g3),
        (app_assoc ((g1 ++ g2) ++ g3) g4).
      rewrite <- (app_nil_r g5) at 1.
      apply (str_slice_app 20 32); [|assumption]. rewrite !length_app. lia. }
    rewrite S1, S2, S3, S4, S5. reflexivity. }
  assert (Hparts : (45%N ∉ g1) /\ (45%N ∉ g2) /\ (45%N ∉ g3) /\ (45%N ∉ g4) /\ (45%N ∉ g5)).
  { rewrite !not_elem_of_app in Hno. tauto. }
  destruct Hparts as (N1 & N2 & N3 & N4 & N5).
  split; [|split].
  - apply Hclean.
    + destruct g1; [discriminate | discriminate].
    + cbn [str_join]. change (u "-") with [45%N].
      rewrite !List.filter_app, (filter_absent 45 g1 N1), (filter_absent 45 g2 N2),
        (filter_absent 45 g3 N3), (filter_absent 45 g4 N4), (filter_absent 45 g5 N5).
      reflexivity.
  - apply Hclean.
    + destruct g1; [discriminate | discriminate].
    + apply filter_absent, Hno.
  - intros session_get s Hlen.
    assert (Hnone : cover_url s = None).
    { unfold cover_url. destruct s as [|c s]; [reflexivity|].
      change (u "-") with [45%N]. rewrite str_replace_char_empty.
      destruct (Nat.eqb_spec (length (List.filter (fun x => negb (45 =? x)%N) (c :: s))) 32);
        [contradiction | reflexivity]. }
    split; [exact Hnone|]. unfold download_cover. rewrite Hnone. reflexivity.
Qed.

Lemma cover_url_canonical_witness :
  let url := u "https://resources.tidal.com/images/0dfd3368/3aa1/49a3/935f/10ffb39803c0/1280x1280.jpg" in
  cover_url (u "0dfd3368-3aa1-49a3-935f-10ffb39803c0") = Some url /\
  cover_url (u "0dfd33683aa149a3935f10ffb39803c0") = Some url.
Proof.
  destruct (cover_url_canonical (u "0dfd3368") (u "3aa1") (u "49a3") (u "935f")
              (u "10ffb39803c0")) as (Hhyphens & Hplain & _);
    try reflexivity.
  - intros Hin. apply list_elem_of_In in Hin. vm_compute in Hin. intuition discriminate.
  - split; [exact Hhyphens | exact Hplain].
Defined.

(* ------------------------------------------------------------------ *)
(** ** write_flac *)
(* ------------------------------------------------------------------ *)

Lemma dict_get_set {K V} `{EqDecision K} (k k' : K) (v : V) (d : list (K * V)) :
  dict_get k (dict_set k' v d) = if decide (k' = k) then Some v else dict_get k d.
Proof.
  induction d as [|[k0 v0] d IH]; simpl.
  - destruct (decide (k' = k)); reflexivity.
  - destruct (decide (k0 = k')) as [->|Hne]; simpl.
    + destruct (decide (k' = k)); reflexivity.
    + destruct (decide (k0 = k)) as [->|Hne'].
      * destruct (decide (k' = k)); [congruence | reflexivity].
      * exact IH.
Qed.

Lemma dict_get_put_same (k : string) (v : option pystr) (d : list (pystr * pystr)) :
  dict_get (u k) (put k v d) = match v with Some v => Some v | None => dict_get (u k) d end.
Proof.
  destruct v as [v|]; simpl; [|reflexivity].
  rewrite dict_get_set. destruct (decide (u k = u k)); [reflexivity | congruence].
Qed.

Lemma dict_get_put_other (k : pystr) (k' : string) (v : option pystr)
    (d : list (pystr * pystr)) :
  bool_decide (u k' = k) = false -> dict_get k (put k' v d) = dict_get k d.
Proof.
  intros Hne. apply bool_decide_eq_false in Hne.
  destruct v as [v|]; simpl; [|reflexivity].
  rewrite dict_get_set. destruct (decide (u k' = k)); [contradiction | reflexivity].
Qed.

Ltac get_put :=
  repeat first [ rewrite dict_get_put_other by (vm_compute; reflexivity)
               | rewrite dict_get_put_same ].

Lemma Forall_dict_set {K V} `{EqDecision K} (P : K * V -> Prop) (k : K) (v : V)
    (d : list (K * V)) :
  P (k, v) -> Forall P d -> Forall P (dict_set k v d).
Proof.
  intros Hkv. induction 1 as [|[k0 v0] d Hx Hd IH]; simpl.
  - constructor; [exact Hkv | constructor].
  - destruct (decide (k0 = k)); constructor; assumption.
Qed.

Lemma tags_ok_put (k : string) (v : option pystr) (d : list (pystr * pystr)) :
  (forall x, v = Some x -> x <> []) -> tags_ok d -> tags_ok (put k v d).
Proof.
  intros Hv [Hnd Hall]. destruct v as [v|]; [|split; assumption]. simpl. split.
  - rewrite dict_keys_set. destruct (decide (u k ∈ dict_keys d)) as [Hin|Hout]; [exact Hnd|].
    apply NoDup_app. split; [exact Hnd|]. split; [|apply NoDup_singleton].
    intros x Hx Hx'. apply list_elem_of_singleton in Hx'. congruence.
  - apply Forall_dict_set; [|exact Hall]. simpl. apply Hv. reflexivity.
Qed.

Lemma when_truthy_nonempty (s : option pystr) (x : pystr) :
  when_truthy s = Some x -> x <> [] /\ s = Some x.
Proof.
  destruct s as [[|c s]|]; simpl; try discriminate.
  intros [= <-]. split; [discriminate | reflexivity].
Qed.

Lemma uint_codes_nonempty (d : Decimal.uint) : d <> Decimal.Nil -> uint_codes d <> [].
Proof. destruct d; simpl; intros Hd; try discriminate. congruence. Qed.

Lemma str_int_nonempty (z : Z) : str_int z <> [].
Proof.
  unfold str_int. destruct z as [|p|p]; simpl; try discriminate.
  apply uint_codes_nonempty, DecimalPos.Unsigned.to_uint_nonnil.
Qed.

Lemma str_join_nonempty (sep : pystr) (l : list pystr) :
  l <> [] -> Forall (fun s => s <> []) l -> str_join sep l <> [].
Proof.
  destruct l as [|a l]; [congruence|]. intros _ Hall.
  apply Forall_cons in Hall as [Ha _].
  destruct a as [|c a]; [congruence|]. destruct l; simpl; discriminate.
Qed.

(** X16. The tags [write_flac] saves have one value per key and no empty
    value; DATE and YEAR are written together and hold the same text, the
    first four characters of the release date, or of the stream start
    date when the release date is missing or empty.  A file that cannot
    be opened is left alone, and the tags saved do not depend on the tags
    the file had. *)
Theorem write_flac_tags_wf (metadata : Track.t) :
  let tags := write_flac_tags metadata in
  NoDup (dict_keys tags) /\
  (forall k v, (k, v) ∈ tags -> v <> []) /\
  dict_get (u "DATE") tags = dict_get (u "YEAR") tags /\
  (forall y, dict_get (u "YEAR") tags = Some y ->
     (length y <= 4)%nat /\
     exists d, y = take 4 d /\
       (when_truthy (Track.releaseDate metadata) = Some d \/
        (when_truthy (Track.releaseDate metadata) = None /\
         when_truthy (Track.streamStartDate metadata) = Some d))) /\
  write_flac None metadata None = None /\
  forall audio cover_data,
    flac_tags <$> write_flac (Some audio) metadata cover_data = Some tags.
Proof.
  intros tags.
  assert (Hok : tags_ok tags).
  { unfold tags, write_flac_tags. cbv zeta.
    repeat (apply tags_ok_put;
            [intros x Hx;
             try (apply when_truthy_nonempty in Hx; exact (proj1 Hx)) |]).
    - destruct (Track.bpm metadata); [|discriminate].
      injection Hx as <-. apply str_int_nonempty.
    - destruct (Track.trackNumber metadata); [|discriminate].
      injection Hx as <-. apply str_int_nonempty.
    - destruct (List.filter nonempty _) as [|a l] eqn:Hf; [discriminate|].
      injection Hx as <-. apply (str_join_nonempty (u ", ") (a :: l)); [discriminate|].
      rewrite <- Hf. apply Forall_forall. intros s Hs.
      apply list_elem_of_In, filter_In in Hs as [_ Hs].
      unfold nonempty in Hs. apply negb_true_iff, bool_decide_eq_false in Hs. exact Hs.
    - split; [constructor | constructor]. }
  destruct Hok as [Hnd Hall].
  assert (Hyear : dict_get (u "YEAR") tags = when_truthy (flac_year metadata) /\
                  dict_get (u "DATE") tags = when_truthy (flac_year metadata)).
  { unfold tags, write_flac_tags. cbv zeta.
    split; get_put; destruct (when_truthy (flac_year metadata)); reflexivity. }
  destruct Hyear as [HY HD].
  split; [exact Hnd|]. split.
  { intros k v Hkv. rewrite Forall_forall in Hall. apply (Hall (k, v)), Hkv. }
  split; [congruence|]. split.
  { intros y Hy. rewrite HY in Hy. apply when_truthy_nonempty in Hy as [_ Hy].
    unfold flac_year in Hy.
    destruct (when_truthy (Track.releaseDate metadata)) as [d|] eqn:Hr.
    - injection Hy as <-. split; [rewrite length_take; lia|].
      exists d. split; [reflexivity | left; reflexivity].
    - destruct (when_truthy (Track.streamStartDate metadata)) as [d|] eqn:Hs;
        [|discriminate].
      injection Hy as <-. split; [rewrite length_take; lia|].
      exists d. split; [reflexivity | right; split; reflexivity]. }
  split; reflexivity.
Qed.

(* ================================================================== *)
(** * Properties of cli.py: the choice and the tables *)
(* ================================================================== *)

Lemma py_range_nil (a b : Z) : b <= a -> py_range a b = [].
Proof. intros Hle. unfold py_range. replace (Z.to_nat (b - a)) with O by lia. reflexivity. Qed.

Lemma py_range_cons (a b : Z) : a < b -> py_range a b = a :: py_range (a + 1) b.
Proof.
  intros Hlt. unfold py_range.
  replace (Z.to_nat (b - a)) with (S (Z.to_nat (b - (a + 1)))) by lia.
  cbn [seq map]. f_equal; [lia|].
  rewrite <- seq_shift, map_map. apply map_ext. intros k. lia.
Qed.

Section ParseChoiceFacts.
Context `{UnicodeData} {A : Type}.
Variable py_int : pystr -> option Z.

Lemma pick_elem (items : list A) (idx : Z) (x : A) : x ∈ pick items idx -> x ∈ items.
Proof.
  unfold pick. destruct (_ && _); [|intros Hx; apply elem_of_nil in Hx as []].
  destruct (items !! Z.to_nat idx) as [y|] eqn:Hy; [|intros Hx; apply elem_of_nil in Hx as []].
  intros Hx. apply list_elem_of_singleton in Hx as ->.
  apply (list_elem_of_lookup_2 _ _ _ Hy).
Qed.

Lemma pick_range (items : list A) (n : nat) :
  forall a b, Z.to_nat (b - a) = n ->
    flat_map (pick items) (py_range a b) =
    take (Z.to_nat b - Z.to_nat a) (drop (Z.to_nat a) items).
Proof.
  induction n as [|n IH]; intros a b Hn.
  - rewrite py_range_nil by lia. replace (Z.to_nat b - Z.to_nat a)%nat with O by lia.
    reflexivity.
  - rewrite py_range_cons by lia. cbn [flat_map]. rewrite (IH (a + 1) b) by lia.
    unfold pick. destruct (0 <=? a) eqn:H0; cbn [andb].
    + destruct (a <? Z.of_nat (length items)) eqn:Hlen.
      * destruct (items !! Z.to_nat a) as [x|] eqn:Hx.
        -- rewrite (drop_S _ _ _ Hx).
           replace (Z.to_nat b - Z.to_nat a)%nat
             with (S (Z.to_nat b - Z.to_nat (a + 1))) by lia.
           replace (Z.to_nat (a + 1)) with (S (Z.to_nat a)) by lia. reflexivity.
        -- apply lookup_ge_None in Hx. lia.
      * rewrite !drop_ge by lia. rewrite !take_nil. reflexivity.
    + replace (Z.to_nat (a + 1)) with O by lia. replace (Z.to_nat a) with O by lia.
      reflexivity.
Qed.

Lemma parse_part_elem (items : list A) (part : pystr) (sel : list A) (x : A) :
  parse_part py_int items part = Some sel -> x ∈ sel -> x ∈ items.
Proof.
  unfold parse_part. destruct (bool_decide _).
  - destruct (str_split 45 (py_strip part)) as [|a [|b [|c l]]]; try discriminate.
    destruct (py_int a) as [start|]; [|discriminate].
    destruct (py_int b) as [end_|]; [|discriminate].
    intros [= <-] Hx. apply list_elem_of_In, in_flat_map in Hx as (idx & _ & Hx).
    apply (pick_elem items idx), list_elem_of_In, Hx.
  - destruct (py_int (py_strip part)) as [n|]; [|discriminate].
    intros [= <-]. apply pick_elem.
Qed.

Lemma parse_parts_elem (items : list A) (parts : list pystr) :
  forall selected sel,
    parse_parts py_int items parts selected = Some sel ->
    (forall x, x ∈ selected -> x ∈ items) ->
    forall x, x ∈ sel -> x ∈ items.
Proof.
  induction parts as [|part rest IH]; intros selected sel; simpl.
  - intros [= <-] Hsel. exact Hsel.
  - destruct (parse_part py_int items part) as [s|] eqn:Hpart; [|discriminate].
    intros Hrest Hsel. apply (IH _ _ Hrest).
    intros x Hx. apply elem_of_app in Hx as [Hx|Hx]; [apply Hsel, Hx|].
    apply (parse_part_elem items part s x Hpart Hx).
Qed.

(** X17. A part [start-end] of a choice selects the slice
    [items[max(start-1, 0) : max(end, 0)]]: the positions outside the
    list are passed over, they are no error.  Whatever the choice, when
    [_parse_choice] returns, everything it selected is an item of the
    list. *)
Theorem parse_choice_selects (items : list A) :
  (forall start end_,
     flat_map (pick items) (py_range (start - 1) end_) =
     take (Z.to_nat end_ - Z.to_nat (start - 1)) (drop (Z.to_nat (start - 1)) items)) /\
  (forall choice sel,
     _parse_choice py_int choice items = Some sel ->
     forall x, x ∈ sel -> x ∈ items).
Proof.
  split.
  - intros start end_. apply (pick_range items _ _ _ eq_refl).
  - intros choice sel Hsel. apply (parse_parts_elem _ _ _ _ Hsel).
    intros x Hx. apply elem_of_nil in Hx as [].
Qed.

End ParseChoiceFacts.

Section FormatArtistsFacts.
Variable py_upper : pystr -> pystr.

Lemma format_inv_step (names : list pystr) (st : gset pystr * list pystr) (name : pystr) :
  format_inv py_upper names st -> format_inv py_upper (names ++ [name]) (format_artists_step py_upper st name).
Proof.
  destruct st as [seen l]. intros (Hseen & Hnd & Hsub & Hall). simpl in *.
  assert (Hold : forall n, n ∈ l -> n ∈ names ++ [name] /\ n <> []).
  { intros n Hn. destruct (Hsub n Hn) as [Hin Hne]. split; [|exact Hne].
    apply elem_of_app. left. exact Hin. }
  unfold format_artists_step, nonempty.
  destruct (bool_decide (name = [])) eqn:Hempty; cbn [negb].
  - apply bool_decide_eq_true in Hempty as ->.
    split; [exact Hseen|]. split; [exact Hnd|]. split; [exact Hold|].
    intros n Hn Hne. apply elem_of_app in Hn as [Hn|Hn]; [apply Hall; assumption|].
    apply list_elem_of_singleton in Hn. congruence.
  - apply bool_decide_eq_false in Hempty.
    destruct (bool_decide (py_upper name ∈ seen)) eqn:Hdup.
    + apply bool_decide_eq_true in Hdup.
      split; [exact Hseen|]. split; [exact Hnd|]. split; [exact Hold|].
      intros n Hn Hne. apply elem_of_app in Hn as [Hn|Hn]; [apply Hall; assumption|].
      apply list_elem_of_singleton in Hn as ->. exact Hdup.
    + apply bool_decide_eq_false in Hdup. unfold format_inv. cbn [fst snd].
      split; [|split; [|split]].
      * intros k. rewrite map_app, elem_of_app, elem_of_union, elem_of_singleton.
        simpl. rewrite list_elem_of_singleton, (Hseen k). tauto.
      * rewrite map_app. apply NoDup_app. split; [exact Hnd|].
        split; [|apply NoDup_singleton].
        intros k Hk Hk'. apply list_elem_of_singleton in Hk' as ->.
        apply Hdup, Hseen, Hk.
      * intros n Hn. apply elem_of_app in Hn as [Hn|Hn]; [apply Hold, Hn|].
        apply list_elem_of_singleton in Hn as ->. split; [|exact Hempty].
        apply elem_of_app. right. apply list_elem_of_here.
      * intros n Hn Hne. apply elem_of_union.
        apply elem_of_app in Hn as [Hn|Hn]; [right; apply Hall; assumption|].
        apply list_elem_of_singleton in Hn as ->. left. apply elem_of_singleton. reflexivity.
Qed.

Lemma format_inv_fold (names : list pystr) :
  forall done st, format_inv py_upper done st ->
    format_inv py_upper (done ++ names) (fold_left (format_artists_step py_upper) names st).
Proof.
  induction names as [|name names IH]; intros done st Hinv; simpl.
  - rewrite app_nil_r. exact Hinv.
  - replace (done ++ name :: names) with ((done ++ [name]) ++ names)
      by (rewrite <- app_assoc; reflexivity).
    apply IH, format_inv_step, Hinv.
Qed.

(** X18. The names [format_artists] shows are names of the entries, none
    of them empty, pairwise different even when the case is ignored, and
    every non-empty name of the entries is there up to case; at most
    three of them are printed, followed by an ellipsis exactly when there
    are more. *)
Theorem format_artists_distinct (names : list pystr) :
  let shown := format_artists_list py_upper names in
  NoDup (map py_upper shown) /\
  (forall n, n ∈ shown -> n ∈ names /\ n <> []) /\
  (forall n, n ∈ names -> n <> [] -> py_upper n ∈ map py_upper shown) /\
  ((length shown <= 3)%nat -> format_artists py_upper names = str_join (u ", ") shown) /\
  ((3 < length shown)%nat ->
     format_artists py_upper names = str_join (u ", ") (take 3 shown) ++ u "...").
Proof.
  intros shown.
  destruct (format_inv_fold names [] (∅, [])) as (Hseen & Hnd & Hsub & Hall).
  { split; [|split; [constructor|split]].
    - intros k. simpl. rewrite elem_of_empty, elem_of_nil. tauto.
    - intros n Hn. apply elem_of_nil in Hn as [].
    - intros n Hn. apply elem_of_nil in Hn as []. }
  simpl in Hsub, Hall. fold (format_artists_list py_upper names) in *. fold shown in Hseen, Hnd, Hsub, Hall.
  split; [exact Hnd|]. split; [exact Hsub|]. split.
  { intros n Hn Hne. apply Hseen, Hall; assumption. }
  unfold format_artists. fold shown. split; intros Hlen.
  - destruct (Nat.ltb_spec 3 (length shown)); [lia|].
    rewrite take_ge by lia. apply app_nil_r.
  - destruct (Nat.ltb_spec 3 (length shown)); [reflexivity | lia].
Qed.

End FormatArtistsFacts.

(* ================================================================== *)
(** * Properties of cli.py: get_itunes_fingerprint *)
(* ================================================================== *)

Lemma py_max_by_fold {K} (key : K -> Z) (rest : list K) :
  forall l1 best l2,
    (forall k, k ∈ l1 -> key k < key best) ->
    (forall k, k ∈ l2 -> key k <= key best) ->
    exists l1' l2',
      let m := fold_left (fun best k' => if key k' >? key best then k' else best) rest best in
      l1 ++ best :: l2 ++ rest = l1' ++ m :: l2' /\
      (forall k, k ∈ l1' -> key k < key m) /\
      (forall k, k ∈ l2' -> key k <= key m).
Proof.
  induction rest as [|k' rest IH]; intros l1 best l2 H1 H2.
  - exists l1, l2. simpl. rewrite app_nil_r. auto.
  - simpl. destruct (key k' >? key best) eqn:Hgt.
    + destruct (IH (l1 ++ best :: l2) k' []) as (l1' & l2' & Heq & Hlt & Hle).
      * intros k Hk. apply elem_of_app in Hk as [Hk|Hk]; [specialize (H1 k Hk); lia|].
        apply elem_of_cons in Hk as [->|Hk]; [lia | specialize (H2 k Hk); lia].
      * intros k Hk. apply elem_of_nil in Hk as [].
      * exists l1', l2'. split; [|split; assumption].
        rewrite <- Heq. rewrite <- !app_assoc. reflexivity.
    + destruct (IH l1 best (l2 ++ [k'])) as (l1' & l2' & Heq & Hlt & Hle).
      * exact H1.
      * intros k Hk. apply elem_of_app in Hk as [Hk|Hk]; [apply H2, Hk|].
        apply list_elem_of_singleton in Hk as ->. lia.
      * exists l1', l2'. split; [|split; assumption].
        rewrite <- Heq. rewrite <- !app_assoc. reflexivity.
Qed.

(** [max(l, key=key)] is the first of the elements of maximal key. *)
Lemma py_max_by_spec {K} (key : K -> Z) (l : list K) (m : K) :
  py_max_by key l = Some m ->
  exists l1 l2, l = l1 ++ m :: l2 /\
    (forall k, k ∈ l1 -> key k < key m) /\ (forall k, k ∈ l2 -> key k <= key m).
Proof.
  destruct l as [|k l]; [discriminate|]. intros [= <-].
  destruct (py_max_by_fold key l [] k []) as (l1 & l2 & Heq & Hlt & Hle).
  - intros k' Hk'. apply elem_of_nil in Hk' as [].
  - intros k' Hk'. apply elem_of_nil in Hk' as [].
  - exists l1, l2. split; [exact Heq | split; assumption].
Qed.

Lemma occurrences_snoc (k a : Z) (l : list Z) :
  occurrences k (l ++ [a]) = occurrences k l + (if decide (a = k) then 1 else 0).
Proof.
  unfold occurrences. rewrite List.filter_app, length_app. simpl.
  destruct (decide (a = k)) as [->|Hne].
  - rewrite bool_decide_eq_true_2 by reflexivity. simpl. lia.
  - rewrite bool_decide_eq_false_2 by exact Hne. simpl. lia.
Qed.

Lemma occurrences_absent (k : Z) (l : list Z) : k ∉ l -> occurrences k l = 0.
Proof.
  unfold occurrences. induction l as [|a l IH]; [reflexivity|]. intros Hk.
  apply not_elem_of_cons in Hk as [Hne Hk]. simpl.
  rewrite bool_decide_eq_false_2 by congruence. apply IH, Hk.
Qed.

Lemma occurrences_present (k : Z) (l : list Z) : k ∈ l -> 0 < occurrences k l.
Proof.
  unfold occurrences. induction l as [|a l IH]; intros Hk.
  - apply elem_of_nil in Hk as [].
  - simpl. destruct (decide (a = k)) as [->|Hne].
    + rewrite bool_decide_eq_true_2 by reflexivity. simpl. lia.
    + rewrite bool_decide_eq_false_2 by exact Hne.
      apply elem_of_cons in Hk as [->|Hk]; [congruence | apply IH, Hk].
Qed.

(** What the counting loop keeps true: the keys are the ids seen, in the
    order in which they were first seen, each with the number of times it
    was seen. *)
Lemma count_id_fold (ids : list Z) :
  let d := fold_left count_id ids [] in
  dict_keys d = first_occurrences ids /\
  forall k, default 0 (dict_get k d) = occurrences k ids.
Proof.
  induction ids as [|a ids IH] using rev_ind; [split; reflexivity|].
  rewrite fold_left_app. cbn [fold_left]. cbv zeta in *.
  destruct IH as [Hkeys Hget]. set (d := fold_left count_id ids []) in *.
  unfold count_id. split.
  - rewrite dict_keys_set, first_occurrences_snoc, Hkeys.
    destruct (decide (a ∈ first_occurrences ids)) as [Hin|Hout];
      destruct (decide (a ∈ ids)) as [Hin'|Hout']; try reflexivity.
    + apply (proj1 (elem_of_first_occurrences _ _)) in Hin. contradiction.
    + apply (proj2 (elem_of_first_occurrences _ _)) in Hin'. contradiction.
  - intros k. rewrite dict_get_set, occurrences_snoc.
    destruct (decide (a = k)) as [->|Hne]; simpl.
    + rewrite Hget. reflexivity.
    + rewrite Hget. lia.
Qed.

Section FingerprintFacts.
Context `{UnicodeData}.

Lemma count_step_ids (target_name : pystr) (results : list Itunes.item) :
  forall d,
    fold_left (count_step target_name) results d =
    fold_left count_id (exact_ids target_name results) d.
Proof.
  induction results as [|item results IH]; intros d; [reflexivity|].
  cbn [fold_left exact_ids omap]. rewrite IH. unfold count_step at 1.
  unfold exact_ids. cbn [omap list_omap].
  destruct (bool_decide (item_name item = target_name)); [|reflexivity].
  destruct (Itunes.artistId item) as [aid|]; [|reflexivity].
  destruct (aid =? 0); reflexivity.
Qed.

(** X19. The artist whose catalog is looked up is, among the ids that the
    search results give to exactly the name looked for (case apart), the
    one that occurs most often, and on a tie the one seen first; there is
    none exactly when no result carries the name with a usable id. *)
Theorem main_artist_most_frequent (target_name : pystr) (results : list Itunes.item) :
  let ids := exact_ids target_name results in
  (main_artist target_name results = None <-> ids = []) /\
  (forall m, main_artist target_name results = Some m ->
     m <> 0 /\
     exists l1 l2,
       first_occurrences ids = l1 ++ m :: l2 /\
       (forall k, k ∈ l1 -> occurrences k ids < occurrences m ids) /\
       (forall k, k ∈ l2 -> occurrences k ids <= occurrences m ids)).
Proof.
  intros ids. unfold main_artist, count_artist_ids. rewrite count_step_ids. fold ids.
  destruct (count_id_fold ids) as [Hkeys Hget]. cbv zeta in Hkeys, Hget.
  rewrite Hkeys. split.
  - destruct ids as [|a ids']; [split; reflexivity|]. split; discriminate.
  - intros m Hm. apply py_max_by_spec in Hm as (l1 & l2 & Heq & Hlt & Hle). split.
    + assert (Hin : m ∈ ids).
      { apply (proj1 (elem_of_first_occurrences _ _)). rewrite Heq.
        apply elem_of_app. right. apply list_elem_of_here. }
      unfold ids, exact_ids in Hin. apply list_elem_of_omap in Hin as (item & _ & Hitem).
      destruct (bool_decide _); [|discriminate].
      destruct (Itunes.artistId item) as [aid|]; [|discriminate].
      destruct (aid =? 0) eqn:E; [discriminate|]. injection Hitem as <-. lia.
    + exists l1, l2. split; [exact Heq|]. split.
      * intros k Hk. rewrite <- !Hget. apply Hlt, Hk.
      * intros k Hk. rewrite <- !Hget. apply Hle, Hk.
Qed.

Lemma add_names_normalized (acc : gset pystr * gset pystr) (item : Itunes.item) :
  normalized acc -> normalized (add_names acc item).
Proof.
  destruct acc as [albums tracks]. intros Hacc s. unfold add_names. cbn [fst snd].
  intros [Hs|Hs].
  - destruct (when_truthy (Itunes.collectionName item)) as [n|];
      [|apply Hacc; left; exact Hs].
    apply elem_of_union in Hs as [Hs|Hs]; [|apply Hacc; left; exact Hs].
    apply elem_of_singleton in Hs. exists n. exact Hs.
  - destruct (when_truthy (Itunes.trackName item)) as [n|];
      [|apply Hacc; right; exact Hs].
    apply elem_of_union in Hs as [Hs|Hs]; [|apply Hacc; right; exact Hs].
    apply elem_of_singleton in Hs. exists n. exact Hs.
Qed.

Lemma fold_normalized {X} (step : gset pystr * gset pystr -> X -> gset pystr * gset pystr)
    (l : list X) :
  (forall acc x, normalized acc -> normalized (step acc x)) ->
  forall acc, normalized acc -> normalized (fold_left step l acc).
Proof.
  intros Hstep. induction l as [|x l IH]; intros acc Hacc; [exact Hacc|].
  simpl. apply IH, Hstep, Hacc.
Qed.

Lemma search_step_normalized (target_name : pystr) (main_artist_id : Z)
    (acc : gset pystr * gset pystr) (item : Itunes.item) :
  normalized acc -> normalized (search_step target_name main_artist_id acc item).
Proof.
  intros Hacc. unfold search_step. destruct (str_contains _ _); [|exact Hacc].
  destruct (_ && _); [exact Hacc | apply add_names_normalized, Hacc].
Qed.

Lemma normalized_empty : normalized (∅, ∅).
Proof. intros s [Hs|Hs]; apply elem_of_empty in Hs as []. Qed.

(** X20. The two reference sets hold normal forms only: every member is
    a string over a-z and 0-9 that [normalize_str] leaves as it is, so
    the lookups of the reconciliation compare like with like.  Both sets
    are empty when the search does not answer with results, when no
    result carries exactly the name with a usable id, and when the lookup
    raises. *)
Theorem itunes_fingerprint_normalized (search : itunes_response)
    (lookup : Z -> itunes_response) (artist_name : pystr) :
  let fingerprint := get_itunes_fingerprint search lookup artist_name in
  (forall s, s ∈ fst fingerprint \/ s ∈ snd fingerprint ->
     forallb is_az09 s = true /\ normalize_str s = s) /\
  ((forall results, search <> ItunesResults results) -> fingerprint = (∅, ∅)) /\
  (forall results, search = ItunesResults results ->
     exact_ids (py_lower artist_name) results = [] -> fingerprint = (∅, ∅)) /\
  (forall results m, search = ItunesResults results ->
     main_artist (py_lower artist_name) results = Some m ->
     lookup m = ItunesRaises -> fingerprint = (∅, ∅)).
Proof.
  intros fingerprint. split; [|split; [|split]].
  - assert (Hnorm : normalized fingerprint).
    { unfold fingerprint, get_itunes_fingerprint.
      destruct search as [| |results]; try apply normalized_empty.
      destruct (main_artist _ results) as [m|]; [|apply normalized_empty].
      destruct (lookup m) as [| |looked_up]; [apply normalized_empty| |].
      - apply fold_normalized; [apply search_step_normalized | apply normalized_empty].
      - apply fold_normalized; [apply search_step_normalized|].
        apply fold_normalized; [apply add_names_normalized | apply normalized_empty]. }
    intros s Hs. destruct (Hnorm s Hs) as [x ->].
    split; [apply normalize_str_az09|].
    apply normalize_str_fixes_az09, normalize_str_az09.
  - intros Hno. unfold fingerprint, get_itunes_fingerprint.
    destruct search as [| |results]; try reflexivity. destruct (Hno results eq_refl).
  - intros results -> Hids. unfold fingerprint, get_itunes_fingerprint.
    unfold main_artist, count_artist_ids. rewrite count_step_ids, Hids. reflexivity.
  - intros results m -> Hm Hraise. unfold fingerprint, get_itunes_fingerprint.
    rewrite Hm, Hraise. reflexivity.
Qed.

End FingerprintFacts.

(* ================================================================== *)
(** * Properties of cli.py: the searches *)
(* ================================================================== *)

Section SearchFacts.
Context `{UnicodeData}.

(** Every record of the input has a record of the output with its key
    that is at least as good. *)
Lemma dedup_represented (l : list Track.t) (t : Track.t) :
  t ∈ l ->
  exists t', t' ∈ deduplicate_tracks l /\ dedup_key t' = dedup_key t /\
    qualities (Track.audioQuality t) <= qualities (Track.audioQuality t').
Proof.
  intros Ht. destruct (dedup_inv_fold l) as [Hkeys Hent].
  assert (Hk : dedup_key t ∈ dict_keys (fold_left dedup_step l [])).
  { rewrite Hkeys. apply (proj2 (elem_of_first_occurrences _ _)).
    apply list_elem_of_fmap_2, Ht. }
  unfold dict_keys in Hk. apply list_elem_of_fmap in Hk as ([k t'] & Hkey & Hin).
  simpl in Hkey. subst k. destruct (Hent _ _ Hin) as [Hsame (l1 & l2 & Hl & Hbefore & Hafter)].
  exists t'. split; [|split; [exact Hsame|]].
  - unfold deduplicate_tracks, dict_values.
    apply (list_elem_of_fmap_2 snd _ _ Hin).
  - rewrite Hl in Ht. apply elem_of_app in Ht as [Ht|Ht].
    + specialize (Hbefore t Ht (eq_sym Hsame)). lia.
    + apply elem_of_cons in Ht as [->|Ht]; [lia|].
      apply (Hafter t Ht (eq_sym Hsame)).
Qed.

(** X21. Every track the track search shows is a search result whose
    title holds the query, case apart; every search result whose title
    holds the query is shown, or stands behind a shown track of the same
    normalized title, album and explicit flag whose quality is at least
    as good; the table is empty exactly when no title holds the query. *)
Theorem track_search_matches (query : pystr) (all_tracks : list Track.t) :
  let shown := track_search query all_tracks in
  (forall t, t ∈ shown -> t ∈ all_tracks /\ title_matches query t = true) /\
  (forall t, t ∈ all_tracks -> title_matches query t = true ->
     exists t', t' ∈ shown /\ dedup_key t' = dedup_key t /\
       qualities (Track.audioQuality t) <= qualities (Track.audioQuality t')) /\
  (shown = [] <-> forall t, t ∈ all_tracks -> title_matches query t = false).
Proof.
  intros shown. unfold shown, track_search. split; [|split].
  - intros t Ht. apply dedup_elem, list_elem_of_In, filter_In in Ht as [Ht Hm].
    split; [apply list_elem_of_In, Ht | exact Hm].
  - intros t Ht Hm. apply dedup_represented, list_elem_of_In, filter_In.
    split; [apply list_elem_of_In, Ht | exact Hm].
  - split.
    + intros Hnil t Ht. destruct (title_matches query t) eqn:Hm; [|reflexivity].
      destruct (dedup_represented (List.filter (title_matches query) all_tracks) t)
        as (t' & Ht' & _).
      * apply list_elem_of_In, filter_In. split; [apply list_elem_of_In, Ht | exact Hm].
      * rewrite Hnil in Ht'. apply elem_of_nil in Ht' as [].
    + intros Hnone.
      destruct (deduplicate_tracks (List.filter (title_matches query) all_tracks))
        as [|t l] eqn:Hd; [reflexivity|]. exfalso.
      assert (Ht : t ∈ deduplicate_tracks (List.filter (title_matches query) all_tracks))
        by (rewrite Hd; apply list_elem_of_here).
      apply dedup_elem, list_elem_of_In, filter_In in Ht as [Ht Hm].
      rewrite (Hnone t) in Hm by apply list_elem_of_In, Ht. discriminate.
Qed.

Lemma found_inv_step (q_lower : pystr) (seen : list Artist.t)
    (d : list (Z * Artist.t)) (a : Artist.t) :
  found_inv q_lower seen d -> found_inv q_lower (seen ++ [a]) (found_step q_lower d a).
Proof.
  intros (Hnd & Hent & Hall). unfold found_step.
  assert (Hent' : forall k b, (k, b) ∈ d ->
            k = Artist.id b /\ name_is q_lower b = true /\ b ∈ seen ++ [a]).
  { intros k b Hin. destruct (Hent k b Hin) as (Hk & Hn & Hs).
    split; [exact Hk|]. split; [exact Hn|]. apply elem_of_app. left. exact Hs. }
  destruct (name_is q_lower a) eqn:Hname.
  - destruct (dict_get (Artist.id a) d) as [b|] eqn:Hget.
    + split; [exact Hnd|]. split; [exact Hent'|].
      intros b' Hb' Hn. apply elem_of_app in Hb' as [Hb'|Hb']; [apply Hall; assumption|].
      apply list_elem_of_singleton in Hb' as ->.
      apply (elem_dict_keys _ b), dict_get_elem, Hget.
    + apply dict_get_None in Hget. rewrite (dict_set_fresh _ _ _ Hget).
      split; [|split].
      * unfold dict_keys. rewrite map_app. apply NoDup_app. split; [exact Hnd|].
        split; [|apply NoDup_singleton].
        intros k Hk Hk'. apply list_elem_of_singleton in Hk'. simpl in Hk'. subst k.
        apply Hget, Hk.
      * intros k b Hin. apply elem_of_app in Hin as [Hin|Hin]; [apply Hent', Hin|].
        apply list_elem_of_singleton in Hin. injection Hin as -> ->.
        split; [reflexivity|]. split; [exact Hname|].
        apply elem_of_app. right. apply list_elem_of_here.
      * intros b Hb Hn. unfold dict_keys. rewrite map_app. apply elem_of_app.
        apply elem_of_app in Hb as [Hb|Hb]; [left; apply Hall; assumption|].
        apply list_elem_of_singleton in Hb as ->. right. apply list_elem_of_here.
  - split; [exact Hnd|]. split; [exact Hent'|].
    intros b Hb Hn. apply elem_of_app in Hb as [Hb|Hb]; [apply Hall; assumption|].
    apply list_elem_of_singleton in Hb as ->. congruence.
Qed.

Lemma found_inv_artists (q_lower : pystr) (artists : list Artist.t) :
  forall seen d, found_inv q_lower seen d ->
    found_inv q_lower (seen ++ artists) (fold_left (found_step q_lower) artists d).
Proof.
  induction artists as [|a artists IH]; intros seen d Hinv; simpl.
  - rewrite app_nil_r. exact Hinv.
  - replace (seen ++ a :: artists) with ((seen ++ [a]) ++ artists)
      by (rewrite <- app_assoc; reflexivity).
    apply IH, found_inv_step, Hinv.
Qed.

Lemma found_inv_tracks (q_lower : pystr) (tracks : list Track.t) :
  forall seen d, found_inv q_lower seen d ->
    found_inv q_lower (seen ++ flat_map Track.artists tracks)
      (fold_left (fun d t => fold_left (found_step q_lower) (Track.artists t) d) tracks d).
Proof.
  induction tracks as [|t tracks IH]; intros seen d Hinv; simpl.
  - rewrite app_nil_r. exact Hinv.
  - rewrite app_assoc. apply IH, found_inv_artists, Hinv.
Qed.

(** X22. The artists offered by the artist search have pairwise distinct
    ids; each of them is listed on a track of the search results and
    carries exactly the name asked for, case and surrounding blanks
    apart; and every such artist of the results is offered under its
    id. *)
Theorem found_artists_distinct (query : pystr) (tracks : list Track.t) :
  let q_lower := py_strip (py_lower query) in
  let found := found_artists query tracks in
  NoDup (map Artist.id found) /\
  (forall a, a ∈ found ->
     name_is q_lower a = true /\ exists t, t ∈ tracks /\ a ∈ Track.artists t) /\
  (forall t a, t ∈ tracks -> a ∈ Track.artists t -> name_is q_lower a = true ->
     Artist.id a ∈ map Artist.id found).
Proof.
  intros q_lower found.
  destruct (found_inv_tracks q_lower tracks [] []) as (Hnd & Hent & Hall).
  { split; [constructor|]. split.
    - intros k a Hin. apply elem_of_nil in Hin as [].
    - intros a Hin. apply elem_of_nil in Hin as []. }
  rewrite app_nil_l in Hent, Hall.
  fold q_lower in Hnd, Hent, Hall. unfold found, found_artists. fold q_lower.
  set (d := fold_left _ tracks []) in *.
  assert (Hids : map Artist.id (dict_values d) = dict_keys d).
  { unfold dict_values, dict_keys. rewrite map_map. apply map_ext_in.
    intros [k a] Hin. simpl. symmetry. apply (Hent k a), list_elem_of_In, Hin. }
  rewrite Hids. split; [exact Hnd|]. split.
  - intros a Ha. unfold dict_values in Ha.
    apply list_elem_of_fmap in Ha as ([k a'] & -> & Hin). simpl.
    destruct (Hent k a' Hin) as (_ & Hn & Hs). split; [exact Hn|].
    apply list_elem_of_In, in_flat_map in Hs as (t & Ht & Ha).
    exists t. split; apply list_elem_of_In; assumption.
  - intros t a Ht Ha Hn. apply Hall; [|exact Hn].
    apply list_elem_of_In, in_flat_map. exists t. split; apply list_elem_of_In; assumption.
Qed.

End SearchFacts.

(* ------------------------------------------------------------------ *)
(** ** _download_dash without a timeline *)
(* ------------------------------------------------------------------ *)

(** X23. On a manifest without a segment timeline the download asks for
    the media segment number 1 and for nothing else, not even for the
    initialization segment: two sources that agree on that address give
    the same result, and when the segment is served the file returned
    holds its bytes and nothing else is written.  The file is named after
    all the artists of the track, where the assembly from a timeline
    names it after the primary artist. *)
Theorem download_dash_without_timeline (fetch fetch' : pystr -> response)
    (urljoin : pystr -> pystr -> pystr) (parse_mpd : pybytes -> mpd) (output_dir : pystr)
    (manifest_xml : pybytes) (metadata : Track.t) (fs : gmap pystr pybytes)
    (base_url init_template media_template : pystr) :
  parse_mpd manifest_xml =
    SegmentTemplate base_url (Some init_template) (Some media_template) None ->
  init_template <> [] -> media_template <> [] ->
  let media_url := seg_url urljoin base_url media_template 1 in
  let path :=
    os_path_join output_dir
      (_sanitize_filename
         (artist_names metadata ++ u " - " ++ Track.title metadata ++ u ".flac")) in
  (fetch media_url = fetch' media_url ->
     _download_dash fetch urljoin parse_mpd output_dir manifest_xml metadata fs =
     _download_dash fetch' urljoin parse_mpd output_dir manifest_xml metadata fs) /\
  (forall data, body (fetch media_url) = Some data ->
     _download_dash fetch urljoin parse_mpd output_dir manifest_xml metadata fs =
     (inr path, <[path := data]> fs)).
Proof.
  intros Hparse Hinit Hmedia media_url path. unfold _download_dash. rewrite Hparse.
  destruct init_template as [|c1 i1]; [congruence|].
  destruct media_template as [|c2 m2]; [congruence|].
  fold media_url. fold path. split.
  - intros Hsame. apply bind_ext; [|reflexivity]. apply download_file_ext, Hsame.
  - intros data Hdata.
    rewrite (bind_ok _ _ fs (<[path := data]> fs) tt); [reflexivity|].
    apply download_file_ok, Hdata.
Qed.

Lemma download_dash_without_timeline_witness :
  let path := u "downloads/Muse - Uprising.flac" in
  (Sample.fetch (u "http://cdn/seg_1.m4s") = SampleMore.fetch_more (u "http://cdn/seg_1.m4s") ->
     _download_dash Sample.fetch Sample.urljoin SampleMore.parse_mpd_flat Sample.output_dir
       [] Sample.uprising ∅ =
     _download_dash SampleMore.fetch_more Sample.urljoin SampleMore.parse_mpd_flat
       Sample.output_dir [] Sample.uprising ∅) /\
  _download_dash Sample.fetch Sample.urljoin SampleMore.parse_mpd_flat Sample.output_dir
    [] Sample.uprising ∅ = (inr path, <[path := [4%N]]> ∅).
Proof.
  destruct (download_dash_without_timeline Sample.fetch SampleMore.fetch_more Sample.urljoin
              SampleMore.parse_mpd_flat Sample.output_dir [] Sample.uprising ∅
              (u "http://cdn/") (u "init.mp4") (u "seg_$Number$.m4s"))
    as [Hsame Hserved]; [reflexivity | discriminate | discriminate |].
  split; [exact Hsame|]. apply (Hserved [4%N]). reflexivity.
Defined.
